(** * GeoTiler: the map view of [geotiler/map.py]

    A shallow embedding of [geotiler/map.py]: the [Map] class with its three
    property setters, the two projection helpers [calculateMapCenter] and
    [calculateMapExtent], the pixel/location conversions and the tile grid
    walk of [render_map].

    Numbers.  Python's [float] and [int] values are embedded as exact
    rationals ([Q]) and integers ([Z]); two numbers are the same value when
    they are [Qeq].  Arithmetic is therefore exact: rounding error of the
    IEEE operations is outside the model.  The two functions of the
    [math] module are parameters ([PyMath]): [math.pow(2, e)] is only known
    at integer exponents, and [math.ceil(math.log(f) / math.log(2))], which
    the C library's logarithm and a floating-point division produce, is one
    step whose value is left open.  It is close to the binary logarithm of
    [f], but it is not always its ceiling: where a property needs the
    ceiling to be accurate, the statement says so. *)

From Stdlib Require Import ZArith QArith Qround Qabs Qminmax Qpower Floats.
From Stdlib Require Import Lia Lqa List String Permutation Morphisms Bool.
Import ListNotations.

Local Open Scope Q_scope.

(** ** Python numbers *)

(** [int(q)]: truncation towards zero. *)
Definition py_int (q : Q) : Z := Z.quot (Qnum q) (Zpos (Qden q)).

(** [round(q)] with one argument: nearest integer, ties to the even one. *)
Definition py_round (q : Q) : Z :=
  let f := Qfloor q in
  match Qcompare (q - inject_Z f) (1 # 2) with
  | Lt => f
  | Gt => (f + 1)%Z
  | Eq => if Z.even f then f else (f + 1)%Z
  end.

(** The functions of the [math] module that [map.py] calls.

    [pow2 e] is [math.pow(2, e)].  The library function is kept abstract;
    what the development relies on is that it respects numeric equality and
    is exact at integer exponents.

    [ceil_log f] is [math.ceil(math.log(f) / math.log(2))] for a float
    [0 < f].  The logarithm is the C library's and the quotient is rounded,
    so the integer is the platform's: with IEEE doubles it is 29 + 1 at
    [f = 2 ** 29], where the quotient is 29.000000000000004.  The function
    is kept abstract; all that is fixed is that it is a function of the
    number's value. *)
Class PyMath := {
  pow2 : Q -> Q;
  pow2_proper : Proper (Qeq ==> Qeq) pow2;
  pow2_Z : forall z : Z, pow2 (inject_Z z) == 2 ^ z;
  ceil_log : Q -> Z;
  ceil_log_proper : Proper (Qeq ==> eq) ceil_log
}.

#[export] Existing Instance pow2_proper.
#[export] Existing Instance ceil_log_proper.

(** ** Exceptions *)

Inductive exc : Type :=
| ValueError (msg : string)
| ZeroDivisionError (msg : string)
| ProviderError (cls : string).

(** The class name of a raised exception. *)
Definition exc_name (e : exc) : string :=
  match e with
  | ValueError _ => "ValueError"
  | ZeroDivisionError _ => "ZeroDivisionError"
  | ProviderError cls => cls
  end.

Inductive result (A : Type) : Type :=
| Ok (a : A)
| Raise (e : exc).
Arguments Ok {A} a.
Arguments Raise {A} e.

Definition bind {A B} (r : result A) (k : A -> result B) : result B :=
  match r with
  | Ok a => k a
  | Raise e => Raise e
  end.

Declare Scope py_scope.
Delimit Scope py_scope with py.
Notation "x <- r ;; k" := (bind r (fun x => k))
  (at level 61, r at next level, right associativity) : py_scope.
Notation "' p <- r ;; k" := (bind r (fun x => let p := x in k))
  (at level 61, p pattern, r at next level, right associativity) : py_scope.
Local Open Scope py_scope.

(** [a / b] on floats. *)
Definition py_div (a b : Q) : result Q :=
  if Qeq_bool b 0 then Raise (ZeroDivisionError "float division by zero")
  else Ok (a / b).

(** [math.ceil(math.log(f) / math.log(2))]; [math.log] rejects [f <= 0]. *)
Definition ceil_log2 `{PyMath} (f : Q) : result Z :=
  if Qle_bool f 0 then Raise (ValueError "math domain error")
  else Ok (ceil_log f).

(** [min(l)] and [max(l)] of a list. *)
Definition py_min (l : list Q) : result Q :=
  match l with
  | [] => Raise (ValueError "min() arg is an empty sequence")
  | a :: l' => Ok (fold_left Qmin l' a)
  end.

Definition py_max (l : list Q) : result Q :=
  match l with
  | [] => Raise (ValueError "max() arg is an empty sequence")
  | a :: l' => Ok (fold_left Qmax l' a)
  end.

(** [list(map(f, l))] for an [f] that may raise. *)
Fixpoint map_result {A B} (f : A -> result B) (l : list A) : result (list B) :=
  match l with
  | [] => Ok []
  | a :: l' => b <- f a ;; bs <- map_result f l' ;; Ok (b :: bs)
  end.

(** [range(start, stop, step)]. *)
Definition py_range (start stop step : Z) : result (list Z) :=
  match Z.compare step 0 with
  | Eq => Raise (ValueError "range() arg 3 must not be zero")
  | Gt =>
      let n := Z.to_nat ((stop - start + step - 1) / step) in
      Ok (map (fun i => start + Z.of_nat i * step) (seq 0 n))%Z
  | Lt =>
      let n := Z.to_nat ((start - stop - step - 1) / (- step)) in
      Ok (map (fun i => start + Z.of_nat i * step) (seq 0 n))%Z
  end.

(** ** shapely's [Point]

    The code uses the one class for pixel positions and for geographical
    locations alike. *)
Module Point.
Record t : Type := new { x : Q; y : Q }.

Definition eqv (p q : t) : Prop := x p == x q /\ y p == y q.
End Point.

(** ** [Core.Coordinate] *)
Module Coordinate.
Record t : Type := new { row : Q; column : Q; zoom : Q }.

Definition eqv (c d : t) : Prop :=
  row c == row d /\ column c == column d /\ zoom c == zoom d.

(** [Core.Coordinate.MAX_ZOOM] is declared outside [map.py]; the constant
    is a parameter of the development. *)
Class max_zoom : Set := MAX_ZOOM : Z.

(** Modelled from the spec: [Core.Coordinate.copy] is declared outside
    [map.py]; coordinates are immutable values, so a copy is the value. *)
Definition copy (c : t) : t := c.

(** Modelled from the spec: [Core.Coordinate.container] is declared outside
    [map.py]; row and column are floored to integers, the zoom is kept. *)
Definition container (c : t) : t :=
  new (inject_Z (Qfloor (row c))) (inject_Z (Qfloor (column c))) (zoom c).

(** Modelled from the spec: [Core.Coordinate.zoomTo] is declared outside
    [map.py]; row and column are rescaled by [2 ^ (z - zoom)] and the zoom
    is set to [z]. *)
Definition zoomTo `{PyMath} (c : t) (z : Q) : t :=
  new (row c * pow2 (z - zoom c)) (column c * pow2 (z - zoom c)) z.

(** Modelled from the spec: [Core.Coordinate.left], [right], [up] and
    [down] are declared outside [map.py]; column - 1 / + 1 and
    row - 1 / + 1, the other fields kept. *)
Definition left (c : t) : t := new (row c) (column c - 1) (zoom c).
Definition right (c : t) : t := new (row c) (column c + 1) (zoom c).
Definition up (c : t) : t := new (row c - 1) (column c) (zoom c).
Definition down (c : t) : t := new (row c + 1) (column c) (zoom c).
End Coordinate.

(** ** The provider of map tiles *)
Record Provider : Type := {
  tile_width : Z;
  tile_height : Z;
  locationCoordinate : Point.t -> result Coordinate.t;
  coordinateLocation : Coordinate.t -> result Point.t
}.

(** ** Projection helpers *)

Definition calculateMapCenter (provider : Provider) (centerCoord : Coordinate.t)
  : Coordinate.t * Point.t :=
  (* initial tile coordinate *)
  let initTileCoord := Coordinate.container centerCoord in
  (* initial tile position, assuming centered tile well in grid *)
  let initX := (Coordinate.column initTileCoord - Coordinate.column centerCoord)
               * inject_Z (tile_width provider) in
  let initY := (Coordinate.row initTileCoord - Coordinate.row centerCoord)
               * inject_Z (tile_height provider) in
  let initPoint :=
    Point.new (inject_Z (py_round initX)) (inject_Z (py_round initY)) in
  (initTileCoord, initPoint).

Definition calculateMapExtent `{PyMath} (provider : Provider) (width height : Z)
    (args : list Point.t) : result (Coordinate.t * Point.t) :=
  coordinates <- map_result (locationCoordinate provider) args ;;
  tl_row <- py_min (map Coordinate.row coordinates) ;;
  tl_column <- py_min (map Coordinate.column coordinates) ;;
  tl_zoom <- py_min (map Coordinate.zoom coordinates) ;;
  let TL := Coordinate.new tl_row tl_column tl_zoom in
  br_row <- py_max (map Coordinate.row coordinates) ;;
  br_column <- py_max (map Coordinate.column coordinates) ;;
  br_zoom <- py_max (map Coordinate.zoom coordinates) ;;
  let BR := Coordinate.new br_row br_column br_zoom in
  (* multiplication factor between horizontal span and map width *)
  hTiles <- py_div (inject_Z width) (inject_Z (tile_width provider)) ;;
  hFactor <- py_div (Coordinate.column BR - Coordinate.column TL) hTiles ;;
  (* multiplication factor expressed as base-2 logarithm, for zoom difference *)
  hZoomDiff <- ceil_log2 hFactor ;;
  (* possible horizontal zoom to fit geographical extent in map width *)
  let hPossibleZoom := Coordinate.zoom TL - inject_Z hZoomDiff in
  (* multiplication factor between vertical span and map height *)
  vTiles <- py_div (inject_Z height) (inject_Z (tile_height provider)) ;;
  vFactor <- py_div (Coordinate.row BR - Coordinate.row TL) vTiles ;;
  vZoomDiff <- ceil_log2 vFactor ;;
  (* possible vertical zoom to fit geographical extent in map height *)
  let vPossibleZoom := Coordinate.zoom TL - inject_Z vZoomDiff in
  (* initial zoom to fit extent vertically and horizontally *)
  let initZoom := Qmin hPossibleZoom vPossibleZoom in
  (* coordinate of extent center *)
  let centerRow := (Coordinate.row TL + Coordinate.row BR) / 2 in
  let centerColumn := (Coordinate.column TL + Coordinate.column BR) / 2 in
  let centerZoom := (Coordinate.zoom TL + Coordinate.zoom BR) / 2 in
  let centerCoord :=
    Coordinate.zoomTo (Coordinate.new centerRow centerColumn centerZoom)
                      initZoom in
  Ok (calculateMapCenter provider centerCoord).

(** ** The [Map] class

    [__init__] returns only after [_on_change_extent_zoom] has assigned
    [coordinate], [offset] and [_size] (its three assertions), so a [Map]
    value carries them.  [_center] is assigned once, to [None]. *)
Module Map.
Record t : Type := Build {
  provider : Provider;
  coordinate : Coordinate.t;
  offset : Point.t;
  _extent : Q * Q * Q * Q;
  _center : option Point.t;
  _zoom : Q;
  _size : Z * Z
}.

(** Attribute assignments [self.f = v]. *)
Definition set_coordinate (self : t) (v : Coordinate.t) : t :=
  Build (provider self) v (offset self) (_extent self) (_center self)
        (_zoom self) (_size self).
Definition set_offset (self : t) (v : Point.t) : t :=
  Build (provider self) (coordinate self) v (_extent self) (_center self)
        (_zoom self) (_size self).
Definition set__extent (self : t) (v : Q * Q * Q * Q) : t :=
  Build (provider self) (coordinate self) (offset self) v (_center self)
        (_zoom self) (_size self).
Definition set__zoom (self : t) (v : Q) : t :=
  Build (provider self) (coordinate self) (offset self) (_extent self)
        (_center self) v (_size self).
Definition set__size (self : t) (v : Z * Z) : t :=
  Build (provider self) (coordinate self) (offset self) (_extent self)
        (_center self) (_zoom self) v.

(** What a method call leaves behind: the object, and the exception when
    the call raised. *)
Inductive outcome : Type :=
| Done (self : t)
| Failed (e : exc) (self : t).

(** The object after the call, however it ended. *)
Definition state (o : outcome) : t :=
  match o with
  | Done self => self
  | Failed _ self => self
  end.

Definition _on_change_extent_zoom `{PyMath} (provider : Provider)
    (extent : Q * Q * Q * Q) (zoom : Q) : result t :=
  (* a coordinate per corner *)
  let '(x1, y1, x2, y2) := extent in
  let p1 := Point.new x1 y1 in
  let p2 := Point.new x2 y2 in
  ca <- locationCoordinate provider p1 ;;
  let coord_a := Coordinate.zoomTo ca zoom in
  cb <- locationCoordinate provider p2 ;;
  let coord_b := Coordinate.zoomTo cb zoom in
  (* precise width and height in pixels *)
  let width := Qabs (Coordinate.column coord_a - Coordinate.column coord_b)
               * inject_Z (tile_width provider) in
  let height := Qabs (Coordinate.row coord_a - Coordinate.row coord_b)
                * inject_Z (tile_height provider) in
  (* projected center of the map *)
  let center_coord :=
    Coordinate.new ((Coordinate.row coord_a + Coordinate.row coord_b) / 2)
                   ((Coordinate.column coord_a + Coordinate.column coord_b) / 2)
                   zoom in
  let '(map_coord, map_offset) := calculateMapCenter provider center_coord in
  Ok (Build provider map_coord map_offset extent None zoom
            (py_int width, py_int height)).

Definition __init__ `{PyMath} (extent : Q * Q * Q * Q) (zoom : Q)
    (provider : Provider) : result t :=
  _on_change_extent_zoom provider extent zoom.

(** The provider's projection is applied to [self._center]; on [None] no
    location is there to project and the call raises. *)
Definition _on_change_zoom `{PyMath} (self : t) : outcome :=
  match _center self with
  | None => Failed (ProviderError "AttributeError") self
  | Some center =>
      match locationCoordinate (provider self) center with
      | Raise e => Failed e self
      | Ok c =>
          let center_coord := Coordinate.zoomTo c (_zoom self) in
          let '(map_coord, map_offset) :=
            calculateMapCenter (provider self) center_coord in
          Done (set_offset (set_coordinate self map_coord) map_offset)
      end
  end.

Definition _on_change_extent `{PyMath} (self : t) : outcome :=
  let '(width, height) := _size self in
  let '(x1, y1, x2, y2) := _extent self in
  let p1 := Point.new x1 y1 in
  let p2 := Point.new x2 y2 in
  match calculateMapExtent (provider self) width height [p1; p2] with
  | Raise e => Failed e self
  | Ok (map_coord, map_offset) =>
      Done (set_offset (set_coordinate self map_coord) map_offset)
  end.

Definition locationPoint `{PyMath} (self : t) (location : Point.t)
  : result Point.t :=
  let point := Point.new (Point.x (offset self)) (Point.y (offset self)) in
  c <- locationCoordinate (provider self) location ;;
  let coord := Coordinate.zoomTo c (Coordinate.zoom (coordinate self)) in
  (* distance from the known coordinate offset *)
  let point :=
    Point.new
      (Point.x point + inject_Z (tile_width (provider self))
         * (Coordinate.column coord - Coordinate.column (coordinate self)))
      (Point.y point + inject_Z (tile_height (provider self))
         * (Coordinate.row coord - Coordinate.row (coordinate self))) in
  (* because of the center/corner business *)
  let '(w, h) := _size self in
  let point := Point.new (Point.x point + inject_Z w / 2)
                         (Point.y point + inject_Z h / 2) in
  Ok point.

Definition pointLocation `{PyMath} `{Coordinate.max_zoom} (self : t)
    (point : Point.t) : result Point.t :=
  let hizoomCoord :=
    Coordinate.zoomTo (coordinate self) (inject_Z Coordinate.MAX_ZOOM) in
  let '(w, h) := _size self in
  (* because of the center/corner business *)
  let point := Point.new (Point.x point - inject_Z w / 2)
                         (Point.y point - inject_Z h / 2) in
  (* distance in tile widths from reference tile to point *)
  xTiles <- py_div (Point.x point - Point.x (offset self))
                   (inject_Z (tile_width (provider self))) ;;
  yTiles <- py_div (Point.y point - Point.y (offset self))
                   (inject_Z (tile_height (provider self))) ;;
  (* distance in rows & columns at maximum zoom *)
  let xDistance :=
    xTiles * pow2 (inject_Z Coordinate.MAX_ZOOM
                   - Coordinate.zoom (coordinate self)) in
  let yDistance :=
    yTiles * pow2 (inject_Z Coordinate.MAX_ZOOM
                   - Coordinate.zoom (coordinate self)) in
  (* new point coordinate reflecting that distance *)
  let coord :=
    Coordinate.new
      (inject_Z (py_round (Coordinate.row hizoomCoord + yDistance)))
      (inject_Z (py_round (Coordinate.column hizoomCoord + xDistance)))
      (Coordinate.zoom hizoomCoord) in
  let coord := Coordinate.zoomTo coord (Coordinate.zoom (coordinate self)) in
  coordinateLocation (provider self) coord.

Definition _on_change_size `{PyMath} `{Coordinate.max_zoom} (self : t)
  : outcome :=
  let '(w, h) := _size self in
  match pointLocation self (Point.new 0 (inject_Z h)) with
  | Raise e => Failed e self
  | Ok p1 =>
      match pointLocation self (Point.new (inject_Z w) 0) with
      | Raise e => Failed e self
      | Ok p2 =>
          Done (set__extent self
                  (Point.x p1, Point.y p1, Point.x p2, Point.y p2))
      end
  end.

(** The properties. *)
Definition extent (self : t) : Q * Q * Q * Q := _extent self.
Definition zoom (self : t) : Q := _zoom self.
Definition size (self : t) : Z * Z := _size self.

Definition extent_setter `{PyMath} (self : t) (extent : Q * Q * Q * Q)
  : outcome :=
  let self := set__extent self extent in
  _on_change_extent self.

Definition zoom_setter `{PyMath} (self : t) (zoom : Q) : outcome :=
  let self := set__zoom self zoom in
  _on_change_zoom self.

Definition size_setter `{PyMath} `{Coordinate.max_zoom} (self : t)
    (size : Z * Z) : outcome :=
  let self := set__size self size in
  _on_change_size self.
End Map.

(** ** [render_map]

    [TileRequest] and [render_tiles] belong to [tilenet]; [render_map] below
    returns the list of requests it hands to [render_tiles]. *)
Record TileRequest : Type := {
  request_provider : Provider;
  request_coordinate : Coordinate.t;
  request_point : Point.t
}.

(** [while corner.x > 0]: one tile to the left per turn.  [None] when the
    fuel runs out before the loop is left. *)
Fixpoint walk_left (fuel : nat) (provider : Provider) (corner : Point.t)
    (coord : Coordinate.t) {struct fuel} : option (Point.t * Coordinate.t) :=
  if Qle_bool (Point.x corner) 0 then Some (corner, coord)
  else
    match fuel with
    | O => None
    | S fuel' =>
        walk_left fuel' provider
          (Point.new (Point.x corner - inject_Z (tile_width provider))
                     (Point.y corner))
          (Coordinate.left coord)
    end.

(** [while corner.y > 0]: one tile up per turn. *)
Fixpoint walk_up (fuel : nat) (provider : Provider) (corner : Point.t)
    (coord : Coordinate.t) {struct fuel} : option (Point.t * Coordinate.t) :=
  if Qle_bool (Point.y corner) 0 then Some (corner, coord)
  else
    match fuel with
    | O => None
    | S fuel' =>
        walk_up fuel' provider
          (Point.new (Point.x corner)
                     (Point.y corner - inject_Z (tile_height provider)))
          (Coordinate.up coord)
    end.

(** The inner [for x in range(...)] loop for one row of tiles. *)
Fixpoint row_tiles (provider : Provider) (tileCoord : Coordinate.t)
    (xs : list Z) (y : Z) : list TileRequest :=
  match xs with
  | [] => []
  | x :: xs' =>
      Build_TileRequest provider tileCoord
        (Point.new (inject_Z x) (inject_Z y))
      :: row_tiles provider (Coordinate.right tileCoord) xs' y
  end.

(** The outer [for y in range(...)] loop; the inner range is built anew in
    every turn. *)
Fixpoint grid_tiles (provider : Provider) (w : Z) (corner : Point.t)
    (rowCoord : Coordinate.t) (ys : list Z) : result (list TileRequest) :=
  match ys with
  | [] => Ok []
  | y :: ys' =>
      let tileCoord := Coordinate.copy rowCoord in
      xs <- py_range (py_int (Point.x corner)) w (tile_width provider) ;;
      rest <- grid_tiles provider w corner (Coordinate.down rowCoord) ys' ;;
      Ok (row_tiles provider tileCoord xs y ++ rest)
  end.

Definition render_map (fuel : nat) (map : Map.t)
  : option (result (list TileRequest)) :=
  let coord := Coordinate.copy (Map.coordinate map) in
  let '(w, h) := Map._size map in
  let corner :=
    Point.new
      (inject_Z (py_int (Point.x (Map.offset map) + inject_Z w / 2)))
      (inject_Z (py_int (Point.y (Map.offset map) + inject_Z h / 2))) in
  match walk_left fuel (Map.provider map) corner coord with
  | None => None
  | Some (corner, coord) =>
      match walk_up fuel (Map.provider map) corner coord with
      | None => None
      | Some (corner, coord) =>
          let rowCoord := Coordinate.copy coord in
          Some (ys <- py_range (py_int (Point.y corner)) h
                        (tile_height (Map.provider map)) ;;
                grid_tiles (Map.provider map) w corner rowCoord ys)
      end
  end.

(** ** Notions used by the statements *)

(** The precise width and height in pixels that the extent between two
    projected corners takes at [zoom]: the "precise width and height" of
    [Map._on_change_extent_zoom], before [int] truncates them. *)
Definition extent_pixel_span `{PyMath} (provider : Provider) (zoom : Q)
    (ca cb : Coordinate.t) : Q * Q :=
  let coord_a := Coordinate.zoomTo ca zoom in
  let coord_b := Coordinate.zoomTo cb zoom in
  (Qabs (Coordinate.column coord_a - Coordinate.column coord_b)
     * inject_Z (tile_width provider),
   Qabs (Coordinate.row coord_a - Coordinate.row coord_b)
     * inject_Z (tile_height provider)).

(** The extent fits an image of [width] x [height] pixels at [zoom]. *)
Definition extent_fits `{PyMath} (provider : Provider) (width height : Z)
    (ca cb : Coordinate.t) (zoom : Z) : Prop :=
  fst (extent_pixel_span provider (inject_Z zoom) ca cb) <= inject_Z width /\
  snd (extent_pixel_span provider (inject_Z zoom) ca cb) <= inject_Z height.

(** An identity-like provider: the location [(x, y)] is projected to row
    [y], column [x] at the provider's zoom, and back. *)
Definition identity_provider (zoom tw th : Z) : Provider :=
  {| tile_width := tw;
     tile_height := th;
     locationCoordinate := fun location =>
       Ok (Coordinate.new (Point.y location) (Point.x location)
                          (inject_Z zoom));
     coordinateLocation := fun coord =>
       Ok (Point.new (Coordinate.column coord) (Coordinate.row coord)) |}.

(** The ceiling of the binary logarithm of [0 < q] in exact arithmetic: the
    least integer [k] with [q <= 2 ^ k] (see [log2_ceil_spec]).  This is the
    number that [math.ceil(math.log(q) / math.log(2))] approximates, not
    the one that the code computes, which is [ceil_log]. *)
Definition log2_ceil (q : Q) : Z :=
  if Qle_bool 1 q then Z.log2_up (Qceiling q)
  else (- Z.log2 (Qfloor (/ q)))%Z.

(** [k] is the ceiling of the binary logarithm of [f]:
    [k - 1 < log2 f <= k]. *)
Definition ceil_of_log2 (f : Q) (k : Z) : Prop := 2 ^ (k - 1) < f <= 2 ^ k.

(** [k] is the ceiling of the binary logarithm of [f] or next to it:
    [k - 2 < log2 f <= k + 1]. *)
Definition near_ceil_of_log2 (f : Q) (k : Z) : Prop :=
  2 ^ (k - 2) < f <= 2 ^ (k + 1).

(** An implementation of [math.pow(2, e)], exact at integer exponents, to
    run the model with. *)
Definition floor_pow2 (e : Q) : Q := 2 ^ Qfloor e.

(** The ceiling of the binary logarithm as a function of the number's
    value. *)
Definition exact_ceil_log (f : Q) : Z := log2_ceil (Qred f).

(** An idealised [math] module to run the model with: [math.pow(2, e)] is
    exact at integer exponents, and the ceiling of the logarithm quotient
    is the exact one.  IEEE doubles agree with it on the inputs of the
    examples below that use it, whose factors are 1 and 4. *)
Definition floor_math : PyMath :=
  {| pow2 := floor_pow2;
     pow2_proper := fun a b Hab =>
       Qpower_comp 2 2 (Qeq_refl 2) _ _ (Qfloor_comp a b Hab);
     pow2_Z := fun z =>
       eq_ind_r (fun k => 2 ^ k == 2 ^ z) (Qeq_refl (2 ^ z)) (Qfloor_Z z);
     ceil_log := exact_ceil_log;
     ceil_log_proper := fun a b Hab =>
       f_equal log2_ceil (Qred_complete a b Hab) |}.

(** The value of a finite IEEE double. *)
Definition float_value (x : float) : Q :=
  match Prim2SF x with
  | S754_finite s m e => inject_Z (if s then Z.neg m else Z.pos m) * 2 ^ e
  | _ => 0
  end.

(** [math.log(2.0)] and [math.log(2.0 ** 29)] as CPython returns them where
    [float] is the IEEE double: the doubles nearest to [ln 2] and to
    [29 ln 2]. *)
Definition math_log_2 : float := 0x1.62e42fefa39efp-1%float.
Definition math_log_2_pow_29 : float := 0x1.419ecb712c481p+4%float.

(** [math.ceil(math.log(f) / math.log(2))] on IEEE doubles at
    [f = 2 ** 29]: the quotient of the two doubles above, by the division
    of IEEE doubles, is 29.000000000000004, and its ceiling is 30. *)
Definition double_ceil_log_2_pow_29 : Z :=
  Qceiling (float_value (math_log_2_pow_29 / math_log_2)%float).

(** A [math] module that is the one of IEEE doubles at [f = 2 ** 29].
    Elsewhere the ceiling is the exact one, which is not what doubles give
    at every [f]: the module is run at [2 ** 29] only. *)
Definition double_ceil_log_red (f : Q) : Z :=
  if Qeq_bool f (2 ^ 29) then double_ceil_log_2_pow_29 else log2_ceil f.

Definition double_ceil_log (f : Q) : Z := double_ceil_log_red (Qred f).

Definition double_math : PyMath :=
  {| pow2 := floor_pow2;
     pow2_proper := fun a b Hab =>
       Qpower_comp 2 2 (Qeq_refl 2) _ _ (Qfloor_comp a b Hab);
     pow2_Z := fun z =>
       eq_ind_r (fun k => 2 ^ k == 2 ^ z) (Qeq_refl (2 ^ z)) (Qfloor_Z z);
     ceil_log := double_ceil_log;
     ceil_log_proper := fun a b Hab =>
       f_equal double_ceil_log_red (Qred_complete a b Hab) |}.

(** The coordinate [c] lies inside the bounds that the coordinates [cs]
    span on the axis [axis] (row, column or zoom). *)
Definition axis_within (axis : Coordinate.t -> Q) (cs : list Coordinate.t)
    (c : Coordinate.t) : Prop :=
  exists lo hi, In lo cs /\ In hi cs /\ axis lo <= axis c <= axis hi.

Definition within_bounds (cs : list Coordinate.t) (c : Coordinate.t) : Prop :=
  axis_within Coordinate.row cs c /\
  axis_within Coordinate.column cs c /\
  axis_within Coordinate.zoom cs c.

(** Two results are the same: the same exception, or values that are equal
    as numbers. *)
Definition result_rel {A} (R : A -> A -> Prop) (r r' : result A) : Prop :=
  match r, r' with
  | Ok a, Ok a' => R a a'
  | Raise e, Raise e' => e = e'
  | _, _ => False
  end.

Definition pair_eqv (r r' : Coordinate.t * Point.t) : Prop :=
  Coordinate.eqv (fst r) (fst r') /\ Point.eqv (snd r) (snd r').

(** The pixel [(px, py)] lies in the destination rectangle of a tile: the
    rectangle of the provider's tile size whose top-left corner is the
    tile's destination point. *)
Definition tile_covers (tile : TileRequest) (px py : Z) : Prop :=
  Point.x (request_point tile) <= inject_Z px
    < Point.x (request_point tile)
      + inject_Z (tile_width (request_provider tile)) /\
  Point.y (request_point tile) <= inject_Z py
    < Point.y (request_point tile)
      + inject_Z (tile_height (request_provider tile)).

(** The destination points of a grid of [nx] by [ny] tiles, row by row,
    from [(x0, y0)] in steps of [tw] and [th]. *)
Definition grid_points (x0 y0 tw th : Z) (nx ny : nat) : list Point.t :=
  flat_map
    (fun j =>
       map (fun i => Point.new (inject_Z (x0 + Z.of_nat i * tw))
                               (inject_Z (y0 + Z.of_nat j * th)))
           (seq 0 nx))
    (seq 0 ny).

(** The map of the identity-like provider (zoom 10, tiles of 256 pixels) for
    the extent [(0, 0, 1/2, 1/2)] at zoom 10, as [Map.__init__] builds it
    (see [example_map_constructed]). *)
Definition example_map : Map.t :=
  Map.Build (identity_provider 10 256 256)
            (Coordinate.new 0 0 10) (Point.new (-64) (-64))
            (0, 0, 1 # 2, 1 # 2) None 10 (128, 128)%Z.

(** The coordinate [c'] is [c] to the precision of [MAX_ZOOM]: it has the
    zoom of [c], and its row and column differ from those of [c] by at most
    half a tile of zoom [MAX_ZOOM]. *)
Definition coordinate_near `{PyMath} `{Coordinate.max_zoom}
    (c c' : Coordinate.t) : Prop :=
  Coordinate.zoom c' == Coordinate.zoom c /\
  Qabs (Coordinate.row c' - Coordinate.row c)
  <= pow2 (Coordinate.zoom c - inject_Z Coordinate.MAX_ZOOM) / 2 /\
  Qabs (Coordinate.column c' - Coordinate.column c)
  <= pow2 (Coordinate.zoom c - inject_Z Coordinate.MAX_ZOOM) / 2.

(** The two projections of the provider are mutually inverse to the
    precision [near], at [zoom]: a coordinate that is the projection of a
    location to the precision of [MAX_ZOOM] is projected back to a location
    that is [near] it. *)
Definition inverse_to_precision `{PyMath} `{Coordinate.max_zoom}
    (provider : Provider) (near : Point.t -> Point.t -> Prop) (zoom : Q)
  : Prop :=
  forall location c c',
    locationCoordinate provider location = Ok c ->
    coordinate_near (Coordinate.zoomTo c zoom) c' ->
    exists location',
      coordinateLocation provider c' = Ok location' /\ near location location'.

(** [m] is the least, or the greatest, number of the list [l]. *)
Definition is_min (l : list Q) (m : Q) : Prop :=
  (forall v, In v l -> m <= v) /\ (exists v, In v l /\ m == v).

Definition is_max (l : list Q) (m : Q) : Prop :=
  (forall v, In v l -> v <= m) /\ (exists v, In v l /\ m == v).

(** [l'] has the elements of [l] and possibly more, each within the bounds
    of [l]. *)
Definition same_bounds (l l' : list Q) : Prop :=
  (l = [] -> l' = []) /\
  (forall v, In v l -> In v l') /\
  (forall v, In v l' -> exists lo hi, In lo l /\ In hi l /\ lo <= v <= hi).

Definition coordinates_same_bounds (cs cs' : list Coordinate.t) : Prop :=
  same_bounds (map Coordinate.row cs) (map Coordinate.row cs') /\
  same_bounds (map Coordinate.column cs) (map Coordinate.column cs') /\
  same_bounds (map Coordinate.zoom cs) (map Coordinate.zoom cs').

(** A provider with a bounded domain: identity-like where [|y| <= 85], and
    raising a [ProjectionError] elsewhere. *)
Definition bounded_provider (zoom tw th : Z) : Provider :=
  {| tile_width := tw;
     tile_height := th;
     locationCoordinate := fun location =>
       if Qle_bool (Qabs (Point.y location)) 85
       then Ok (Coordinate.new (Point.y location) (Point.x location)
                               (inject_Z zoom))
       else Raise (ProviderError "ProjectionError");
     coordinateLocation := fun coord =>
       Ok (Point.new (Coordinate.column coord) (Coordinate.row coord)) |}.

(** The projections of the provider are inverse on the coordinates of
    [zoom]: a location that [coordinateLocation] gives for such a coordinate
    is projected back to a coordinate that, rescaled to [zoom], is the
    first. *)
Definition coordinate_round_trip `{PyMath} (provider : Provider) (zoom : Q)
  : Prop :=
  forall c location,
    Coordinate.zoom c == zoom ->
    coordinateLocation provider c = Ok location ->
    exists c',
      locationCoordinate provider location = Ok c' /\
      Coordinate.eqv (Coordinate.zoomTo c' zoom) c.

(** * Properties *)

(** ** Running the model *)

Lemma example_map_constructed :
  Map.__init__ (H := floor_math) (0, 0, 1 # 2, 1 # 2) 10
    (identity_provider 10 256 256) = Ok example_map.
Proof. reflexivity. Qed.

(** ** Numbers *)

Lemma py_int_nonneg (q : Q) : 0 <= q -> py_int q = Qfloor q.
Proof.
  destruct q as [n d]. unfold py_int, Qle, Qfloor. simpl. intros Hn.
  apply Z.quot_div_nonneg; lia.
Qed.

Lemma py_int_nonpos (q : Q) : q <= 0 -> py_int q = Qceiling q.
Proof.
  destruct q as [n d]. unfold py_int, Qle, Qceiling, Qfloor. simpl. intros Hn.
  rewrite <- (Z.opp_involutive n) at 1.
  rewrite Z.quot_opp_l by lia. f_equal.
  apply Z.quot_div_nonneg; lia.
Qed.

#[export] Instance py_int_proper : Proper (Qeq ==> eq) py_int.
Proof.
  intros a b Hab. destruct (Qlt_le_dec a 0) as [Ha | Ha].
  - rewrite !py_int_nonpos by (rewrite <- ?Hab; lra). now rewrite Hab.
  - rewrite !py_int_nonneg by (rewrite <- ?Hab; lra). now rewrite Hab.
Qed.

Lemma py_int_Z (z : Z) : py_int (inject_Z z) = z.
Proof.
  unfold py_int. simpl. apply Z.quot_1_r.
Qed.

#[export] Instance py_round_proper : Proper (Qeq ==> eq) py_round.
Proof.
  intros a b Hab. unfold py_round.
  rewrite (Qfloor_comp _ _ Hab).
  assert (E : Qcompare (a - inject_Z (Qfloor b)) (1 # 2)
              = Qcompare (b - inject_Z (Qfloor b)) (1 # 2))
    by now rewrite Hab.
  now rewrite E.
Qed.

Lemma py_round_near (q : Q) :
  q - (1 # 2) <= inject_Z (py_round q) <= q + (1 # 2).
Proof.
  unfold py_round.
  pose proof (Qfloor_le q) as Hlo. pose proof (Qlt_floor q) as Hhi.
  rewrite inject_Z_plus in Hhi. change (inject_Z 1) with 1 in Hhi.
  destruct (Qcompare_spec (q - inject_Z (Qfloor q)) (1 # 2)) as [E | E | E].
  - destruct (Z.even (Qfloor q));
      rewrite ?inject_Z_plus; change (inject_Z 1) with 1; lra.
  - lra.
  - rewrite inject_Z_plus. change (inject_Z 1) with 1. lra.
Qed.

Lemma Qceiling_le_iff (q : Q) (n : Z) : q <= inject_Z n <-> (Qceiling q <= n)%Z.
Proof.
  split; intros H.
  - apply Qceiling_resp_le in H. now rewrite Qceiling_Z in H.
  - apply Qle_trans with (inject_Z (Qceiling q)).
    + apply Qle_ceiling.
    + now rewrite <- Zle_Qle.
Qed.

Lemma Qfloor_le_iff (q : Q) (n : Z) : inject_Z n <= q <-> (n <= Qfloor q)%Z.
Proof.
  split; intros H.
  - apply Qfloor_resp_le in H. now rewrite Qfloor_Z in H.
  - apply Qle_trans with (inject_Z (Qfloor q)).
    + now rewrite <- Zle_Qle.
    + apply Qfloor_le.
Qed.

Lemma two_power_Z (j : Z) : (0 <= j)%Z -> 2 ^ j == inject_Z (2 ^ j).
Proof.
  intros Hj. now rewrite Zpower_Qpower.
Qed.

Lemma two_power_neg_lt_1 (j : Z) : (j < 0)%Z -> 2 ^ j < 1.
Proof.
  intros Hj. 
  assert (H := Qpower_lt_compat_l 2 j 0 Hj). simpl in H. apply H. lra.
Qed.

Lemma two_power_pos (j : Z) : 0 < 2 ^ j.
Proof. apply Qpower_0_lt. lra. Qed.

Lemma Qle_inv_swap (a q : Q) : 0 < a -> 0 < q -> (q <= / a <-> a <= / q).
Proof.
  intros Ha Hq.
  assert (Ea : / a * a == 1) by (field; lra).
  assert (Eq : / q * q == 1) by (field; lra).
  rewrite <- (Qmult_le_r q (/ a) a Ha), Ea.
  rewrite <- (Qmult_le_r a (/ q) q Hq), Eq.
  now rewrite (Qmult_comm a q).
Qed.

(** [log2_ceil q] is the ceiling of the binary logarithm of [q]: the least
    integer [k] with [q <= 2 ^ k]. *)
Lemma log2_ceil_spec (q : Q) (j : Z) :
  0 < q -> (q <= 2 ^ j <-> (log2_ceil q <= j)%Z).
Proof.
  intros Hq. unfold log2_ceil.
  destruct (Qle_bool 1 q) eqn:E.
  - apply Qle_bool_iff in E.
    assert (Hc : (0 < Qceiling q)%Z).
    { assert (H1 : inject_Z 1 <= inject_Z (Qceiling q)).
      { apply Qle_trans with q; [ exact E | apply Qle_ceiling ]. }
      rewrite <- Zle_Qle in H1. lia. }
    destruct (Z_lt_le_dec j 0) as [Hj | Hj].
    + pose proof (two_power_neg_lt_1 j Hj) as Hlt.
      pose proof (Z.log2_up_nonneg (Qceiling q)).
      split; [ intros Hle | lia ].
      exfalso. apply (Qlt_irrefl 1).
      apply Qle_lt_trans with (2 ^ j); [ | exact Hlt ].
      now apply Qle_trans with q.
    + rewrite two_power_Z by assumption. rewrite Qceiling_le_iff.
      now apply Z.log2_up_le_pow2.
  - assert (Hq1 : q < 1).
    { apply Qnot_le_lt. intros C. apply Qle_bool_iff in C. congruence. }
    assert (Hinv : 1 <= / q).
    { apply (Qle_inv_swap 1 q); [ reflexivity | exact Hq | ].
      change (/ 1) with 1. now apply Qlt_le_weak. }
    assert (Hf : (0 < Qfloor (/ q))%Z).
    { assert (H1 : (1 <= Qfloor (/ q))%Z) by now apply Qfloor_le_iff.
      lia. }
    destruct (Z_lt_le_dec j 0) as [Hj | Hj].
    + assert (E2 : 2 ^ j == / inject_Z (2 ^ (- j))).
      { rewrite Zpower_Qpower by lia. rewrite Qpower_opp.
        now rewrite Qinv_involutive. }
      assert (Hp' : 0 < inject_Z (2 ^ (- j))).
      { rewrite Zpower_Qpower by lia. apply two_power_pos. }
      rewrite E2, (Qle_inv_swap _ _ Hp' Hq), Qfloor_le_iff.
      rewrite Z.log2_le_pow2 by assumption. lia.
    + pose proof (Z.log2_nonneg (Qfloor (/ q))).
      assert (H1 : 1 <= 2 ^ j) by (apply Qpower_1_le; [ lra | lia ]).
      split; [ lia | intros _ ].
      apply Qle_trans with 1; [ now apply Qlt_le_weak | exact H1 ].
Qed.

(** ** Powers of two *)

Lemma pow2_diff `{PyMath} (a b : Q) (z z0 : Z) :
  a == inject_Z z -> b == inject_Z z0 -> pow2 (a - b) == 2 ^ (z - z0).
Proof.
  intros Ha Hb. rewrite <- pow2_Z. apply pow2_proper.
  rewrite Ha, Hb. unfold Z.sub. rewrite inject_Z_plus, inject_Z_opp. ring.
Qed.

(** ** Results *)

Lemma py_div_ok (a b : Q) : ~ b == 0 -> py_div a b = Ok (a / b).
Proof.
  intros Hb. unfold py_div.
  destruct (Qeq_bool b 0) eqn:E; [ | reflexivity ].
  apply Qeq_bool_iff in E. contradiction.
Qed.

Lemma ceil_log2_ok `{PyMath} (f : Q) : 0 < f -> ceil_log2 f = Ok (ceil_log f).
Proof.
  intros Hf. unfold ceil_log2.
  destruct (Qle_bool f 0) eqn:E; [ | reflexivity ].
  apply Qle_bool_iff in E. lra.
Qed.

Lemma ceil_log2_domain `{PyMath} (f : Q) :
  f <= 0 -> ceil_log2 f = Raise (ValueError "math domain error").
Proof.
  intros Hf. unfold ceil_log2.
  destruct (Qle_bool f 0) eqn:E; [ reflexivity | ].
  apply Qle_bool_iff in Hf. congruence.
Qed.

#[export] Instance log2_ceil_proper : Proper (Qeq ==> eq) log2_ceil.
Proof.
  intros a b Hab. unfold log2_ceil.
  assert (E : Qle_bool 1 a = Qle_bool 1 b).
  { apply eq_true_iff_eq. rewrite !Qle_bool_iff. now rewrite Hab. }
  rewrite E. destruct (Qle_bool 1 b).
  - now rewrite Hab.
  - now rewrite Hab.
Qed.

Lemma Qabs_max_min (a b : Q) : Qabs (a - b) == Qmax a b - Qmin a b.
Proof.
  destruct (Qlt_le_dec a b) as [Hab | Hab].
  - rewrite Q.max_r, Q.min_l by lra. rewrite Qabs_neg by lra. ring.
  - rewrite Q.max_l, Q.min_r by lra. rewrite Qabs_pos by lra. ring.
Qed.

Lemma Qmin_inject_Z (a b : Z) :
  Qmin (inject_Z a) (inject_Z b) == inject_Z (Z.min a b).
Proof.
  destruct (Z_le_gt_dec a b) as [Hab | Hab].
  - rewrite Z.min_l by lia. apply Q.min_l. now rewrite <- Zle_Qle.
  - rewrite Z.min_r by lia. apply Q.min_r. rewrite <- Zle_Qle. lia.
Qed.

(** ** The fit of an extent on one axis *)

Lemma fit_axis (span : Q) (t w z z0 : Z) :
  0 < span -> (0 < t)%Z -> (0 < w)%Z ->
  span * 2 ^ (z - z0) * inject_Z t <= inject_Z w
  <-> (z <= z0 - log2_ceil (span / (inject_Z w / inject_Z t)))%Z.
Proof.
  intros Hs Ht Hw.
  assert (Ht' : 0 < inject_Z t) by (now rewrite (Zlt_Qlt 0 t) in Ht).
  assert (Hw' : 0 < inject_Z w) by (now rewrite (Zlt_Qlt 0 w) in Hw).
  set (f := span / (inject_Z w / inject_Z t)).
  assert (Hf : f == span * inject_Z t / inject_Z w) by (unfold f; field; lra).
  assert (Hf0 : 0 < f).
  { rewrite Hf. apply Qlt_shift_div_l; [ exact Hw' | ].
    rewrite Qmult_0_l. apply Qmult_lt_0_compat; assumption. }
  pose proof (log2_ceil_spec f (z0 - z) Hf0) as Hspec.
  assert (Hp : 0 < 2 ^ (z - z0)) by apply two_power_pos.
  assert (Einv : 2 ^ (z0 - z) == / 2 ^ (z - z0)).
  { rewrite <- Qpower_opp. apply Qpower_comp; [ reflexivity | lia ]. }
  rewrite Einv in Hspec. clear Einv. revert Hp Hspec.
  generalize (2 ^ (z - z0)). intros p Hp Hspec.
  transitivity (f <= / p).
  - assert (Ep : / p * p == 1) by (field; lra).
    rewrite <- (Qmult_le_r f (/ p) p Hp), Ep.
    rewrite <- (Qmult_le_r (f * p) 1 (inject_Z w) Hw').
    assert (E : f * p * inject_Z w == span * p * inject_Z t)
      by (rewrite Hf; field; lra).
    now rewrite E, Qmult_1_l.
  - rewrite Hspec. lia.
Qed.

Lemma extent_fits_iff `{PyMath} (provider : Provider) (width height : Z)
    (ca cb : Coordinate.t) (z0 z : Z) :
  Coordinate.zoom ca == inject_Z z0 -> Coordinate.zoom cb == inject_Z z0 ->
  (0 < width)%Z -> (0 < height)%Z ->
  (0 < tile_width provider)%Z -> (0 < tile_height provider)%Z ->
  ~ Coordinate.column ca == Coordinate.column cb ->
  ~ Coordinate.row ca == Coordinate.row cb ->
  extent_fits provider width height ca cb z
  <-> (z <= Z.min
        (z0 - log2_ceil
                ((Qmax (Coordinate.column ca) (Coordinate.column cb)
                  - Qmin (Coordinate.column ca) (Coordinate.column cb))
                 / (inject_Z width / inject_Z (tile_width provider))))
        (z0 - log2_ceil
                ((Qmax (Coordinate.row ca) (Coordinate.row cb)
                  - Qmin (Coordinate.row ca) (Coordinate.row cb))
                 / (inject_Z height / inject_Z (tile_height provider)))))%Z.
Proof.
  intros Hza Hzb Hw Hh Htw Hth Hcol Hrow.
  unfold extent_fits, extent_pixel_span, Coordinate.zoomTo.
  cbn [fst snd Coordinate.row Coordinate.column Coordinate.zoom].
  rewrite (pow2_diff _ _ z z0 (Qeq_refl _) Hza).
  rewrite (pow2_diff _ _ z z0 (Qeq_refl _) Hzb).
  assert (Hp : 0 < 2 ^ (z - z0)) by apply two_power_pos.
  assert (Ec : forall a b : Q,
             Qabs (a * 2 ^ (z - z0) - b * 2 ^ (z - z0))
             == (Qmax a b - Qmin a b) * 2 ^ (z - z0)).
  { intros a b. rewrite <- Qabs_max_min.
    setoid_replace (a * 2 ^ (z - z0) - b * 2 ^ (z - z0))
      with ((a - b) * 2 ^ (z - z0)) by ring.
    rewrite Qabs_Qmult. now rewrite (Qabs_pos (2 ^ (z - z0))) by lra. }
  rewrite !Ec.
  assert (Hspan : forall a b : Q, ~ a == b -> 0 < Qmax a b - Qmin a b).
  { intros a b Hab. rewrite <- Qabs_max_min.
    assert (Hne : ~ a - b == 0) by (intros E; apply Hab; lra).
    apply (Qabs_case (a - b) (fun q => 0 < q)); intros Hs.
    - destruct (Qeq_dec (a - b) 0); [ contradiction | lra ].
    - destruct (Qeq_dec (a - b) 0); [ contradiction | lra ]. }
  rewrite (fit_axis _ _ _ z z0 (Hspan _ _ Hcol) Htw Hw).
  rewrite (fit_axis _ _ _ z z0 (Hspan _ _ Hrow) Hth Hh).
  lia.
Qed.

Lemma inject_Z_nonzero (z : Z) : (0 < z)%Z -> ~ inject_Z z == 0.
Proof.
  intros Hz E. rewrite (Zlt_Qlt 0 z) in Hz.
  change (inject_Z 0) with 0 in Hz. lra.
Qed.

(** The ceiling of the binary logarithm, as a relation and as a function. *)
Lemma ceil_of_log2_iff (f : Q) (k : Z) :
  0 < f -> (ceil_of_log2 f k <-> log2_ceil f = k).
Proof.
  intros Hf. unfold ceil_of_log2.
  pose proof (log2_ceil_spec f k Hf) as Hk.
  pose proof (log2_ceil_spec f (k - 1) Hf) as Hk1.
  split.
  - intros [Hlow Hup]. apply Hk in Hup.
    assert (~ (log2_ceil f <= k - 1)%Z) by (intros C; apply Hk1 in C; lra).
    lia.
  - intros E. split.
    + apply Qnot_le_lt. intros C. apply Hk1 in C. lia.
    + apply Hk. lia.
Qed.

Lemma near_ceil_of_log2_iff (f : Q) (k : Z) :
  0 < f ->
  (near_ceil_of_log2 f k <-> (k - 1 <= log2_ceil f <= k + 1)%Z).
Proof.
  intros Hf. unfold near_ceil_of_log2.
  pose proof (log2_ceil_spec f (k + 1) Hf) as Hk.
  pose proof (log2_ceil_spec f (k - 2) Hf) as Hk2.
  split.
  - intros [Hlow Hup]. apply Hk in Hup.
    assert (~ (log2_ceil f <= k - 2)%Z) by (intros C; apply Hk2 in C; lra).
    lia.
  - intros E. split.
    + apply Qnot_le_lt. intros C. apply Hk2 in C. lia.
    + apply Hk. lia.
Qed.

(** What [calculateMapExtent] returns for two corners with positive spans:
    the tile and the offset of [calculateMapCenter] for the center of the
    extent, at the zoom [min(hPossibleZoom, vPossibleZoom)]. *)
Lemma calculateMapExtent_two_corners `{PyMath} (provider : Provider)
    (width height : Z) (A B : Point.t) (ca cb : Coordinate.t) :
  locationCoordinate provider A = Ok ca ->
  locationCoordinate provider B = Ok cb ->
  (0 < width)%Z -> (0 < height)%Z ->
  (0 < tile_width provider)%Z -> (0 < tile_height provider)%Z ->
  ~ Coordinate.column ca == Coordinate.column cb ->
  ~ Coordinate.row ca == Coordinate.row cb ->
  let TL := Coordinate.new (Qmin (Coordinate.row ca) (Coordinate.row cb))
                           (Qmin (Coordinate.column ca) (Coordinate.column cb))
                           (Qmin (Coordinate.zoom ca) (Coordinate.zoom cb)) in
  let BR := Coordinate.new (Qmax (Coordinate.row ca) (Coordinate.row cb))
                           (Qmax (Coordinate.column ca) (Coordinate.column cb))
                           (Qmax (Coordinate.zoom ca) (Coordinate.zoom cb)) in
  let hFactor := (Coordinate.column BR - Coordinate.column TL)
                 / (inject_Z width / inject_Z (tile_width provider)) in
  let vFactor := (Coordinate.row BR - Coordinate.row TL)
                 / (inject_Z height / inject_Z (tile_height provider)) in
  let initZoom := Qmin (Coordinate.zoom TL - inject_Z (ceil_log hFactor))
                       (Coordinate.zoom TL - inject_Z (ceil_log vFactor)) in
  (0 < hFactor /\ 0 < vFactor) /\
  calculateMapExtent provider width height [A; B]
  = Ok (calculateMapCenter provider
          (Coordinate.zoomTo
             (Coordinate.new
                ((Coordinate.row TL + Coordinate.row BR) / 2)
                ((Coordinate.column TL + Coordinate.column BR) / 2)
                ((Coordinate.zoom TL + Coordinate.zoom BR) / 2))
             initZoom)).
Proof.
  intros HA HB Hw Hh Htw Hth Hcol Hrow. cbv zeta.
  cbn [Coordinate.row Coordinate.column Coordinate.zoom].
  unfold calculateMapExtent.
  cbn [map_result bind]. rewrite HA. cbn [bind]. rewrite HB.
  cbn [bind map py_min py_max fold_left Coordinate.row Coordinate.column
         Coordinate.zoom].
  assert (Hw' : 0 < inject_Z width) by now rewrite (Zlt_Qlt 0 width) in Hw.
  assert (Hh' : 0 < inject_Z height) by now rewrite (Zlt_Qlt 0 height) in Hh.
  assert (Htw' : 0 < inject_Z (tile_width provider))
    by now rewrite (Zlt_Qlt 0 (tile_width provider)) in Htw.
  assert (Hth' : 0 < inject_Z (tile_height provider))
    by now rewrite (Zlt_Qlt 0 (tile_height provider)) in Hth.
  assert (Hspan : forall a b : Q, ~ a == b -> 0 < Qmax a b - Qmin a b).
  { intros a b Hab. rewrite <- Qabs_max_min.
    assert (Hne : ~ a - b == 0) by (intros E; apply Hab; lra).
    apply (Qabs_case (a - b) (fun q => 0 < q)); intros Hs;
      (destruct (Qeq_dec (a - b) 0); [ contradiction | lra ]). }
  assert (Hquot : forall s n d : Q, 0 < s -> 0 < n -> 0 < d ->
                    ~ n / d == 0 /\ 0 < s / (n / d)).
  { intros s n d Hs Hn Hd.
    assert (0 < n / d) by (apply Qlt_shift_div_l; lra).
    split; [ lra | ]. apply Qlt_shift_div_l; lra. }
  destruct (Hquot _ _ _ (Hspan _ _ Hcol) Hw' Htw') as [Hh1 Hh2].
  destruct (Hquot _ _ _ (Hspan _ _ Hrow) Hh' Hth') as [Hv1 Hv2].
  split; [ split; assumption | ].
  rewrite (py_div_ok (inject_Z width)) by lra. cbn [bind].
  rewrite (py_div_ok _ _ Hh1). cbn [bind].
  rewrite (ceil_log2_ok _ Hh2). cbn [bind].
  rewrite (py_div_ok (inject_Z height)) by lra. cbn [bind].
  rewrite (py_div_ok _ _ Hv1). cbn [bind].
  rewrite (ceil_log2_ok _ Hv2). cbn [bind].
  reflexivity.
Qed.

(** C1 (as amended): for two corners that the provider projects at one
    integer zoom, with positive spans on both axes and positive image and
    tile sizes, [calculateMapExtent] returns a coordinate whose zoom is
    [min(hPossibleZoom, vPossibleZoom)], with
    [hPossibleZoom = TL.zoom
       - math.ceil(math.log((BR.column - TL.column) / (width / tile_width))
                   / math.log(2))]
    and the same on the vertical axis, the ceilings being the ones that the
    floating-point computation gives.  Where these are the ceilings of the
    binary logarithms of the two factors, the extent fits the image at that
    zoom, at no larger zoom, and not at that zoom plus one.  Where they are
    the ceilings or next to them, the zoom is within one level of the
    largest zoom at which the extent fits: the extent fits at that zoom
    minus one, at no zoom above that zoom plus one, and not at that zoom
    plus two. *)
Theorem calculateMapExtent_zoom_near_largest_fit `{PyMath}
    (provider : Provider) (width height : Z) (A B : Point.t)
    (ca cb : Coordinate.t) (z0 : Z) :
  locationCoordinate provider A = Ok ca ->
  locationCoordinate provider B = Ok cb ->
  Coordinate.zoom ca == inject_Z z0 -> Coordinate.zoom cb == inject_Z z0 ->
  (0 < width)%Z -> (0 < height)%Z ->
  (0 < tile_width provider)%Z -> (0 < tile_height provider)%Z ->
  ~ Coordinate.column ca == Coordinate.column cb ->
  ~ Coordinate.row ca == Coordinate.row cb ->
  let hFactor :=
    (Qmax (Coordinate.column ca) (Coordinate.column cb)
     - Qmin (Coordinate.column ca) (Coordinate.column cb))
    / (inject_Z width / inject_Z (tile_width provider)) in
  let vFactor :=
    (Qmax (Coordinate.row ca) (Coordinate.row cb)
     - Qmin (Coordinate.row ca) (Coordinate.row cb))
    / (inject_Z height / inject_Z (tile_height provider)) in
  let hPossibleZoom := (z0 - ceil_log hFactor)%Z in
  let vPossibleZoom := (z0 - ceil_log vFactor)%Z in
  let zoom := Z.min hPossibleZoom vPossibleZoom in
  exists coord offset,
    calculateMapExtent provider width height [A; B] = Ok (coord, offset) /\
    Coordinate.zoom coord == inject_Z zoom /\
    (ceil_of_log2 hFactor (ceil_log hFactor) ->
     ceil_of_log2 vFactor (ceil_log vFactor) ->
     extent_fits provider width height ca cb zoom /\
     (forall z : Z,
         extent_fits provider width height ca cb z -> (z <= zoom)%Z) /\
     ~ extent_fits provider width height ca cb (zoom + 1)) /\
    (near_ceil_of_log2 hFactor (ceil_log hFactor) ->
     near_ceil_of_log2 vFactor (ceil_log vFactor) ->
     extent_fits provider width height ca cb (zoom - 1) /\
     (forall z : Z,
         extent_fits provider width height ca cb z -> (z <= zoom + 1)%Z) /\
     ~ extent_fits provider width height ca cb (zoom + 2)).
Proof.
  intros HA HB Hza Hzb Hw Hh Htw Hth Hcol Hrow hFactor vFactor hPossibleZoom
    vPossibleZoom zoom.
  pose proof (fun z => extent_fits_iff provider width height ca cb z0 z
                         Hza Hzb Hw Hh Htw Hth Hcol Hrow) as Hfit.
  fold hFactor vFactor in Hfit.
  destruct (calculateMapExtent_two_corners provider width height A B ca cb
              HA HB Hw Hh Htw Hth Hcol Hrow) as [[Hh0 Hv0] Hrun].
  cbn [Coordinate.row Coordinate.column Coordinate.zoom] in Hh0, Hv0, Hrun.
  fold hFactor vFactor in Hh0, Hv0, Hrun.
  eexists _, _. split; [ exact Hrun | ].
  split; [ | split ].
  - cbn [calculateMapCenter fst Coordinate.container Coordinate.zoomTo
           Coordinate.zoom].
    assert (Ez : Qmin (Coordinate.zoom ca) (Coordinate.zoom cb) == inject_Z z0).
    { rewrite Hza, Hzb. apply Q.min_id. }
    rewrite Ez. unfold zoom. rewrite <- Qmin_inject_Z.
    unfold hPossibleZoom, vPossibleZoom, Z.sub.
    rewrite !inject_Z_plus, !inject_Z_opp. reflexivity.
  - intros Eh Ev.
    apply (ceil_of_log2_iff _ _ Hh0) in Eh.
    apply (ceil_of_log2_iff _ _ Hv0) in Ev.
    rewrite Eh, Ev in Hfit. fold hPossibleZoom vPossibleZoom zoom in Hfit.
    split; [ | split ].
    + apply Hfit. lia.
    + intros z Hz. now apply Hfit.
    + intros Hz. apply Hfit in Hz. lia.
  - intros Eh Ev.
    apply (near_ceil_of_log2_iff _ _ Hh0) in Eh.
    apply (near_ceil_of_log2_iff _ _ Hv0) in Ev.
    unfold zoom, hPossibleZoom, vPossibleZoom.
    split; [ | split ].
    + apply Hfit. lia.
    + intros z Hz. apply Hfit in Hz. lia.
    + intros Hz. apply Hfit in Hz. lia.
Qed.

Lemma calculateMapExtent_zoom_near_largest_fit_witness :
  exists coord offset,
    calculateMapExtent (H := floor_math) (identity_provider 10 256 256)
      256 256 [Point.new 0 0; Point.new 1 1] = Ok (coord, offset) /\
    Coordinate.zoom coord == inject_Z 10 /\
    extent_fits (H := floor_math) (identity_provider 10 256 256) 256 256
      (Coordinate.new 0 0 10) (Coordinate.new 1 1 10) 10 /\
    ~ extent_fits (H := floor_math) (identity_provider 10 256 256) 256 256
        (Coordinate.new 0 0 10) (Coordinate.new 1 1 10) 11 /\
    extent_fits (H := floor_math) (identity_provider 10 256 256) 256 256
      (Coordinate.new 0 0 10) (Coordinate.new 1 1 10) 9.
Proof.
  destruct (calculateMapExtent_zoom_near_largest_fit (H := floor_math)
              (identity_provider 10 256 256) 256 256
              (Point.new 0 0) (Point.new 1 1)
              (Coordinate.new 0 0 10) (Coordinate.new 1 1 10) 10)
    as (coord & offset & Hrun & Hzoom & Hexact & Hnear);
    try reflexivity; try discriminate.
  destruct Hexact as (Hfit & _ & Hnext);
    [ split; [ reflexivity | discriminate ]
    | split; [ reflexivity | discriminate ] | ].
  destruct Hnear as (Hbelow & _);
    [ split; [ reflexivity | discriminate ]
    | split; [ reflexivity | discriminate ] | ].
  exists coord, offset.
  split; [ exact Hrun | ].
  split; [ exact Hzoom | ].
  split; [ exact Hfit | split; [ exact Hnext | exact Hbelow ] ].
Defined.

(** C1, as stated, fails where the floating-point quotient
    [math.log(f) / math.log(2)] lies on the other side of an integer than
    the binary logarithm: for the identity-like provider at zoom 30 with
    tiles of 256 pixels, an image of 256 x 256 pixels and the corners
    [(0, 0)] and [(2 ** 29, 2 ** 29)], both factors are [2 ** 29], the
    quotient on IEEE doubles is 29.000000000000004 and its ceiling 30; the
    zoom that [calculateMapExtent] chooses is [30 - 30 = 0], and the extent
    still fits the image at zoom 1, where it spans 256 pixels on each axis.
    The chosen zoom is not [30 - ceil(log2 (2 ** 29))] and not the largest
    at which the extent fits. *)
Lemma calculateMapExtent_largest_fit_counterexample :
  ceil_log (PyMath := double_math) (2 ^ 29) = 30%Z /\
  ~ ceil_of_log2 (2 ^ 29) (ceil_log (PyMath := double_math) (2 ^ 29)) /\
  near_ceil_of_log2 (2 ^ 29) (ceil_log (PyMath := double_math) (2 ^ 29)) /\
  exists coord offset,
    calculateMapExtent (H := double_math) (identity_provider 30 256 256)
      256 256 [Point.new 0 0; Point.new (2 ^ 29) (2 ^ 29)]
    = Ok (coord, offset) /\
    Coordinate.zoom coord == 0 /\
    extent_fits (H := double_math) (identity_provider 30 256 256) 256 256
      (Coordinate.new 0 0 30) (Coordinate.new (2 ^ 29) (2 ^ 29) 30) 1 /\
    ~ extent_fits (H := double_math) (identity_provider 30 256 256) 256 256
        (Coordinate.new 0 0 30) (Coordinate.new (2 ^ 29) (2 ^ 29) 30) 2.
Proof.
  split; [ vm_compute; reflexivity | ].
  split; [ intros [Hlow _]; vm_compute in Hlow; discriminate | ].
  split; [ split; vm_compute; [ reflexivity | discriminate ] | ].
  eexists _, _. split; [ vm_compute; reflexivity | ].
  split; [ reflexivity | ].
  split.
  - split; vm_compute; discriminate.
  - intros [Hx _]. vm_compute in Hx. now apply Hx.
Qed.

(** ** Results up to numeric equality *)

Lemma result_rel_bind {A B} (R : A -> A -> Prop) (S : B -> B -> Prop)
    (r r' : result A) (k k' : A -> result B) :
  result_rel R r r' ->
  (forall a a', R a a' -> result_rel S (k a) (k' a')) ->
  result_rel S (bind r k) (bind r' k').
Proof.
  intros Hr Hk. destruct r, r'; simpl in *; try contradiction.
  - now apply Hk.
  - assumption.
Qed.

Lemma py_div_rel (a a' b b' : Q) :
  a == a' -> b == b' -> result_rel Qeq (py_div a b) (py_div a' b').
Proof.
  intros Ha Hb. unfold py_div.
  assert (E : Qeq_bool b 0 = Qeq_bool b' 0).
  { apply eq_true_iff_eq. rewrite !Qeq_bool_iff. now rewrite Hb. }
  rewrite E. destruct (Qeq_bool b' 0); simpl.
  - reflexivity.
  - now rewrite Ha, Hb.
Qed.

Lemma ceil_log2_rel `{PyMath} (f f' : Q) :
  f == f' -> result_rel eq (ceil_log2 f) (ceil_log2 f').
Proof.
  intros Hf. unfold ceil_log2.
  assert (E : Qle_bool f 0 = Qle_bool f' 0).
  { apply eq_true_iff_eq. rewrite !Qle_bool_iff. now rewrite Hf. }
  rewrite E. destruct (Qle_bool f' 0); simpl.
  - reflexivity.
  - now rewrite Hf.
Qed.

Lemma zoomTo_eqv `{PyMath} (c c' : Coordinate.t) (z z' : Q) :
  Coordinate.eqv c c' -> z == z' ->
  Coordinate.eqv (Coordinate.zoomTo c z) (Coordinate.zoomTo c' z').
Proof.
  intros (Hr & Hc & Hz) Hzz. unfold Coordinate.eqv, Coordinate.zoomTo.
  cbn [Coordinate.row Coordinate.column Coordinate.zoom].
  assert (Hp : pow2 (z - Coordinate.zoom c) == pow2 (z' - Coordinate.zoom c')).
  { apply pow2_proper. now rewrite Hz, Hzz. }
  rewrite Hp, Hr, Hc. now repeat split.
Qed.

Lemma calculateMapCenter_eqv (provider : Provider) (c c' : Coordinate.t) :
  Coordinate.eqv c c' ->
  pair_eqv (calculateMapCenter provider c) (calculateMapCenter provider c').
Proof.
  intros (Hr & Hc & Hz).
  unfold pair_eqv, calculateMapCenter, Coordinate.eqv, Point.eqv,
    Coordinate.container.
  cbn [fst snd Coordinate.row Coordinate.column Coordinate.zoom Point.x Point.y].
  rewrite (Qfloor_comp _ _ Hr), (Qfloor_comp _ _ Hc).
  assert (Ex : py_round ((inject_Z (Qfloor (Coordinate.column c'))
                          - Coordinate.column c)
                         * inject_Z (tile_width provider))
               = py_round ((inject_Z (Qfloor (Coordinate.column c'))
                            - Coordinate.column c')
                           * inject_Z (tile_width provider)))
    by (apply py_round_proper; now rewrite Hc).
  assert (Ey : py_round ((inject_Z (Qfloor (Coordinate.row c'))
                          - Coordinate.row c)
                         * inject_Z (tile_height provider))
               = py_round ((inject_Z (Qfloor (Coordinate.row c'))
                            - Coordinate.row c')
                           * inject_Z (tile_height provider)))
    by (apply py_round_proper; now rewrite Hr).
  rewrite Ex, Ey. repeat split; try reflexivity. exact Hz.
Qed.

(** ** Minimum and maximum of a list *)

Lemma fold_min_is_min (l : list Q) (a : Q) : is_min (a :: l) (fold_left Qmin l a).
Proof.
  revert a. induction l as [ | b l IH ]; intros a.
  - split.
    + intros v [ <- | [] ]. apply Qle_refl.
    + exists a. split; [ now left | reflexivity ].
  - cbn [fold_left]. destruct (IH (Qmin a b)) as [Hlow (v & Hin & Hv)]. split.
    + intros w [ <- | [ <- | Hw ] ].
      * apply Qle_trans with (Qmin a b); [ apply Hlow; now left | apply Q.le_min_l ].
      * apply Qle_trans with (Qmin a b); [ apply Hlow; now left | apply Q.le_min_r ].
      * apply Hlow. now right.
    + destruct Hin as [ <- | Hin ].
      * destruct (Q.min_dec a b) as [E | E].
        -- exists a. split; [ now left | ]. now rewrite Hv, E.
        -- exists b. split; [ right; now left | ]. now rewrite Hv, E.
      * exists v. split; [ right; now right | exact Hv ].
Qed.

Lemma fold_max_is_max (l : list Q) (a : Q) : is_max (a :: l) (fold_left Qmax l a).
Proof.
  revert a. induction l as [ | b l IH ]; intros a.
  - split.
    + intros v [ <- | [] ]. apply Qle_refl.
    + exists a. split; [ now left | reflexivity ].
  - cbn [fold_left]. destruct (IH (Qmax a b)) as [Hup (v & Hin & Hv)]. split.
    + intros w [ <- | [ <- | Hw ] ].
      * apply Qle_trans with (Qmax a b); [ apply Q.le_max_l | apply Hup; now left ].
      * apply Qle_trans with (Qmax a b); [ apply Q.le_max_r | apply Hup; now left ].
      * apply Hup. now right.
    + destruct Hin as [ <- | Hin ].
      * destruct (Q.max_dec a b) as [E | E].
        -- exists a. split; [ now left | ]. now rewrite Hv, E.
        -- exists b. split; [ right; now left | ]. now rewrite Hv, E.
      * exists v. split; [ right; now right | exact Hv ].
Qed.

Lemma is_min_unique (l l' : list Q) (m m' : Q) :
  is_min l m -> is_min l' m' ->
  (forall v, In v l' -> m <= v) -> (forall v, In v l -> m' <= v) -> m == m'.
Proof.
  intros [_ (v & Hv & Ev)] [_ (v' & Hv' & Ev')] H1 H2.
  apply Qle_antisym.
  - rewrite Ev'. now apply H1.
  - rewrite Ev. now apply H2.
Qed.

Lemma is_max_unique (l l' : list Q) (m m' : Q) :
  is_max l m -> is_max l' m' ->
  (forall v, In v l' -> v <= m) -> (forall v, In v l -> v <= m') -> m == m'.
Proof.
  intros [_ (v & Hv & Ev)] [_ (v' & Hv' & Ev')] H1 H2.
  apply Qle_antisym.
  - rewrite Ev. now apply H2.
  - rewrite Ev'. now apply H1.
Qed.

Lemma py_min_same_bounds (l l' : list Q) :
  same_bounds l l' -> result_rel Qeq (py_min l) (py_min l').
Proof.
  intros (Hnil & Hsub & Hin).
  destruct l as [ | a l ].
  - now rewrite (Hnil eq_refl).
  - destruct l' as [ | a' l' ]; [ destruct (Hsub a); now left | ].
    cbn [py_min result_rel].
    pose proof (fold_min_is_min l a) as Hm.
    pose proof (fold_min_is_min l' a') as Hm'.
    apply (is_min_unique _ _ _ _ Hm Hm').
    + intros v Hv. destruct (Hin v Hv) as (lo & hi & Hlo & _ & Hle & _).
      apply Qle_trans with lo; [ now apply Hm | exact Hle ].
    + intros v Hv. apply Hm'. now apply Hsub.
Qed.

Lemma py_max_same_bounds (l l' : list Q) :
  same_bounds l l' -> result_rel Qeq (py_max l) (py_max l').
Proof.
  intros (Hnil & Hsub & Hin).
  destruct l as [ | a l ].
  - now rewrite (Hnil eq_refl).
  - destruct l' as [ | a' l' ]; [ destruct (Hsub a); now left | ].
    cbn [py_max result_rel].
    pose proof (fold_max_is_max l a) as Hm.
    pose proof (fold_max_is_max l' a') as Hm'.
    apply (is_max_unique _ _ _ _ Hm Hm').
    + intros v Hv. destruct (Hin v Hv) as (lo & hi & _ & Hhi & _ & Hle).
      apply Qle_trans with hi; [ exact Hle | now apply Hm ].
    + intros v Hv. apply Hm'. now apply Hsub.
Qed.

(** ** Projecting a list of locations *)

Lemma map_result_In {A B} (f : A -> result B) (l : list A) (bs : list B) :
  map_result f l = Ok bs ->
  forall b, In b bs <-> exists a, In a l /\ f a = Ok b.
Proof.
  revert bs. induction l as [ | a l IH ]; intros bs E b.
  - injection E as <-. split; [ intros [] | intros (a & [] & _) ].
  - cbn [map_result] in E. destruct (f a) as [b0 | e] eqn:Ea; [ | discriminate ].
    cbn [bind] in E.
    destruct (map_result f l) as [bs0 | e] eqn:El; [ | discriminate ].
    injection E as <-. specialize (IH bs0 eq_refl b). split.
    + intros [ <- | Hb ].
      * exists a. split; [ now left | exact Ea ].
      * apply IH in Hb as (a' & Ha' & Ea'). exists a'. split; [ now right | exact Ea' ].
    + intros (a' & [ <- | Ha' ] & Ea').
      * left. congruence.
      * right. apply IH. now exists a'.
Qed.

Lemma map_result_total {A B} (f : A -> result B) (l : list A) :
  (forall a, In a l -> exists b, f a = Ok b) ->
  exists bs, map_result f l = Ok bs.
Proof.
  induction l as [ | a l IH ]; intros Hl.
  - now exists [].
  - destruct (Hl a (or_introl eq_refl)) as (b & Eb).
    destruct IH as (bs & Ebs); [ intros a' Ha'; apply Hl; now right | ].
    exists (b :: bs). cbn [map_result]. now rewrite Eb, Ebs.
Qed.

Lemma map_result_Ok_inv {A B} (f : A -> result B) (l : list A) (bs : list B) :
  map_result f l = Ok bs -> forall a, In a l -> exists b, f a = Ok b.
Proof.
  revert bs. induction l as [ | a l IH ]; intros bs E a' Ha'; [ destruct Ha' | ].
  cbn [map_result] in E. destruct (f a) as [b0 | e] eqn:Ea; [ | discriminate ].
  cbn [bind] in E.
  destruct (map_result f l) as [bs0 | e] eqn:El; [ | discriminate ].
  destruct Ha' as [ <- | Ha' ]; [ now exists b0 | ].
  now apply (IH bs0).
Qed.

Lemma map_result_nil {A B} (f : A -> result B) (l : list A) :
  map_result f l = Ok [] -> l = [].
Proof.
  destruct l as [ | a l ]; [ reflexivity | ].
  cbn [map_result]. destruct (f a); [ | discriminate ].
  cbn [bind]. destruct (map_result f l); discriminate.
Qed.

(** ** [calculateMapExtent] depends on the bounds only *)

Lemma calculateMapExtent_same_bounds `{PyMath} (provider : Provider)
    (width height : Z) (args args' : list Point.t) (cs cs' : list Coordinate.t) :
  map_result (locationCoordinate provider) args = Ok cs ->
  map_result (locationCoordinate provider) args' = Ok cs' ->
  coordinates_same_bounds cs cs' ->
  result_rel pair_eqv (calculateMapExtent provider width height args)
                      (calculateMapExtent provider width height args').
Proof.
  intros E E' (Hrow & Hcol & Hzoom). unfold calculateMapExtent.
  rewrite E, E'. cbn [bind].
  apply (result_rel_bind Qeq); [ now apply py_min_same_bounds | intros tr tr' Htr ].
  apply (result_rel_bind Qeq); [ now apply py_min_same_bounds | intros tc tc' Htc ].
  apply (result_rel_bind Qeq); [ now apply py_min_same_bounds | intros tz tz' Htz ].
  apply (result_rel_bind Qeq); [ now apply py_max_same_bounds | intros br br' Hbr ].
  apply (result_rel_bind Qeq); [ now apply py_max_same_bounds | intros bc bc' Hbc ].
  apply (result_rel_bind Qeq); [ now apply py_max_same_bounds | intros bz bz' Hbz ].
  cbn [Coordinate.row Coordinate.column Coordinate.zoom].
  apply (result_rel_bind Qeq); [ now apply py_div_rel | intros ht ht' Hht ].
  apply (result_rel_bind Qeq);
    [ apply py_div_rel; [ now rewrite Hbc, Htc | exact Hht ] | intros hf hf' Hhf ].
  apply (result_rel_bind eq); [ now apply ceil_log2_rel | intros hz ? <- ].
  apply (result_rel_bind Qeq); [ now apply py_div_rel | intros vt vt' Hvt ].
  apply (result_rel_bind Qeq);
    [ apply py_div_rel; [ now rewrite Hbr, Htr | exact Hvt ] | intros vf vf' Hvf ].
  apply (result_rel_bind eq); [ now apply ceil_log2_rel | intros vz ? <- ].
  cbn [result_rel]. apply calculateMapCenter_eqv. apply zoomTo_eqv.
  - unfold Coordinate.eqv. cbn [Coordinate.row Coordinate.column Coordinate.zoom].
    rewrite Htr, Hbr, Htc, Hbc, Htz, Hbz. now repeat split.
  - now rewrite Htz.
Qed.

Lemma same_bounds_map (axis : Coordinate.t -> Q) (cs cs' : list Coordinate.t) :
  (cs = [] -> cs' = []) ->
  (forall c, In c cs -> In c cs') ->
  (forall c, In c cs' -> axis_within axis cs c) ->
  same_bounds (map axis cs) (map axis cs').
Proof.
  intros Hnil Hsub Hin. split; [ | split ].
  - intros E. apply map_eq_nil in E. now rewrite (Hnil E).
  - intros v Hv. apply in_map_iff in Hv as (c & <- & Hc).
    apply in_map. now apply Hsub.
  - intros v Hv. apply in_map_iff in Hv as (c & <- & Hc).
    destruct (Hin c Hc) as (lo & hi & Hlo & Hhi & Hle).
    exists (axis lo), (axis hi). repeat split; try (now apply in_map); apply Hle.
Qed.

Lemma axis_within_self (axis : Coordinate.t -> Q) (cs : list Coordinate.t)
    (c : Coordinate.t) :
  In c cs -> axis_within axis cs c.
Proof.
  intros Hc. exists c, c. repeat split; try assumption; apply Qle_refl.
Qed.

Lemma fold_min_max_span (l : list Q) (a lo hi : Q) :
  In lo (a :: l) -> In hi (a :: l) -> lo < hi ->
  0 < fold_left Qmax l a - fold_left Qmin l a.
Proof.
  intros Hlo Hhi Hlt.
  destruct (fold_min_is_min l a) as [Hmin _].
  destruct (fold_max_is_max l a) as [Hmax _].
  specialize (Hmin lo Hlo). specialize (Hmax hi Hhi). lra.
Qed.

Lemma fold_min_max_flat (l : list Q) (a : Q) :
  (forall v v', In v (a :: l) -> In v' (a :: l) -> v == v') ->
  fold_left Qmax l a - fold_left Qmin l a == 0.
Proof.
  intros Hall.
  destruct (fold_min_is_min l a) as [_ (v & Hv & Ev)].
  destruct (fold_max_is_max l a) as [_ (v' & Hv' & Ev')].
  rewrite Ev, Ev', (Hall v' v Hv' Hv). ring.
Qed.

Lemma Qdiv_pos (n d : Q) : 0 < n -> 0 < d -> 0 < n / d.
Proof. intros Hn Hd. apply Qlt_shift_div_l; lra. Qed.

Lemma Qdiv_nonzero (n d : Q) : ~ n == 0 -> ~ d == 0 -> ~ n / d == 0.
Proof.
  intros Hn Hd E. apply Hn.
  setoid_replace n with (n / d * d) by (field; exact Hd).
  rewrite E. ring.
Qed.

Lemma inject_Z_eq_0 (z : Z) : inject_Z z == 0 -> z = 0%Z.
Proof.
  intros E. apply (proj1 (inject_Z_injective z 0)). exact E.
Qed.

Lemma inject_Z_neq_0 (z : Z) : z <> 0%Z -> ~ inject_Z z == 0.
Proof. intros Hz E. apply Hz. now apply inject_Z_eq_0. Qed.

(** A sequence of locations whose coordinates span a positive range of
    columns and of rows is accepted. *)
Lemma calculateMapExtent_accepts `{PyMath} (provider : Provider)
    (width height : Z) (args : list Point.t) (cs : list Coordinate.t) :
  map_result (locationCoordinate provider) args = Ok cs ->
  (0 < width)%Z -> (0 < height)%Z ->
  (0 < tile_width provider)%Z -> (0 < tile_height provider)%Z ->
  (exists c c', In c cs /\ In c' cs
                /\ Coordinate.column c < Coordinate.column c') ->
  (exists c c', In c cs /\ In c' cs
                /\ Coordinate.row c < Coordinate.row c') ->
  exists coord offset,
    calculateMapExtent provider width height args = Ok (coord, offset).
Proof.
  intros E Hw Hh Htw Hth (c1 & c2 & Hc1 & Hc2 & Hcol)
    (r1 & r2 & Hr1 & Hr2 & Hrow).
  assert (Hw' : 0 < inject_Z width) by now rewrite (Zlt_Qlt 0 width) in Hw.
  assert (Hh' : 0 < inject_Z height) by now rewrite (Zlt_Qlt 0 height) in Hh.
  assert (Htw' : 0 < inject_Z (tile_width provider))
    by now rewrite (Zlt_Qlt 0 (tile_width provider)) in Htw.
  assert (Hth' : 0 < inject_Z (tile_height provider))
    by now rewrite (Zlt_Qlt 0 (tile_height provider)) in Hth.
  unfold calculateMapExtent. rewrite E. cbn [bind].
  destruct cs as [ | c cs ]; [ destruct Hc1 | ].
  cbn [map py_min py_max bind Coordinate.row Coordinate.column Coordinate.zoom].
  pose proof (fold_min_max_span (map Coordinate.column cs) (Coordinate.column c)
                _ _ (in_map Coordinate.column _ _ Hc1)
                (in_map Coordinate.column _ _ Hc2) Hcol) as Hhs.
  pose proof (fold_min_max_span (map Coordinate.row cs) (Coordinate.row c)
                _ _ (in_map Coordinate.row _ _ Hr1)
                (in_map Coordinate.row _ _ Hr2) Hrow) as Hvs.
  pose proof (Qdiv_pos _ _ Hw' Htw') as Hht.
  pose proof (Qdiv_pos _ _ Hh' Hth') as Hvt.
  rewrite (py_div_ok (inject_Z width)) by lra. cbn [bind].
  rewrite py_div_ok by lra. cbn [bind].
  rewrite (ceil_log2_ok _ (Qdiv_pos _ _ Hhs Hht)). cbn [bind].
  rewrite (py_div_ok (inject_Z height)) by lra. cbn [bind].
  rewrite py_div_ok by lra. cbn [bind].
  rewrite (ceil_log2_ok _ (Qdiv_pos _ _ Hvs Hvt)). cbn [bind].
  unfold calculateMapCenter. eexists _, _. reflexivity.
Qed.

(** A sequence of locations whose coordinates lie on one column, or on one
    row, is rejected by [math.log]: a single location is the first case. *)
Lemma calculateMapExtent_without_area `{PyMath} (provider : Provider)
    (width height : Z) (args : list Point.t) (cs : list Coordinate.t) :
  map_result (locationCoordinate provider) args = Ok cs ->
  args <> [] ->
  width <> 0%Z -> height <> 0%Z ->
  tile_width provider <> 0%Z -> tile_height provider <> 0%Z ->
  (forall c c', In c cs -> In c' cs ->
                Coordinate.column c == Coordinate.column c')
  \/ (forall c c', In c cs -> In c' cs ->
                   Coordinate.row c == Coordinate.row c') ->
  calculateMapExtent provider width height args
  = Raise (ValueError "math domain error").
Proof.
  intros E Hargs Hw Hh Htw Hth Hflat.
  pose proof (Qdiv_nonzero _ _ (inject_Z_neq_0 _ Hw) (inject_Z_neq_0 _ Htw))
    as Hht.
  pose proof (Qdiv_nonzero _ _ (inject_Z_neq_0 _ Hh) (inject_Z_neq_0 _ Hth))
    as Hvt.
  unfold calculateMapExtent. rewrite E. cbn [bind].
  destruct cs as [ | c cs ].
  { apply map_result_nil in E. contradiction. }
  cbn [map py_min py_max bind Coordinate.row Coordinate.column Coordinate.zoom].
  assert (Hzero : forall (axis : Coordinate.t -> Q) (d : Q),
             (forall c1 c2, In c1 (c :: cs) -> In c2 (c :: cs) ->
                            axis c1 == axis c2) ->
             (fold_left Qmax (map axis cs) (axis c)
              - fold_left Qmin (map axis cs) (axis c)) / d <= 0).
  { intros axis d Hall.
    rewrite (fold_min_max_flat (map axis cs) (axis c)).
    - unfold Qdiv. rewrite Qmult_0_l. apply Qle_refl.
    - intros v v' Hv Hv'.
      change (axis c :: map axis cs) with (map axis (c :: cs)) in Hv, Hv'.
      apply in_map_iff in Hv as (d1 & <- & Hd1).
      apply in_map_iff in Hv' as (d2 & <- & Hd2). now apply Hall. }
  rewrite (py_div_ok (inject_Z width)) by exact (inject_Z_neq_0 _ Htw).
  cbn [bind]. rewrite py_div_ok by exact Hht. cbn [bind].
  destruct Hflat as [Hflat | Hflat].
  - now rewrite (ceil_log2_domain _ (Hzero Coordinate.column _ Hflat)).
  - unfold ceil_log2 at 1.
    destruct (Qle_bool _ 0); [ reflexivity | ]. cbn [bind].
    rewrite (py_div_ok (inject_Z height)) by exact (inject_Z_neq_0 _ Hth).
    cbn [bind]. rewrite py_div_ok by exact Hvt. cbn [bind].
    now rewrite (ceil_log2_domain _ (Hzero Coordinate.row _ Hflat)).
Qed.

(** C10 (as amended): [calculateMapExtent] takes a sequence of locations of
    any length, and returns for the ones whose projected coordinates span a
    positive range of columns and of rows, image and tile sizes being
    positive; it rejects the empty sequence, and a sequence whose
    coordinates lie on one column or on one row, such as a single location.
    What it returns, or raises, depends only on the per-axis bounds of the
    projected coordinates: a permutation of the locations, or one more
    location whose projected coordinate lies inside the per-axis bounds of
    the others, gives the same coordinate and offset, or the same
    exception. *)
Theorem calculateMapExtent_bounds_only `{PyMath} (provider : Provider)
    (width height : Z) :
  calculateMapExtent provider width height []
  = Raise (ValueError "min() arg is an empty sequence") /\
  (forall (location : Point.t) (c : Coordinate.t),
      locationCoordinate provider location = Ok c ->
      width <> 0%Z -> height <> 0%Z ->
      tile_width provider <> 0%Z -> tile_height provider <> 0%Z ->
      calculateMapExtent provider width height [location]
      = Raise (ValueError "math domain error")) /\
  (forall (args : list Point.t) (cs : list Coordinate.t),
      map_result (locationCoordinate provider) args = Ok cs ->
      args <> [] ->
      width <> 0%Z -> height <> 0%Z ->
      tile_width provider <> 0%Z -> tile_height provider <> 0%Z ->
      (forall c c', In c cs -> In c' cs ->
                    Coordinate.column c == Coordinate.column c')
      \/ (forall c c', In c cs -> In c' cs ->
                       Coordinate.row c == Coordinate.row c') ->
      calculateMapExtent provider width height args
      = Raise (ValueError "math domain error")) /\
  (forall (args : list Point.t) (cs : list Coordinate.t),
      map_result (locationCoordinate provider) args = Ok cs ->
      (0 < width)%Z -> (0 < height)%Z ->
      (0 < tile_width provider)%Z -> (0 < tile_height provider)%Z ->
      (exists c c', In c cs /\ In c' cs
                    /\ Coordinate.column c < Coordinate.column c') ->
      (exists c c', In c cs /\ In c' cs
                    /\ Coordinate.row c < Coordinate.row c') ->
      exists coord offset,
        calculateMapExtent provider width height args = Ok (coord, offset)) /\
  (forall (args args' : list Point.t) (cs : list Coordinate.t),
      map_result (locationCoordinate provider) args = Ok cs ->
      Permutation args args' ->
      result_rel pair_eqv (calculateMapExtent provider width height args)
                          (calculateMapExtent provider width height args')) /\
  (forall (before after : list Point.t) (location : Point.t)
          (cs : list Coordinate.t) (c : Coordinate.t),
      map_result (locationCoordinate provider) (before ++ after) = Ok cs ->
      locationCoordinate provider location = Ok c ->
      within_bounds cs c ->
      result_rel pair_eqv
        (calculateMapExtent provider width height (before ++ after))
        (calculateMapExtent provider width height
           (before ++ location :: after))).
Proof.
  split; [ reflexivity | ].
  split.
  { intros location c Ec Hw Hh Htw Hth.
    apply (calculateMapExtent_without_area provider width height
             [location] [c]);
      try assumption.
    - cbn [map_result]. rewrite Ec. reflexivity.
    - discriminate.
    - left. intros c1 c2 [ <- | [] ] [ <- | [] ]. reflexivity. }
  split; [ intros args cs; apply calculateMapExtent_without_area | ].
  split; [ intros args cs; apply calculateMapExtent_accepts | ].
  split.
  - intros args args' cs E Hperm.
    destruct (map_result_total (locationCoordinate provider) args') as (cs' & E').
    { intros a Ha. apply (map_result_Ok_inv _ _ _ E).
      now apply (Permutation_in a (Permutation_sym Hperm)). }
    assert (Hin : forall c, In c cs <-> In c cs').
    { intros c. rewrite (map_result_In _ _ _ E), (map_result_In _ _ _ E').
      split; intros (a & Ha & Ea); exists a; split; try assumption.
      - now apply (Permutation_in a Hperm).
      - now apply (Permutation_in a (Permutation_sym Hperm)). }
    assert (Hnil : cs = [] -> cs' = []).
    { intros ->. apply map_result_nil in E. subst args.
      apply Permutation_nil in Hperm. subst args'. now injection E' as <-. }
    apply (calculateMapExtent_same_bounds _ _ _ _ _ cs cs' E E').
    repeat split; apply same_bounds_map; try assumption;
      try (intros c Hc; now apply Hin);
      intros c Hc; apply axis_within_self; now apply Hin.
  - intros before after location cs c E Ec (Hrow & Hcol & Hzoom).
    destruct (map_result_total (locationCoordinate provider)
                (before ++ location :: after)) as (cs' & E').
    { intros a Ha. apply in_app_or in Ha as [ Ha | [ <- | Ha ] ].
      - apply (map_result_Ok_inv _ _ _ E). apply in_or_app. now left.
      - now exists c.
      - apply (map_result_Ok_inv _ _ _ E). apply in_or_app. now right. }
    assert (Hsub : forall d, In d cs -> In d cs').
    { intros d. rewrite (map_result_In _ _ _ E), (map_result_In _ _ _ E').
      intros (a & Ha & Ea). exists a. split; [ | exact Ea ].
      apply in_or_app. apply in_app_or in Ha as [ Ha | Ha ];
        [ now left | right; now right ]. }
    assert (Hin : forall d, In d cs' -> In d cs \/ d = c).
    { intros d. rewrite (map_result_In _ _ _ E), (map_result_In _ _ _ E').
      intros (a & Ha & Ea). apply in_app_or in Ha as [ Ha | [ <- | Ha ] ].
      - left. exists a. split; [ apply in_or_app; now left | exact Ea ].
      - right. congruence.
      - left. exists a. split; [ apply in_or_app; now right | exact Ea ]. }
    assert (Hnil : cs = [] -> cs' = []).
    { intros ->. destruct Hrow as (lo & _ & [] & _). }
    apply (calculateMapExtent_same_bounds _ _ _ _ _ cs cs' E E').
    repeat split; apply same_bounds_map; try assumption;
      intros d Hd; (destruct (Hin d Hd) as [ Hd' | -> ];
                    [ now apply axis_within_self | assumption ]).
Qed.

Lemma calculateMapExtent_bounds_only_witness :
  exists r r' r'',
    calculateMapExtent (H := floor_math) (identity_provider 10 256 256)
      256 256 [Point.new 0 0; Point.new 1 1] = Ok r /\
    calculateMapExtent (H := floor_math) (identity_provider 10 256 256)
      256 256 [Point.new 1 1; Point.new 0 0] = Ok r' /\
    calculateMapExtent (H := floor_math) (identity_provider 10 256 256)
      256 256 [Point.new 0 0; Point.new (1 # 2) (1 # 3); Point.new 1 1]
    = Ok r'' /\
    pair_eqv r r' /\ pair_eqv r r'' /\
    calculateMapExtent (H := floor_math) (identity_provider 10 256 256)
      256 256 [Point.new (1 # 2) (1 # 3)]
    = Raise (ValueError "math domain error").
Proof.
  destruct (calculateMapExtent_bounds_only (H := floor_math)
              (identity_provider 10 256 256) 256 256)
    as (_ & Hone & _ & Haccept & Hperm & Hadd).
  destruct (Haccept [Point.new 0 0; Point.new 1 1] _ eq_refl)
    as (coord & offset & Hrun); try reflexivity;
    try (exists (Coordinate.new 0 0 10), (Coordinate.new 1 1 10);
         split; [ now left | split; [ right; now left | reflexivity ] ]).
  specialize (Hperm [Point.new 0 0; Point.new 1 1]
                [Point.new 1 1; Point.new 0 0] _ eq_refl (perm_swap _ _ _)).
  assert (Hin : within_bounds [Coordinate.new 0 0 10; Coordinate.new 1 1 10]
                  (Coordinate.new (1 # 3) (1 # 2) 10)).
  { repeat split;
      exists (Coordinate.new 0 0 10), (Coordinate.new 1 1 10);
      (split; [ now left | split; [ right; now left | ] ]);
      cbn; split; discriminate. }
  specialize (Hadd [Point.new 0 0] [Point.new 1 1] (Point.new (1 # 2) (1 # 3))
                _ _ eq_refl eq_refl Hin).
  cbn [app] in Hadd. rewrite Hrun in Hperm, Hadd.
  destruct (calculateMapExtent (H := floor_math) _ 256 256
              [Point.new 1 1; Point.new 0 0]) as [r' | e];
    [ | destruct Hperm ].
  destruct (calculateMapExtent (H := floor_math) _ 256 256
              [Point.new 0 0; Point.new (1 # 2) (1 # 3); Point.new 1 1])
    as [r'' | e]; [ | destruct Hadd ].
  exists (coord, offset), r', r''.
  split; [ exact Hrun | ]. split; [ reflexivity | ].
  split; [ reflexivity | ]. split; [ exact Hperm | ].
  split; [ exact Hadd | ].
  apply (Hone _ _ eq_refl); discriminate.
Defined.

(** C10, as stated, fails: a sequence of one location is not accepted.  For
    the identity-like provider and an image of 256 x 256 pixels, the single
    location [(1/2, 1/3)] gives the factor 0 and [math.log] raises. *)
Lemma calculateMapExtent_single_location_counterexample :
  exists c,
    locationCoordinate (identity_provider 10 256 256)
      (Point.new (1 # 2) (1 # 3)) = Ok c /\
    calculateMapExtent (H := floor_math) (identity_provider 10 256 256)
      256 256 [Point.new (1 # 2) (1 # 3)]
    = Raise (ValueError "math domain error").
Proof. eexists. split; reflexivity. Qed.

(** ** The tile grid of [render_map] *)

Lemma walk_left_mono (provider : Provider) (fuel fuel' : nat) (corner : Point.t)
    (coord : Coordinate.t) (r : Point.t * Coordinate.t) :
  (fuel <= fuel')%nat ->
  walk_left fuel provider corner coord = Some r ->
  walk_left fuel' provider corner coord = Some r.
Proof.
  revert fuel' corner coord.
  induction fuel as [ | fuel IH ]; intros fuel' corner coord Hle E.
  - destruct fuel'; cbn [walk_left] in *;
      destruct (Qle_bool (Point.x corner) 0); congruence.
  - destruct fuel' as [ | fuel' ]; [ lia | ].
    cbn [walk_left] in *. destruct (Qle_bool (Point.x corner) 0); [ exact E | ].
    apply IH; [ lia | exact E ].
Qed.

Lemma walk_up_mono (provider : Provider) (fuel fuel' : nat) (corner : Point.t)
    (coord : Coordinate.t) (r : Point.t * Coordinate.t) :
  (fuel <= fuel')%nat ->
  walk_up fuel provider corner coord = Some r ->
  walk_up fuel' provider corner coord = Some r.
Proof.
  revert fuel' corner coord.
  induction fuel as [ | fuel IH ]; intros fuel' corner coord Hle E.
  - destruct fuel'; cbn [walk_up] in *;
      destruct (Qle_bool (Point.y corner) 0); congruence.
  - destruct fuel' as [ | fuel' ]; [ lia | ].
    cbn [walk_up] in *. destruct (Qle_bool (Point.y corner) 0); [ exact E | ].
    apply IH; [ lia | exact E ].
Qed.

Lemma inject_Z_minus (a b : Z) : inject_Z a - inject_Z b == inject_Z (a - b).
Proof.
  unfold Z.sub. rewrite inject_Z_plus, inject_Z_opp. ring.
Qed.

Lemma walk_left_terminates (provider : Provider) (fuel : nat) :
  (0 < tile_width provider)%Z ->
  forall (corner : Point.t) (coord : Coordinate.t) (X : Z),
    Point.x corner == inject_Z X -> (X <= Z.of_nat fuel)%Z ->
    exists qx X' coord',
      walk_left fuel provider corner coord
      = Some (Point.new qx (Point.y corner), coord') /\
      qx == inject_Z X' /\ (X' <= 0)%Z.
Proof.
  intros Htw. induction fuel as [ | fuel IH ]; intros corner coord X HX Hfuel.
  - exists (Point.x corner), X, coord. cbn [walk_left].
    assert (E : Qle_bool (Point.x corner) 0 = true).
    { apply Qle_bool_iff. rewrite HX. change 0 with (inject_Z 0).
      rewrite <- Zle_Qle. lia. }
    rewrite E. destruct corner; repeat split; [ exact HX | lia ].
  - cbn [walk_left]. destruct (Qle_bool (Point.x corner) 0) eqn:E.
    + exists (Point.x corner), X, coord.
      apply Qle_bool_iff in E. rewrite HX in E. change 0 with (inject_Z 0) in E.
      rewrite <- Zle_Qle in E. destruct corner; repeat split; assumption.
    + destruct (IH (Point.new (Point.x corner - inject_Z (tile_width provider))
                              (Point.y corner))
                   (Coordinate.left coord) (X - tile_width provider)%Z)
        as (qx & X' & coord' & Hrun & Hqx & HX').
      * cbn [Point.x]. now rewrite HX, inject_Z_minus.
      * lia.
      * exists qx, X', coord'. repeat split; assumption.
Qed.

Lemma walk_up_terminates (provider : Provider) (fuel : nat) :
  (0 < tile_height provider)%Z ->
  forall (corner : Point.t) (coord : Coordinate.t) (Y : Z),
    Point.y corner == inject_Z Y -> (Y <= Z.of_nat fuel)%Z ->
    exists qy Y' coord',
      walk_up fuel provider corner coord
      = Some (Point.new (Point.x corner) qy, coord') /\
      qy == inject_Z Y' /\ (Y' <= 0)%Z.
Proof.
  intros Hth. induction fuel as [ | fuel IH ]; intros corner coord Y HY Hfuel.
  - exists (Point.y corner), Y, coord. cbn [walk_up].
    assert (E : Qle_bool (Point.y corner) 0 = true).
    { apply Qle_bool_iff. rewrite HY. change 0 with (inject_Z 0).
      rewrite <- Zle_Qle. lia. }
    rewrite E. destruct corner; repeat split; [ exact HY | lia ].
  - cbn [walk_up]. destruct (Qle_bool (Point.y corner) 0) eqn:E.
    + exists (Point.y corner), Y, coord.
      apply Qle_bool_iff in E. rewrite HY in E. change 0 with (inject_Z 0) in E.
      rewrite <- Zle_Qle in E. destruct corner; repeat split; assumption.
    + destruct (IH (Point.new (Point.x corner)
                              (Point.y corner - inject_Z (tile_height provider)))
                   (Coordinate.up coord) (Y - tile_height provider)%Z)
        as (qy & Y' & coord' & Hrun & Hqy & HY').
      * cbn [Point.y]. now rewrite HY, inject_Z_minus.
      * lia.
      * exists qy, Y', coord'. repeat split; assumption.
Qed.

Lemma py_range_up (start stop step : Z) :
  (0 < step)%Z ->
  py_range start stop step
  = Ok (map (fun i => (start + Z.of_nat i * step)%Z)
            (seq 0 (Z.to_nat ((stop - start + step - 1) / step)))).
Proof.
  intros Hstep. unfold py_range.
  now rewrite (proj2 (Z.compare_gt_iff step 0) Hstep).
Qed.

Lemma row_tiles_points (provider : Provider) (xs : list Z) (y : Z)
    (tileCoord : Coordinate.t) :
  map request_point (row_tiles provider tileCoord xs y)
  = map (fun x => Point.new (inject_Z x) (inject_Z y)) xs.
Proof.
  revert tileCoord. induction xs as [ | x xs IH ]; intros tileCoord.
  - reflexivity.
  - cbn [row_tiles map request_point]. now rewrite IH.
Qed.

Lemma row_tiles_provider (provider : Provider) (xs : list Z) (y : Z)
    (tileCoord : Coordinate.t) (tile : TileRequest) :
  In tile (row_tiles provider tileCoord xs y) -> request_provider tile = provider.
Proof.
  revert tileCoord. induction xs as [ | x xs IH ]; intros tileCoord; [ intros [] | ].
  cbn [row_tiles]. intros [ <- | Hin ]; [ reflexivity | now apply IH in Hin ].
Qed.

Lemma grid_tiles_run (provider : Provider) (w : Z) (corner : Point.t)
    (ys : list Z) (rowCoord : Coordinate.t) :
  (0 < tile_width provider)%Z ->
  exists tiles,
    grid_tiles provider w corner rowCoord ys = Ok tiles /\
    (forall tile, In tile tiles -> request_provider tile = provider) /\
    map request_point tiles
    = flat_map
        (fun y =>
           map (fun i =>
                  Point.new
                    (inject_Z (py_int (Point.x corner)
                               + Z.of_nat i * tile_width provider))
                    (inject_Z y))
               (seq 0 (Z.to_nat ((w - py_int (Point.x corner)
                                  + tile_width provider - 1)
                                 / tile_width provider))))
        ys.
Proof.
  intros Htw. revert rowCoord.
  induction ys as [ | y ys IH ]; intros rowCoord.
  - exists []. repeat split. intros tile [].
  - destruct (IH (Coordinate.down rowCoord)) as (rest & Hrest & Hprov & Hpoints).
    cbn [grid_tiles]. rewrite (py_range_up _ _ _ Htw). cbn [bind].
    rewrite Hrest. cbn [bind]. eexists. split; [ reflexivity | split ].
    + intros tile Hin. apply in_app_or in Hin as [ Hin | Hin ].
      * now apply row_tiles_provider in Hin.
      * now apply Hprov.
    + rewrite map_app, row_tiles_points, Hpoints, map_map. reflexivity.
Qed.

Lemma flat_map_map_compose {A B C} (f : B -> list C) (g : A -> B) (l : list A) :
  flat_map f (map g l) = flat_map (fun a => f (g a)) l.
Proof.
  induction l as [ | a l IH ]; [ reflexivity | ].
  cbn [map flat_map]. now rewrite IH.
Qed.

Lemma range_covers (x0 w t p : Z) :
  (0 < t)%Z -> (x0 <= 0)%Z -> (0 <= p < w)%Z ->
  (0 <= (p - x0) / t < (w - x0 + t - 1) / t)%Z /\
  (x0 + (p - x0) / t * t <= p < x0 + (p - x0) / t * t + t)%Z.
Proof.
  intros Ht Hx Hp.
  assert (E : ((w - x0 + t - 1) / t = (w - 1 - x0) / t + 1)%Z).
  { replace (w - x0 + t - 1)%Z with (w - 1 - x0 + 1 * t)%Z by lia.
    apply Z.div_add. lia. }
  pose proof (Z.div_le_mono (p - x0) (w - 1 - x0) t Ht ltac:(lia)).
  pose proof (Z.div_pos (p - x0) t ltac:(lia) Ht).
  pose proof (Z.mul_div_le (p - x0) t Ht).
  pose proof (Z.mul_succ_div_gt (p - x0) t Ht).
  split; [ lia | nia ].
Qed.

(** C3 (as amended): with positive tile sizes [render_map] terminates; the
    destination points of the tile requests form a uniform grid, [tile_width]
    apart horizontally and [tile_height] apart vertically, that starts at or
    before the image origin; and every pixel of the image
    [[0, W) x [0, H)] lies in the destination rectangle of a tile. *)
Theorem render_map_grid_covers_image (map : Map.t) :
  (0 < tile_width (Map.provider map))%Z ->
  (0 < tile_height (Map.provider map))%Z ->
  exists (fuel0 : nat) (tiles : list TileRequest) (x0 y0 : Z) (nx ny : nat),
    (forall fuel, (fuel0 <= fuel)%nat -> render_map fuel map = Some (Ok tiles)) /\
    (x0 <= 0)%Z /\ (y0 <= 0)%Z /\
    List.map request_point tiles
    = grid_points x0 y0 (tile_width (Map.provider map))
                  (tile_height (Map.provider map)) nx ny /\
    (forall px py : Z,
        (0 <= px < fst (Map._size map))%Z ->
        (0 <= py < snd (Map._size map))%Z ->
        exists tile, In tile tiles /\ tile_covers tile px py).
Proof.
  intros Htw Hth. destruct map as [provider coordinate offset ext center zm [w h]].
  cbn [Map.provider Map._size fst snd] in *.
  set (X0 := py_int (Point.x offset + inject_Z w / 2)).
  set (Y0 := py_int (Point.y offset + inject_Z h / 2)).
  set (fuel0 := Nat.max (Z.to_nat X0) (Z.to_nat Y0)).
  destruct (walk_left_terminates provider fuel0 Htw
              (Point.new (inject_Z X0) (inject_Z Y0))
              (Coordinate.copy coordinate) X0 (Qeq_refl _) ltac:(lia))
    as (qx & X' & coord1 & Hleft & Hqx & HX').
  cbn [Point.y] in Hleft.
  destruct (walk_up_terminates provider fuel0 Hth
              (Point.new qx (inject_Z Y0)) coord1 Y0 (Qeq_refl _) ltac:(lia))
    as (qy & Y' & coord2 & Hup & Hqy & HY').
  cbn [Point.x] in Hup.
  destruct (grid_tiles_run provider w (Point.new qx qy)
              (List.map (fun i => (Y' + Z.of_nat i * tile_height provider)%Z)
                        (seq 0 (Z.to_nat ((h - Y' + tile_height provider - 1)
                                          / tile_height provider))))
              (Coordinate.copy coord2) Htw)
    as (tiles & Hgrid & Hprov & Hpoints).
  cbn [Point.x] in Hpoints.
  rewrite (py_int_proper _ _ Hqx), py_int_Z in Hpoints.
  rewrite flat_map_map_compose in Hpoints.
  exists fuel0, tiles, X', Y'.
  exists (Z.to_nat ((w - X' + tile_width provider - 1) / tile_width provider)).
  exists (Z.to_nat ((h - Y' + tile_height provider - 1) / tile_height provider)).
  split; [ | split; [ exact HX' | split; [ exact HY' | split ] ] ].
  - intros fuel Hfuel. unfold render_map.
    cbn [Map.provider Map._size Map.offset Map.coordinate].
    fold X0 Y0.
    rewrite (walk_left_mono _ _ _ _ _ _ Hfuel Hleft).
    rewrite (walk_up_mono _ _ _ _ _ _ Hfuel Hup).
    cbn [Point.y]. rewrite (py_int_proper _ _ Hqy), py_int_Z.
    rewrite (py_range_up _ _ _ Hth). cbn [bind]. now rewrite Hgrid.
  - exact Hpoints.
  - intros px py Hpx Hpy.
    destruct (range_covers X' w (tile_width provider) px Htw HX' Hpx)
      as [Hi Hxin].
    destruct (range_covers Y' h (tile_height provider) py Hth HY' Hpy)
      as [Hj Hyin].
    set (i := ((px - X') / tile_width provider)%Z) in *.
    set (j := ((py - Y') / tile_height provider)%Z) in *.
    assert (Hin : In (Point.new (inject_Z (X' + i * tile_width provider))
                                (inject_Z (Y' + j * tile_height provider)))
                     (List.map request_point tiles)).
    { rewrite Hpoints. apply in_flat_map. exists (Z.to_nat j). split.
      - apply in_seq. lia.
      - apply in_map_iff. exists (Z.to_nat i). split.
        + now rewrite !Z2Nat.id by lia.
        + apply in_seq. lia. }
    apply in_map_iff in Hin as (tile & Hpt & Htile).
    exists tile. split; [ exact Htile | ].
    unfold tile_covers. rewrite Hpt, (Hprov tile Htile). cbn [Point.x Point.y].
    rewrite <- !inject_Z_plus, <- !Zle_Qle, <- !Zlt_Qlt. lia.
Qed.

Lemma render_map_mono (fuel fuel' : nat) (map : Map.t)
    (r : result (list TileRequest)) :
  (fuel <= fuel')%nat ->
  render_map fuel map = Some r -> render_map fuel' map = Some r.
Proof.
  intros Hle. unfold render_map. destruct (Map._size map) as [w h].
  destruct (walk_left fuel _ _ _) as [[corner coord] | ] eqn:Hleft;
    [ | discriminate ].
  rewrite (walk_left_mono _ _ _ _ _ _ Hle Hleft).
  destruct (walk_up fuel _ _ _) as [[corner' coord'] | ] eqn:Hup;
    [ | discriminate ].
  now rewrite (walk_up_mono _ _ _ _ _ _ Hle Hup).
Qed.

Lemma render_map_grid_covers_image_witness :
  exists (tiles : list TileRequest) (x0 y0 : Z) (nx ny : nat),
    render_map 0 example_map = Some (Ok tiles) /\
    map request_point tiles = grid_points x0 y0 256 256 nx ny /\
    exists tile, In tile tiles /\ tile_covers tile 127 127.
Proof.
  destruct (render_map_grid_covers_image example_map)
    as (fuel0 & tiles & x0 & y0 & nx & ny & Hrun & _ & _ & Hgrid & Hcover);
    try reflexivity.
  exists tiles, x0, y0, nx, ny. split; [ | split ].
  - assert (E : exists r, render_map 0 example_map = Some r)
      by (eexists; reflexivity).
    destruct E as (r & E). rewrite E.
    rewrite <- (Hrun fuel0 (le_n fuel0)).
    symmetry. apply (render_map_mono 0 fuel0 _ _ (Nat.le_0_l fuel0) E).
  - exact Hgrid.
  - apply Hcover; cbn; lia.
Defined.

(** C3, as stated, fails: the one tile that [render_map] requests for
    [example_map], an image of 128 x 128 pixels, is 256 pixels wide and covers
    the pixel [(200, 0)] outside the image. *)
Lemma render_map_exact_cover_counterexample :
  exists tiles,
    render_map 0 example_map = Some (Ok tiles) /\
    ~ (forall px py : Z,
          (exists tile, In tile tiles /\ tile_covers tile px py) <->
          (0 <= px < fst (Map._size example_map))%Z /\
          (0 <= py < snd (Map._size example_map))%Z).
Proof.
  eexists. split; [ reflexivity | ].
  intros Hexact.
  destruct (proj1 (Hexact 200%Z 0%Z)) as [[_ Hlt] _]; [ | cbn in Hlt; lia ].
  eexists. split; [ now left | ].
  unfold tile_covers. cbn. unfold Qle, Qlt. cbn. lia.
Qed.

(** ** The setters of [Map] *)

(** What [calculateMapExtent] raises on an extent without area. *)
Lemma calculateMapExtent_degenerate `{PyMath} (provider : Provider)
    (width height : Z) (A B : Point.t) (ca cb : Coordinate.t) :
  locationCoordinate provider A = Ok ca ->
  locationCoordinate provider B = Ok cb ->
  (0 < width)%Z -> (0 < height)%Z ->
  (0 < tile_width provider)%Z -> (0 < tile_height provider)%Z ->
  Coordinate.column ca == Coordinate.column cb
  \/ Coordinate.row ca == Coordinate.row cb ->
  calculateMapExtent provider width height [A; B]
  = Raise (ValueError "math domain error").
Proof.
  intros HA HB Hw Hh Htw Hth Hdeg.
  assert (Hw' : 0 < inject_Z width) by now rewrite (Zlt_Qlt 0 width) in Hw.
  assert (Hh' : 0 < inject_Z height) by now rewrite (Zlt_Qlt 0 height) in Hh.
  assert (Htw' : 0 < inject_Z (tile_width provider))
    by now rewrite (Zlt_Qlt 0 (tile_width provider)) in Htw.
  assert (Hth' : 0 < inject_Z (tile_height provider))
    by now rewrite (Zlt_Qlt 0 (tile_height provider)) in Hth.
  assert (Hquot : forall n d : Q, 0 < n -> 0 < d -> 0 < n / d).
  { intros n d Hn Hd. apply Qlt_shift_div_l; lra. }
  pose proof (Hquot _ _ Hw' Htw') as Hht.
  pose proof (Hquot _ _ Hh' Hth') as Hvt.
  assert (Hzero : forall a b d : Q, a == b -> 0 < d ->
                    (Qmax a b - Qmin a b) / d <= 0).
  { intros a b d Hab Hd. rewrite <- Qabs_max_min.
    setoid_replace (a - b) with 0 by lra. change (Qabs 0) with 0.
    unfold Qdiv. rewrite Qmult_0_l. apply Qle_refl. }
  assert (Hpos : forall a b d : Q, ~ a == b -> 0 < d ->
                   0 < (Qmax a b - Qmin a b) / d).
  { intros a b d Hab Hd. apply Hquot; [ | exact Hd ].
    rewrite <- Qabs_max_min.
    assert (Hne : ~ a - b == 0) by (intros E; apply Hab; lra).
    apply (Qabs_case (a - b) (fun q => 0 < q)); intros Hs;
      (destruct (Qeq_dec (a - b) 0); [ contradiction | lra ]). }
  unfold calculateMapExtent.
  cbn [map_result bind]. rewrite HA. cbn [bind]. rewrite HB.
  cbn [bind map py_min py_max fold_left Coordinate.row Coordinate.column
         Coordinate.zoom].
  rewrite (py_div_ok (inject_Z width)) by lra. cbn [bind].
  rewrite py_div_ok by lra. cbn [bind].
  destruct (Qeq_dec (Coordinate.column ca) (Coordinate.column cb)) as [Ec | Ec].
  - now rewrite (ceil_log2_domain _ (Hzero _ _ _ Ec Hht)).
  - rewrite (ceil_log2_ok _ (Hpos _ _ _ Ec Hht)). cbn [bind].
    rewrite (py_div_ok (inject_Z height)) by lra. cbn [bind].
    rewrite py_div_ok by lra. cbn [bind].
    destruct Hdeg as [Hdeg | Hdeg]; [ contradiction | ].
    now rewrite (ceil_log2_domain _ (Hzero _ _ _ Hdeg Hvt)).
Qed.

(** C8 (as amended): on a degenerate extent, whose corners project to equal
    columns or to equal rows, [calculateMapExtent] raises the [ValueError]
    "math domain error" of [math.log], and the extent setter that calls it
    fails with that exception. *)
Theorem degenerate_extent_raises_math_domain_error `{PyMath} (self : Map.t)
    (x1 y1 x2 y2 : Q) (ca cb : Coordinate.t) :
  locationCoordinate (Map.provider self) (Point.new x1 y1) = Ok ca ->
  locationCoordinate (Map.provider self) (Point.new x2 y2) = Ok cb ->
  (0 < fst (Map._size self))%Z -> (0 < snd (Map._size self))%Z ->
  (0 < tile_width (Map.provider self))%Z ->
  (0 < tile_height (Map.provider self))%Z ->
  Coordinate.column ca == Coordinate.column cb
  \/ Coordinate.row ca == Coordinate.row cb ->
  calculateMapExtent (Map.provider self) (fst (Map._size self))
    (snd (Map._size self)) [Point.new x1 y1; Point.new x2 y2]
  = Raise (ValueError "math domain error") /\
  exists self',
    Map.extent_setter self (x1, y1, x2, y2)
    = Map.Failed (ValueError "math domain error") self'.
Proof.
  intros HA HB Hw Hh Htw Hth Hdeg.
  pose proof (calculateMapExtent_degenerate _ _ _ _ _ _ _ HA HB Hw Hh Htw Hth
                Hdeg) as Hraise.
  split; [ exact Hraise | ].
  unfold Map.extent_setter, Map._on_change_extent.
  destruct self as [provider coordinate offset ext center zm [w h]].
  cbn [Map.set__extent Map._size Map._extent Map.provider fst snd] in *.
  rewrite Hraise. eexists. reflexivity.
Qed.

Lemma degenerate_extent_raises_math_domain_error_witness :
  exists self',
    Map.extent_setter (H := floor_math) example_map (0, 0, 0, 0)
    = Map.Failed (ValueError "math domain error") self'.
Proof.
  apply (degenerate_extent_raises_math_domain_error (H := floor_math)
           example_map 0 0 0 0 (Coordinate.new 0 0 10) (Coordinate.new 0 0 10));
    try reflexivity.
  now left.
Defined.

(** C8, as stated, fails: for the degenerate extent [(0, 0, 0, 0)] the
    exception of [calculateMapExtent] and of the extent setter is a
    [ValueError], not a [DegenerateExtentError]. *)
Lemma degenerate_extent_error_counterexample :
  exists e self',
    calculateMapExtent (H := floor_math) (Map.provider example_map) 128 128
      [Point.new 0 0; Point.new 0 0] = Raise e /\
    Map.extent_setter (H := floor_math) example_map (0, 0, 0, 0)
    = Map.Failed e self' /\
    exc_name e <> "DegenerateExtentError"%string.
Proof.
  eexists. eexists. split; [ reflexivity | split; [ reflexivity | ] ].
  discriminate.
Qed.

(** C4 (as amended): assigning the extent leaves the reported zoom as it was
    before the assignment, whether the setter returns or raises; when
    [calculateMapExtent] returns for the new extent and the current image
    size, the setter returns and the coordinate it selected, with its zoom,
    is the reference coordinate of the view. *)
Theorem extent_setter_keeps_zoom `{PyMath} (self : Map.t) (x1 y1 x2 y2 : Q) :
  Map.zoom (Map.state (Map.extent_setter self (x1, y1, x2, y2)))
  = Map.zoom self /\
  forall coord offset,
    calculateMapExtent (Map.provider self) (fst (Map._size self))
      (snd (Map._size self)) [Point.new x1 y1; Point.new x2 y2]
    = Ok (coord, offset) ->
    exists self',
      Map.extent_setter self (x1, y1, x2, y2) = Map.Done self' /\
      Map.coordinate self' = coord /\ Map.offset self' = offset /\
      Map.extent self' = (x1, y1, x2, y2) /\
      Map.size self' = Map.size self /\
      Map.zoom self' = Map.zoom self.
Proof.
  unfold Map.extent_setter, Map._on_change_extent.
  destruct self as [provider coordinate offset ext center zm [w h]].
  cbn [Map.set__extent Map._size Map._extent Map.provider fst snd].
  split.
  - destruct (calculateMapExtent provider w h _) as [[coord off] | e];
      reflexivity.
  - intros coord off Hrun. rewrite Hrun. eexists.
    split; [ reflexivity | ]. now repeat split.
Qed.

Lemma extent_setter_keeps_zoom_witness :
  exists self',
    Map.extent_setter (H := floor_math) example_map (0, 0, 2, 2)
    = Map.Done self' /\
    Map.coordinate self' = Coordinate.new 0 0 8 /\
    Map.zoom self' = 10.
Proof.
  destruct (proj2 (extent_setter_keeps_zoom (H := floor_math) example_map
                     0 0 2 2) (Coordinate.new 0 0 8) (Point.new (-64) (-64))
              eq_refl)
    as (self' & Hrun & Hcoord & _ & _ & _ & Hzoom).
  exists self'. split; [ exact Hrun | split; [ exact Hcoord | exact Hzoom ] ].
Defined.

(** C4, as stated, fails: [example_map] reports zoom 10; after the extent
    [(0, 0, 2, 2)] is assigned, [calculateMapExtent] has selected zoom 8 and
    the view still reports zoom 10. *)
Lemma extent_setter_zoom_counterexample :
  exists self' coord offset,
    Map.extent_setter (H := floor_math) example_map (0, 0, 2, 2)
    = Map.Done self' /\
    calculateMapExtent (H := floor_math) (Map.provider example_map)
      (fst (Map.size example_map)) (snd (Map.size example_map))
      [Point.new 0 0; Point.new 2 2] = Ok (coord, offset) /\
    Coordinate.zoom coord == 8 /\
    Map.zoom self' == 10 /\
    ~ Map.zoom self' == Coordinate.zoom coord.
Proof.
  eexists. eexists. eexists.
  split; [ reflexivity | split; [ reflexivity | ] ].
  cbn. repeat split; discriminate.
Qed.

(** C6: the size setter returns exactly when [pointLocation], applied in the
    view of the new size (with the coordinate and offset it had), gives a
    location for the bottom-left pixel corner [(0, h)] and for the top-right
    one [(w, 0)]; the two locations are then the new extent, and coordinate,
    offset and zoom are as before. *)
Theorem size_setter_recomputes_extent `{PyMath} `{Coordinate.max_zoom}
    (self self' : Map.t) (w h : Z) :
  Map.size_setter self (w, h) = Map.Done self' <->
  exists p1 p2,
    Map.pointLocation (Map.set__size self (w, h)) (Point.new 0 (inject_Z h))
    = Ok p1 /\
    Map.pointLocation (Map.set__size self (w, h)) (Point.new (inject_Z w) 0)
    = Ok p2 /\
    Map.extent self' = (Point.x p1, Point.y p1, Point.x p2, Point.y p2) /\
    Map.size self' = (w, h) /\
    Map.coordinate self' = Map.coordinate self /\
    Map.offset self' = Map.offset self /\
    Map.zoom self' = Map.zoom self /\
    Map.provider self' = Map.provider self /\
    Map._center self' = Map._center self.
Proof.
  unfold Map.size_setter, Map._on_change_size.
  change (Map._size (Map.set__size self (w, h))) with (w, h).
  set (self1 := Map.set__size self (w, h)).
  split.
  - destruct (Map.pointLocation self1 (Point.new 0 (inject_Z h))) as [p1 | e];
      [ | discriminate ].
    destruct (Map.pointLocation self1 (Point.new (inject_Z w) 0)) as [p2 | e];
      [ | discriminate ].
    intros E. injection E as <-. exists p1, p2. now repeat split.
  - intros (p1 & p2 & -> & -> & Hext & Hsize & Hcoord & Hoff & Hzoom & Hprov
            & Hcenter).
    destruct self'. unfold Map.extent, Map.size, Map.zoom in *. cbn in *.
    subst. reflexivity.
Qed.

Lemma size_setter_recomputes_extent_witness :
  exists self',
    Map.size_setter (H := floor_math) (H0 := 26%Z) example_map (256, 256)%Z
    = Map.Done self' /\
    let '(x1, y1, x2, y2) := Map.extent self' in
    x1 == -(1 # 4) /\ y1 == 3 # 4 /\ x2 == 3 # 4 /\ y2 == -(1 # 4).
Proof.
  eexists. split.
  - apply (proj2 (size_setter_recomputes_extent (H := floor_math)
                    (H0 := 26%Z) example_map _ 256 256)).
    eexists. eexists.
    split; [ vm_compute; reflexivity | ].
    split; [ vm_compute; reflexivity | ].
    instantiate (1 := Map.Build _ _ _ _ _ _ _).
    cbn. repeat split; reflexivity.
  - cbn. repeat split; reflexivity.
Defined.

(** C7 (as amended): when a setter raises, the field that was being set
    holds the new value and every other field of the view is as before. *)
Theorem failed_setter_changes_primary_field_only `{PyMath}
    `{Coordinate.max_zoom} (self self' : Map.t) (e : exc) :
  (forall extent,
      Map.extent_setter self extent = Map.Failed e self' ->
      self' = Map.set__extent self extent) /\
  (forall zoom,
      Map.zoom_setter self zoom = Map.Failed e self' ->
      self' = Map.set__zoom self zoom) /\
  (forall size,
      Map.size_setter self size = Map.Failed e self' ->
      self' = Map.set__size self size).
Proof.
  split; [ | split ].
  - intros extent. unfold Map.extent_setter, Map._on_change_extent.
    destruct (Map._size _) as [w h].
    destruct (Map._extent _) as [[[x1 y1] x2] y2].
    destruct (calculateMapExtent _ _ _ _) as [[coord off] | e'];
      [ discriminate | ].
    intros E. now injection E as _ <-.
  - intros zoom. unfold Map.zoom_setter, Map._on_change_zoom.
    destruct (Map._center _) as [center | ].
    + destruct (locationCoordinate _ _) as [c | e'].
      * destruct (calculateMapCenter _ _). discriminate.
      * intros E. now injection E as _ <-.
    + intros E. now injection E as _ <-.
  - intros size. unfold Map.size_setter, Map._on_change_size.
    destruct (Map._size _) as [w h].
    destruct (Map.pointLocation _ (Point.new 0 _)) as [p1 | e'].
    + destruct (Map.pointLocation _ _) as [p2 | e'']; [ discriminate | ].
      intros E. now injection E as _ <-.
    + intros E. now injection E as _ <-.
Qed.

Lemma failed_setter_changes_primary_field_only_witness :
  Map.state (Map.extent_setter (H := floor_math) example_map (0, 0, 0, 0))
  = Map.set__extent example_map (0, 0, 0, 0).
Proof.
  apply (proj1 (failed_setter_changes_primary_field_only (H := floor_math)
                  (H0 := 26%Z) example_map _
                  (ValueError "math domain error")) (0, 0, 0, 0)).
  reflexivity.
Defined.

(** C7, as stated, fails: assigning the degenerate extent [(0, 0, 0, 0)] to
    [example_map] raises, and the view then holds the new extent in place of
    [(0, 0, 1/2, 1/2)]. *)
Lemma failed_setter_state_counterexample :
  exists e self',
    Map.extent_setter (H := floor_math) example_map (0, 0, 0, 0)
    = Map.Failed e self' /\
    Map.extent example_map = (0, 0, 1 # 2, 1 # 2) /\
    Map.extent self' = (0, 0, 0, 0) /\
    self' <> example_map.
Proof.
  eexists. eexists. split; [ reflexivity | ].
  split; [ reflexivity | split; [ reflexivity | discriminate ] ].
Qed.

(** ** The geographical center *)

Lemma init_center_unset `{PyMath} (extent : Q * Q * Q * Q) (zoom : Q)
    (provider : Provider) (self : Map.t) :
  Map.__init__ extent zoom provider = Ok self -> Map._center self = None.
Proof.
  unfold Map.__init__, Map._on_change_extent_zoom.
  destruct extent as [[[x1 y1] x2] y2].
  destruct (locationCoordinate provider (Point.new x1 y1)); [ | discriminate ].
  cbn [bind].
  destruct (locationCoordinate provider (Point.new x2 y2)); [ | discriminate ].
  cbn [bind]. destruct (calculateMapCenter _ _).
  intros E. now injection E as <-.
Qed.

Lemma setters_keep_center `{PyMath} `{Coordinate.max_zoom} (self : Map.t) :
  (forall extent,
      Map._center (Map.state (Map.extent_setter self extent))
      = Map._center self) /\
  (forall zoom,
      Map._center (Map.state (Map.zoom_setter self zoom)) = Map._center self) /\
  (forall size,
      Map._center (Map.state (Map.size_setter self size)) = Map._center self).
Proof.
  split; [ | split ].
  - intros extent. unfold Map.extent_setter, Map._on_change_extent.
    destruct (Map._size _) as [w h].
    destruct (Map._extent _) as [[[x1 y1] x2] y2].
    destruct (calculateMapExtent _ _ _ _) as [[coord off] | e']; reflexivity.
  - intros zoom. unfold Map.zoom_setter, Map._on_change_zoom.
    destruct (Map._center (Map.set__zoom self zoom)) as [center | ] eqn:E;
      [ | reflexivity ].
    destruct (locationCoordinate _ _) as [c | e']; [ | reflexivity ].
    destruct (calculateMapCenter _ _). reflexivity.
  - intros size. unfold Map.size_setter, Map._on_change_size.
    destruct (Map._size _) as [w h].
    destruct (Map.pointLocation _ (Point.new 0 _)) as [p1 | e'];
      [ | reflexivity ].
    destruct (Map.pointLocation _ _) as [p2 | e'']; reflexivity.
Qed.

Lemma zoom_setter_without_center `{PyMath} (self : Map.t) (zoom : Q) :
  Map._center self = None ->
  Map.zoom_setter self zoom
  = Map.Failed (ProviderError "AttributeError") (Map.set__zoom self zoom).
Proof.
  intros Hc. unfold Map.zoom_setter, Map._on_change_zoom.
  cbn [Map.set__zoom Map._center]. now rewrite Hc.
Qed.

(** C5, on the code: a view that [Map.__init__] has built has no center
    ([_center] is [None]), and no setter gives it one; assigning a zoom
    therefore raises, with the new zoom stored and coordinate and offset
    left as they were; the center that the setter means to project to the
    new zoom is never there. *)
Theorem zoom_setter_after_init_has_no_center `{PyMath} `{Coordinate.max_zoom}
    (extent : Q * Q * Q * Q) (zoom : Q) (provider : Provider) (self : Map.t) :
  Map.__init__ extent zoom provider = Ok self ->
  Map._center self = None /\
  (forall extent',
      Map._center (Map.state (Map.extent_setter self extent')) = None) /\
  (forall size',
      Map._center (Map.state (Map.size_setter self size')) = None) /\
  (forall zoom',
      Map.zoom_setter self zoom'
      = Map.Failed (ProviderError "AttributeError")
                   (Map.set__zoom self zoom')).
Proof.
  intros Hinit. pose proof (init_center_unset _ _ _ _ Hinit) as Hcenter.
  destruct (setters_keep_center self) as (Hextent & _ & Hsize).
  split; [ exact Hcenter | split; [ | split ] ].
  - intros extent'. now rewrite Hextent.
  - intros size'. now rewrite Hsize.
  - intros zoom'. now apply zoom_setter_without_center.
Qed.

Lemma zoom_setter_after_init_has_no_center_witness :
  exists self',
    Map.zoom_setter (H := floor_math) example_map 11
    = Map.Failed (ProviderError "AttributeError") self' /\
    Map.zoom self' = 11 /\
    Map.coordinate self' = Map.coordinate example_map /\
    Map.offset self' = Map.offset example_map.
Proof.
  destruct (zoom_setter_after_init_has_no_center (H := floor_math)
              (H0 := 26%Z) _ _ _ _ example_map_constructed)
    as (_ & _ & _ & Hzoom).
  exists (Map.set__zoom example_map 11).
  split; [ apply Hzoom | now repeat split ].
Defined.

(** ** The concrete scenario *)

(** C9: for the identity-like provider at zoom 10 with tiles of 256 x 256
    pixels, the view constructed for the extent [(0, 0, 1, 1)] at zoom 10
    has the size [(256, 256)], and its offset is the container-tile
    correction of [calculateMapCenter] for the center coordinate
    [(row = 1/2, column = 1/2)] at zoom 10, which is
    [round((floor(1/2) - 1/2) * 256) = -128] on each axis. *)
Theorem init_identity_scenario `{PyMath} :
  exists self,
    Map.__init__ (0, 0, 1, 1) 10 (identity_provider 10 256 256) = Ok self /\
    Map.size self = (256, 256)%Z /\
    Map.offset self
    = snd (calculateMapCenter (identity_provider 10 256 256)
             (Coordinate.new (1 # 2) (1 # 2) 10)) /\
    Map.offset self
    = Point.new (inject_Z (py_round ((inject_Z (Qfloor (1 # 2)) - (1 # 2)) * 256)))
                (inject_Z (py_round ((inject_Z (Qfloor (1 # 2)) - (1 # 2)) * 256))) /\
    Map.offset self = Point.new (-128) (-128).
Proof.
  assert (P0 : pow2 (10 - inject_Z 10) == 1).
  { change (10 - inject_Z 10) with (inject_Z 0). now rewrite pow2_Z. }
  assert (Ea : 0 * pow2 (10 - inject_Z 10) == 0) by (rewrite P0; reflexivity).
  assert (Eb : 1 * pow2 (10 - inject_Z 10) == 1) by (rewrite P0; reflexivity).
  assert (Ec : (0 * pow2 (10 - inject_Z 10) + 1 * pow2 (10 - inject_Z 10)) / 2 == 1 # 2)
    by (rewrite Ea, Eb; reflexivity).
  eexists. split; [ reflexivity | ].
  unfold Map.size, Map.offset, calculateMapCenter, Coordinate.container,
    Coordinate.zoomTo.
  cbn [Map._size Map.offset snd identity_provider tile_width tile_height
         Coordinate.row Coordinate.column Coordinate.zoom Point.x Point.y].
  assert (Esize : py_int (Qabs (0 * pow2 (10 - inject_Z 10) - 1 * pow2 (10 - inject_Z 10))
                          * inject_Z 256) = 256%Z).
  { rewrite (py_int_proper _ (inject_Z 256)); [ apply py_int_Z | ].
    rewrite Ea, Eb. reflexivity. }
  assert (Eoff : py_round
                   ((inject_Z (Qfloor ((0 * pow2 (10 - inject_Z 10) + 1 * pow2 (10 - inject_Z 10)) / 2))
                     - (0 * pow2 (10 - inject_Z 10) + 1 * pow2 (10 - inject_Z 10)) / 2)
                    * inject_Z 256)
                 = py_round ((inject_Z (Qfloor (1 # 2)) - (1 # 2)) * inject_Z 256)).
  { apply py_round_proper. rewrite (Qfloor_comp _ _ Ec). now rewrite Ec. }
  rewrite Esize, Eoff. repeat split; reflexivity.
Qed.

(** ** The round trip between locations and pixels *)

Lemma round_rescale_near (v P P' : Q) :
  0 < P' -> P * P' == 1 ->
  Qabs (inject_Z (py_round (v * P)) * P' - v) <= P' / 2.
Proof.
  intros HP' Hone.
  setoid_replace (inject_Z (py_round (v * P)) * P' - v)
    with ((inject_Z (py_round (v * P)) - v * P) * P').
  - rewrite Qabs_Qmult, (Qabs_pos P') by lra.
    assert (Hnear : Qabs (inject_Z (py_round (v * P)) - v * P) <= 1 # 2).
    { apply Qabs_case; intros _; pose proof (py_round_near (v * P)); lra. }
    setoid_replace (P' / 2) with ((1 # 2) * P')
      by (unfold Qdiv; change (/ 2) with (1 # 2); apply Qmult_comm).
    apply Qmult_le_compat_r; [ exact Hnear | lra ].
  - setoid_replace ((inject_Z (py_round (v * P)) - v * P) * P')
      with (inject_Z (py_round (v * P)) * P' - v * (P * P')) by ring.
    rewrite Hone. ring.
Qed.

Lemma pixel_delta_back (r o t q half P : Q) :
  ~ t == 0 ->
  r * P + (o + t * (q - r) + half - half - o) / t * P == q * P.
Proof.
  intros Ht. field. exact Ht.
Qed.

(** The coordinate that the round trip hands back to the provider is the
    projected one to the precision of [MAX_ZOOM]. *)
Lemma pointLocation_locationPoint_coordinate `{PyMath} `{Coordinate.max_zoom}
    (self : Map.t) (location : Point.t) (c : Coordinate.t) (z : Z) :
  Coordinate.zoom (Map.coordinate self) == inject_Z z ->
  (0 < tile_width (Map.provider self))%Z ->
  (0 < tile_height (Map.provider self))%Z ->
  locationCoordinate (Map.provider self) location = Ok c ->
  exists point c',
    Map.locationPoint self location = Ok point /\
    Map.pointLocation self point = coordinateLocation (Map.provider self) c' /\
    coordinate_near
      (Coordinate.zoomTo c (Coordinate.zoom (Map.coordinate self))) c'.
Proof.
  intros Hz Htw Hth Hc.
  destruct self as [provider ref offset ext center zm [w h]].
  cbn [Map.provider Map.coordinate] in *.
  unfold Map.locationPoint, Map.pointLocation.
  cbn [Map.provider Map.coordinate Map.offset Map._size].
  rewrite Hc. cbn [bind].
  match goal with
  | |- exists point c', Ok ?p = Ok point /\ _ => exists p
  end.
  cbn [Point.x Point.y].
  assert (Htw' : ~ inject_Z (tile_width provider) == 0)
    by now apply inject_Z_nonzero.
  assert (Hth' : ~ inject_Z (tile_height provider) == 0)
    by now apply inject_Z_nonzero.
  rewrite !py_div_ok by assumption. cbn [bind].
  set (zv := Coordinate.zoom ref) in *.
  set (P := pow2 (inject_Z Coordinate.MAX_ZOOM - zv)).
  set (P' := pow2 (zv - inject_Z Coordinate.MAX_ZOOM)).
  assert (EP : P == 2 ^ (Coordinate.MAX_ZOOM - z))
    by (apply pow2_diff; [ reflexivity | exact Hz ]).
  assert (EP' : P' == 2 ^ (z - Coordinate.MAX_ZOOM))
    by (apply pow2_diff; [ exact Hz | reflexivity ]).
  assert (HP' : 0 < P') by (rewrite EP'; apply two_power_pos).
  assert (Hone : P * P' == 1).
  { rewrite EP, EP', <- Qpower_plus by lra.
    replace (Coordinate.MAX_ZOOM - z + (z - Coordinate.MAX_ZOOM))%Z with 0%Z
      by lia.
    reflexivity. }
  eexists. split; [ reflexivity | split; [ reflexivity | ] ].
  unfold coordinate_near, Coordinate.zoomTo.
  cbn [Coordinate.row Coordinate.column Coordinate.zoom].
  fold P'. split; [ reflexivity | split ].
  - match goal with
    | |- Qabs (inject_Z (py_round ?a) * _ - _) <= _ =>
        rewrite (py_round_proper a
                   (Coordinate.row c * pow2 (zv - Coordinate.zoom c) * P))
    end.
    + now apply round_rescale_near.
    + apply pixel_delta_back. assumption.
  - match goal with
    | |- Qabs (inject_Z (py_round ?a) * _ - _) <= _ =>
        rewrite (py_round_proper a
                   (Coordinate.column c * pow2 (zv - Coordinate.zoom c) * P))
    end.
    + now apply round_rescale_near.
    + apply pixel_delta_back. assumption.
Qed.

(** C2: in a view whose reference coordinate has an integer zoom, over a
    provider with positive tile sizes whose projections are mutually inverse
    to the precision [near], a location of the provider's domain is taken by
    [locationPoint] to a pixel that [pointLocation] takes back to a location
    [near] the first: the coordinate recovered differs from the projected one
    by the rounding at [MAX_ZOOM] only. *)
Theorem pointLocation_locationPoint_round_trip `{PyMath} `{Coordinate.max_zoom}
    (self : Map.t) (near : Point.t -> Point.t -> Prop) (location : Point.t)
    (c : Coordinate.t) (z : Z) :
  Coordinate.zoom (Map.coordinate self) == inject_Z z ->
  (0 < tile_width (Map.provider self))%Z ->
  (0 < tile_height (Map.provider self))%Z ->
  locationCoordinate (Map.provider self) location = Ok c ->
  inverse_to_precision (Map.provider self) near
    (Coordinate.zoom (Map.coordinate self)) ->
  exists point location',
    Map.locationPoint self location = Ok point /\
    Map.pointLocation self point = Ok location' /\
    near location location'.
Proof.
  intros Hz Htw Hth Hc Hinv.
  destruct (pointLocation_locationPoint_coordinate self location c z
              Hz Htw Hth Hc) as (point & c' & Hpoint & Hback & Hnear).
  destruct (Hinv location c c' Hc Hnear) as (location' & Hloc & Hprec).
  exists point, location'. rewrite Hback. now repeat split.
Qed.

Lemma pointLocation_locationPoint_round_trip_witness :
  exists point location',
    Map.locationPoint (H := floor_math) example_map (Point.new (1 # 4) (1 # 4))
    = Ok point /\
    Map.pointLocation (H := floor_math) (H0 := 26%Z) example_map point
    = Ok location' /\
    Qabs (Point.x location' - (1 # 4)) <= 1 # 131072 /\
    Qabs (Point.y location' - (1 # 4)) <= 1 # 131072.
Proof.
  apply (pointLocation_locationPoint_round_trip (H := floor_math) (H0 := 26%Z)
           example_map
           (fun l l' => Qabs (Point.x l' - Point.x l) <= 1 # 131072 /\
                        Qabs (Point.y l' - Point.y l) <= 1 # 131072)
           (Point.new (1 # 4) (1 # 4)) (Coordinate.new (1 # 4) (1 # 4) 10) 10);
    try reflexivity.
  intros location c c' Hc (_ & Hrow & Hcol).
  injection Hc as <-.
  exists (Point.new (Coordinate.column c') (Coordinate.row c')).
  split; [ reflexivity | ].
  cbn [Point.x Point.y Coordinate.zoomTo Coordinate.row Coordinate.column
         Coordinate.zoom Map.coordinate example_map] in *.
  assert (E1 : @pow2 floor_math (10 - inject_Z 10) == 1) by reflexivity.
  assert (E2 : @pow2 floor_math (10 - inject_Z (@Coordinate.MAX_ZOOM 26%Z)) / 2
               == 1 # 131072) by reflexivity.
  rewrite E1, E2, Qmult_1_r in Hrow, Hcol.
  split; assumption.
Defined.

(** * Further properties of the code *)

(** ** [calculateMapCenter] *)

Lemma Qfloor_bounds (q : Q) : inject_Z (Qfloor q) <= q < inject_Z (Qfloor q) + 1.
Proof.
  split; [ apply Qfloor_le | ].
  pose proof (Qlt_floor q) as H. now rewrite inject_Z_plus in H.
Qed.

Lemma py_round_tile_offset (v : Q) (t : Z) :
  - inject_Z t < v <= 0 -> (- t <= py_round v <= 0)%Z.
Proof.
  intros [Hlo Hhi]. pose proof (py_round_near v) as [Hr1 Hr2].
  split.
  - assert (H : inject_Z (- t - 1) < inject_Z (py_round v)).
    { unfold Z.sub. rewrite inject_Z_plus, !inject_Z_opp.
      change (inject_Z 1) with 1. lra. }
    rewrite <- Zlt_Qlt in H. lia.
  - assert (H : inject_Z (py_round v) < inject_Z 1).
    { change (inject_Z 1) with 1. lra. }
    rewrite <- Zlt_Qlt in H. lia.
Qed.

(** X1: [calculateMapCenter] returns the tile that contains the center
    coordinate, at the zoom of the center, and an offset that is the pixel
    position of that tile's corner relative to the center rounded to a
    pixel; with positive tile sizes the offset lies between minus one tile
    and zero on both axes. *)
Theorem calculateMapCenter_containing_tile (provider : Provider)
    (centerCoord : Coordinate.t) :
  (0 < tile_width provider)%Z -> (0 < tile_height provider)%Z ->
  let tile := fst (calculateMapCenter provider centerCoord) in
  let offset := snd (calculateMapCenter provider centerCoord) in
  Coordinate.zoom tile = Coordinate.zoom centerCoord /\
  Coordinate.row tile <= Coordinate.row centerCoord < Coordinate.row tile + 1 /\
  Coordinate.column tile <= Coordinate.column centerCoord
    < Coordinate.column tile + 1 /\
  (exists r k : Z,
      Coordinate.row tile = inject_Z r /\ Coordinate.column tile = inject_Z k) /\
  (exists ox oy : Z,
      offset = Point.new (inject_Z ox) (inject_Z oy) /\
      (- tile_width provider <= ox <= 0)%Z /\
      (- tile_height provider <= oy <= 0)%Z /\
      Qabs (inject_Z ox
            - (Coordinate.column tile - Coordinate.column centerCoord)
              * inject_Z (tile_width provider)) <= 1 # 2 /\
      Qabs (inject_Z oy
            - (Coordinate.row tile - Coordinate.row centerCoord)
              * inject_Z (tile_height provider)) <= 1 # 2).
Proof.
  intros Htw Hth.
  assert (Htw' : 0 < inject_Z (tile_width provider))
    by now rewrite (Zlt_Qlt 0 (tile_width provider)) in Htw.
  assert (Hth' : 0 < inject_Z (tile_height provider))
    by now rewrite (Zlt_Qlt 0 (tile_height provider)) in Hth.
  unfold calculateMapCenter, Coordinate.container.
  cbn [fst snd Coordinate.row Coordinate.column Coordinate.zoom].
  pose proof (Qfloor_bounds (Coordinate.row centerCoord)) as Hrow.
  pose proof (Qfloor_bounds (Coordinate.column centerCoord)) as Hcol.
  split; [ reflexivity | ]. split; [ exact Hrow | ]. split; [ exact Hcol | ].
  split; [ now eexists _, _ | ].
  eexists _, _. split; [ reflexivity | ].
  assert (Hnear : forall v, Qabs (inject_Z (py_round v) - v) <= 1 # 2).
  { intros v. pose proof (py_round_near v).
    apply Qabs_case; intros _; lra. }
  assert (Hin : forall f q t : Q, f <= q < f + 1 -> 0 < t ->
                  - t < (f - q) * t <= 0).
  { intros f q t [H1 H2] Ht. split.
    - setoid_replace (- t) with ((- (1)) * t) by ring.
      apply Qmult_lt_compat_r; [ exact Ht | lra ].
    - setoid_replace 0 with (0 * t) by ring.
      apply Qmult_le_compat_r; lra. }
  split; [ apply py_round_tile_offset; now apply Hin | ].
  split; [ apply py_round_tile_offset; now apply Hin | ].
  split; apply Hnear.
Qed.

Lemma calculateMapCenter_containing_tile_witness :
  exists ox oy : Z,
    snd (calculateMapCenter (identity_provider 10 256 256)
           (Coordinate.new (3 # 4) (1 # 4) 10))
    = Point.new (inject_Z ox) (inject_Z oy) /\
    (- 256 <= ox <= 0)%Z /\ (- 256 <= oy <= 0)%Z.
Proof.
  destruct (calculateMapCenter_containing_tile (identity_provider 10 256 256)
              (Coordinate.new (3 # 4) (1 # 4) 10))
    as (_ & _ & _ & _ & ox & oy & Hoff & Hox & Hoy & _); try reflexivity.
  exists ox, oy. split; [ exact Hoff | split; assumption ].
Defined.

(** ** Errors of [calculateMapExtent] *)

Lemma py_min_nonempty (l : list Q) : l <> [] -> exists m, py_min l = Ok m.
Proof.
  destruct l as [ | a l ]; [ congruence | ]. intros _. now eexists.
Qed.

Lemma py_max_nonempty (l : list Q) : l <> [] -> exists m, py_max l = Ok m.
Proof.
  destruct l as [ | a l ]; [ congruence | ]. intros _. now eexists.
Qed.

Lemma py_div_by_zero (a b : Q) :
  b == 0 -> py_div a b = Raise (ZeroDivisionError "float division by zero").
Proof.
  intros Hb. unfold py_div.
  destruct (Qeq_bool b 0) eqn:E; [ reflexivity | ].
  apply Qeq_bool_iff in Hb. congruence.
Qed.

Lemma py_max_ge_min (l : list Q) (lo hi : Q) :
  py_min l = Ok lo -> py_max l = Ok hi -> lo <= hi.
Proof.
  destruct l as [ | a l ]; [ discriminate | ].
  intros Elo Ehi. injection Elo as <-. injection Ehi as <-.
  destruct (fold_min_is_min l a) as [Hmin _].
  destruct (fold_max_is_max l a) as [Hmax _].
  apply Qle_trans with a; [ apply Hmin | apply Hmax ]; now left.
Qed.

Lemma Qdiv_neg_pos (a b : Q) : a < 0 -> 0 < b -> a / b < 0.
Proof.
  intros Ha Hb. apply Qlt_shift_div_r; [ exact Hb | ]. now rewrite Qmult_0_l.
Qed.

Lemma Qdiv_nonneg_neg (a b : Q) : 0 <= a -> b < 0 -> a / b <= 0.
Proof.
  intros Ha Hb.
  setoid_replace (a / b) with (- (a / - b)) by (field; lra).
  assert (0 <= a / - b); [ | lra ].
  apply Qle_shift_div_l; [ lra | ]. now rewrite Qmult_0_l.
Qed.

Lemma Qdiv_pos_neg (a b : Q) : 0 < a -> b < 0 -> a / b < 0.
Proof.
  intros Ha Hb.
  setoid_replace (a / b) with (- (a / - b)) by (field; lra).
  assert (0 < a / - b); [ | lra ].
  apply Qlt_shift_div_l; [ lra | ]. now rewrite Qmult_0_l.
Qed.

(** X2: for a non-empty sequence of locations that the provider projects,
    [calculateMapExtent] raises [ZeroDivisionError] when the image width or
    the tile width is zero, and the [ValueError] of [math.log] when one of
    the two is negative and the other positive. *)
Theorem calculateMapExtent_bad_width `{PyMath} (provider : Provider)
    (width height : Z) (args : list Point.t) (cs : list Coordinate.t) :
  map_result (locationCoordinate provider) args = Ok cs ->
  args <> [] ->
  (width = 0%Z \/ tile_width provider = 0%Z ->
   calculateMapExtent provider width height args
   = Raise (ZeroDivisionError "float division by zero")) /\
  ((width * tile_width provider < 0)%Z ->
   calculateMapExtent provider width height args
   = Raise (ValueError "math domain error")).
Proof.
  intros Hcs Hargs.
  assert (Hne : cs <> []).
  { intros ->. apply map_result_nil in Hcs. contradiction. }
  assert (Hmap : forall f : Coordinate.t -> Q, map f cs <> []).
  { intros f E. apply map_eq_nil in E. contradiction. }
  destruct (py_min_nonempty _ (Hmap Coordinate.row)) as (tr & Etr).
  destruct (py_min_nonempty _ (Hmap Coordinate.column)) as (tc & Etc).
  destruct (py_min_nonempty _ (Hmap Coordinate.zoom)) as (tz & Etz).
  destruct (py_max_nonempty _ (Hmap Coordinate.row)) as (br & Ebr).
  destruct (py_max_nonempty _ (Hmap Coordinate.column)) as (bc & Ebc).
  destruct (py_max_nonempty _ (Hmap Coordinate.zoom)) as (bz & Ebz).
  pose proof (py_max_ge_min _ _ _ Etc Ebc) as Hspan.
  unfold calculateMapExtent. rewrite Hcs. cbn [bind].
  rewrite Etr, Etc, Etz, Ebr, Ebc, Ebz.
  cbn [bind Coordinate.row Coordinate.column Coordinate.zoom].
  split.
  - intros [-> | Htw].
    + destruct (Z.eq_dec (tile_width provider) 0) as [E | E].
      * rewrite E. now rewrite py_div_by_zero by reflexivity.
      * rewrite py_div_ok
          by (intros E0; apply E; now apply inject_Z_eq_0).
        cbn [bind]. rewrite py_div_by_zero; [ reflexivity | ].
        unfold Qdiv. apply Qmult_0_l.
    + rewrite Htw. now rewrite py_div_by_zero by reflexivity.
  - intros Hneg.
    assert (Hq : inject_Z width / inject_Z (tile_width provider) < 0).
    { assert (Hcases : (width < 0 /\ 0 < tile_width provider)%Z
                       \/ (0 < width /\ tile_width provider < 0)%Z).
      { destruct (Z_lt_le_dec width 0) as [Hw | Hw];
          destruct (Z_lt_le_dec 0 (tile_width provider)) as [Ht | Ht].
        - now left.
        - pose proof (Z.mul_nonpos_nonpos width (tile_width provider)). lia.
        - pose proof (Z.mul_nonneg_nonneg width (tile_width provider)). lia.
        - right. destruct (Z.eq_dec width 0) as [-> | Hw0]; [ lia | ].
          destruct (Z.eq_dec (tile_width provider) 0) as [Ht0 | Ht0];
            [ rewrite Ht0 in Hneg; lia | lia ]. }
      destruct Hcases as [[Hw Ht] | [Hw Ht]];
        rewrite Zlt_Qlt in Hw, Ht; change (inject_Z 0) with 0 in Hw, Ht.
      - now apply Qdiv_neg_pos.
      - now apply Qdiv_pos_neg. }
    rewrite py_div_ok
      by (intros E0; apply inject_Z_eq_0 in E0; rewrite E0 in Hneg; lia).
    cbn [bind]. rewrite py_div_ok by lra. cbn [bind].
    rewrite ceil_log2_domain; [ reflexivity | ].
    apply Qdiv_nonneg_neg; [ lra | exact Hq ].
Qed.

Lemma calculateMapExtent_bad_width_witness :
  calculateMapExtent (H := floor_math) (identity_provider 10 256 256) 0 128
    [Point.new 0 0; Point.new 1 1]
  = Raise (ZeroDivisionError "float division by zero") /\
  calculateMapExtent (H := floor_math) (identity_provider 10 256 256) (-128) 128
    [Point.new 0 0; Point.new 1 1]
  = Raise (ValueError "math domain error").
Proof.
  split.
  - apply (proj1 (calculateMapExtent_bad_width (H := floor_math)
                    (identity_provider 10 256 256) 0 128
                    [Point.new 0 0; Point.new 1 1] _ eq_refl
                    ltac:(discriminate))).
    now left.
  - apply (proj2 (calculateMapExtent_bad_width (H := floor_math)
                    (identity_provider 10 256 256) (-128) 128
                    [Point.new 0 0; Point.new 1 1] _ eq_refl
                    ltac:(discriminate))).
    reflexivity.
Defined.

(** X3: [calculateMapExtent] projects the locations in the order given and
    raises what the provider raises on the first location it rejects,
    whatever the image size and the other locations are. *)
Theorem calculateMapExtent_provider_error `{PyMath} (provider : Provider)
    (width height : Z) (before after : list Point.t) (location : Point.t)
    (cs : list Coordinate.t) (e : exc) :
  map_result (locationCoordinate provider) before = Ok cs ->
  locationCoordinate provider location = Raise e ->
  calculateMapExtent provider width height (before ++ location :: after)
  = Raise e.
Proof.
  intros Hcs He. unfold calculateMapExtent.
  assert (E : map_result (locationCoordinate provider)
                (before ++ location :: after) = Raise e).
  { revert cs Hcs. induction before as [ | a before IH ]; intros cs Hcs.
    - cbn [app map_result]. now rewrite He.
    - cbn [app map_result] in *.
      destruct (locationCoordinate provider a); [ | discriminate ].
      cbn [bind] in *.
      destruct (map_result (locationCoordinate provider) before) as [cs' | e'];
        [ | discriminate ].
      now rewrite (IH cs' eq_refl). }
  now rewrite E.
Qed.

Lemma calculateMapExtent_provider_error_witness :
  calculateMapExtent (H := floor_math) (bounded_provider 10 256 256) 128 128
    ([Point.new 0 0] ++ Point.new 0 90 :: [Point.new 1 1])
  = Raise (ProviderError "ProjectionError").
Proof.
  apply (calculateMapExtent_provider_error (H := floor_math)
           (bounded_provider 10 256 256) 128 128 [Point.new 0 0]
           [Point.new 1 1] (Point.new 0 90) _ _ eq_refl eq_refl).
Defined.

(** ** Construction of a [Map] *)

(** X4: the constructor does not depend on the order of the two corners of
    the extent: with the corners swapped it returns a view of the same size,
    reference coordinate and offset, or raises as well. *)
Theorem init_corner_order `{PyMath} (provider : Provider) (x1 y1 x2 y2 zoom : Q)
    (self : Map.t) :
  Map.__init__ (x1, y1, x2, y2) zoom provider = Ok self ->
  exists self',
    Map.__init__ (x2, y2, x1, y1) zoom provider = Ok self' /\
    Map.size self' = Map.size self /\
    Map.coordinate self' = Map.coordinate self /\
    Map.offset self' = Map.offset self /\
    Map.zoom self' = Map.zoom self.
Proof.
  unfold Map.__init__, Map._on_change_extent_zoom.
  destruct (locationCoordinate provider (Point.new x1 y1)) as [ca | e];
    [ | discriminate ].
  destruct (locationCoordinate provider (Point.new x2 y2)) as [cb | e];
    [ | discriminate ].
  cbn [bind]. unfold calculateMapCenter, Coordinate.container.
  cbn [Coordinate.row Coordinate.column Coordinate.zoom].
  intros E. injection E as <-. eexists. split; [ reflexivity | ].
  unfold Map.size, Map.zoom.
  cbn [Map._size Map.coordinate Map.offset Map._zoom].
  set (a := Coordinate.zoomTo ca zoom). set (b := Coordinate.zoomTo cb zoom).
  assert (Eabs : forall u v : Q, Qabs (v - u) == Qabs (u - v)).
  { intros u v. setoid_replace (v - u) with (- (u - v)) by ring.
    apply Qabs_opp. }
  assert (Emid : forall u v : Q, (v + u) / 2 == (u + v) / 2).
  { intros u v. now rewrite (Qplus_comm v u). }
  rewrite (Qfloor_comp _ _ (Emid (Coordinate.row a) (Coordinate.row b))).
  rewrite (Qfloor_comp _ _ (Emid (Coordinate.column a) (Coordinate.column b))).
  split; [ | split; [ reflexivity | split; [ | reflexivity ] ] ].
  - f_equal; apply py_int_proper; now rewrite Eabs.
  - f_equal; apply f_equal; apply py_round_proper.
    + now rewrite (Emid (Coordinate.column a) (Coordinate.column b)).
    + now rewrite (Emid (Coordinate.row a) (Coordinate.row b)).
Qed.

Lemma init_corner_order_witness :
  exists self',
    Map.__init__ (H := floor_math) (1 # 2, 1 # 2, 0, 0) 10
      (identity_provider 10 256 256) = Ok self' /\
    Map.size self' = Map.size example_map /\
    Map.coordinate self' = Map.coordinate example_map /\
    Map.offset self' = Map.offset example_map.
Proof.
  destruct (init_corner_order (H := floor_math) (identity_provider 10 256 256)
              0 0 (1 # 2) (1 # 2) 10 example_map example_map_constructed)
    as (self' & Hrun & Hsize & Hcoord & Hoff & _).
  exists self'. now repeat split.
Defined.

Lemma corner_pixels (A B R r w D pa pb : Q) :
  D == Qabs (A - B) -> w <= D < w + 1 ->
  Qabs (r - (R - (A + B) / 2)) <= 1 # 2 ->
  pa == r + (A - R) + w / 2 -> pb == r + (B - R) + w / 2 ->
  - (1) < Qmin pa pb <= 1 # 2 /\ w - (1 # 2) <= Qmax pa pb < w + 1.
Proof.
  intros HD Hw Hr Hpa Hpb.
  unfold Qdiv in Hr, Hpa, Hpb. change (/ 2) with (1 # 2) in Hr, Hpa, Hpb.
  assert (Hr' : - (1 # 2) <= r - (R - (A + B) * (1 # 2)) <= 1 # 2).
  { revert Hr. apply Qabs_case; intros; lra. }
  assert (HD' : (A <= B /\ D == B - A) \/ (B <= A /\ D == A - B)).
  { destruct (Qlt_le_dec A B) as [Hlt | Hle].
    - left. split; [ lra | ]. rewrite HD, Qabs_neg by lra. ring.
    - right. split; [ lra | ]. now rewrite HD, Qabs_pos by lra. }
  clear HD Hr.
  destruct (Q.min_spec pa pb) as [[Hmin Emin] | [Hmin Emin]];
    destruct (Q.max_spec pa pb) as [[Hmax Emax] | [Hmax Emax]];
    rewrite Emin, Emax; clear Emin Emax;
    destruct HD' as [[Hab ED] | [Hab ED]]; lra.
Qed.

(** X5: in a view that the constructor returns, over a provider with
    positive tile sizes, [locationPoint] takes the two corners of the extent
    to the edges of the image to within a pixel: on each axis the smaller of
    the two pixel positions lies in (-1, 1/2] and the larger in
    [size - 1/2, size + 1). *)
Theorem init_corners_at_image_edges `{PyMath} (provider : Provider)
    (x1 y1 x2 y2 zoom : Q) (self : Map.t) :
  (0 < tile_width provider)%Z -> (0 < tile_height provider)%Z ->
  Map.__init__ (x1, y1, x2, y2) zoom provider = Ok self ->
  exists pa pb,
    Map.locationPoint self (Point.new x1 y1) = Ok pa /\
    Map.locationPoint self (Point.new x2 y2) = Ok pb /\
    - (1) < Qmin (Point.x pa) (Point.x pb) <= 1 # 2 /\
    inject_Z (fst (Map.size self)) - (1 # 2)
    <= Qmax (Point.x pa) (Point.x pb) < inject_Z (fst (Map.size self)) + 1 /\
    - (1) < Qmin (Point.y pa) (Point.y pb) <= 1 # 2 /\
    inject_Z (snd (Map.size self)) - (1 # 2)
    <= Qmax (Point.y pa) (Point.y pb) < inject_Z (snd (Map.size self)) + 1.
Proof.
  intros Htw Hth.
  assert (Htw' : 0 < inject_Z (tile_width provider))
    by now rewrite (Zlt_Qlt 0 (tile_width provider)) in Htw.
  assert (Hth' : 0 < inject_Z (tile_height provider))
    by now rewrite (Zlt_Qlt 0 (tile_height provider)) in Hth.
  unfold Map.__init__, Map._on_change_extent_zoom.
  destruct (locationCoordinate provider (Point.new x1 y1)) as [ca | e] eqn:Ea;
    [ | discriminate ].
  destruct (locationCoordinate provider (Point.new x2 y2)) as [cb | e] eqn:Eb;
    [ | discriminate ].
  cbn [bind]. unfold calculateMapCenter, Coordinate.container.
  cbn [Coordinate.row Coordinate.column Coordinate.zoom].
  intros E. injection E as <-.
  unfold Map.locationPoint, Map.size.
  cbn [Map.provider Map.coordinate Map.offset Map._size Coordinate.zoom
         Coordinate.row Coordinate.column Point.x Point.y fst snd].
  rewrite Ea, Eb. cbn [bind].
  set (a := Coordinate.zoomTo ca zoom). set (b := Coordinate.zoomTo cb zoom).
  eexists _, _. split; [ reflexivity | split; [ reflexivity | ] ].
  cbn [Point.x Point.y].
  assert (Hspan : forall u v t : Q, 0 < t ->
            0 <= Qabs (u - v) * t /\ Qabs (u - v) * t == Qabs (t * u - t * v)).
  { intros u v t Ht. split.
    - apply Qmult_le_0_compat; [ apply Qabs_nonneg | lra ].
    - setoid_replace (t * u - t * v) with ((u - v) * t) by ring.
      now rewrite Qabs_Qmult, (Qabs_pos t) by lra. }
  assert (Hnear : forall v, Qabs (inject_Z (py_round v) - v) <= 1 # 2).
  { intros v. pose proof (py_round_near v).
    apply Qabs_case; intros _; lra. }
  assert (Haxis : forall u v t : Q, 0 < t ->
            let w := inject_Z (py_int (Qabs (u - v) * t)) in
            let r := inject_Z (py_round ((inject_Z (Qfloor ((u + v) / 2))
                                          - (u + v) / 2) * t)) in
            let R := inject_Z (Qfloor ((u + v) / 2)) in
            - (1) < Qmin (r + t * (u - R) + w / 2) (r + t * (v - R) + w / 2)
              <= 1 # 2 /\
            w - (1 # 2)
            <= Qmax (r + t * (u - R) + w / 2) (r + t * (v - R) + w / 2)
            < w + 1).
  { intros u v t Ht w r R.
    destruct (Hspan u v t Ht) as [Hpos HD].
    apply (corner_pixels (t * u) (t * v) (t * R) r w (Qabs (u - v) * t)).
    - exact HD.
    - unfold w. rewrite (py_int_nonneg _ Hpos). apply Qfloor_bounds.
    - unfold r.
      setoid_replace (t * R - (t * u + t * v) / 2)
        with ((R - (u + v) / 2) * t) by field.
      apply Hnear.
    - ring.
    - ring. }
  destruct (Haxis (Coordinate.column a) (Coordinate.column b) _ Htw')
    as [Hxmin Hxmax].
  destruct (Haxis (Coordinate.row a) (Coordinate.row b) _ Hth')
    as [Hymin Hymax].
  split; [ exact Hxmin | ]. split; [ exact Hxmax | ].
  split; [ exact Hymin | exact Hymax ].
Qed.

Lemma init_corners_at_image_edges_witness :
  exists pa pb,
    Map.locationPoint (H := floor_math) example_map (Point.new 0 0) = Ok pa /\
    Map.locationPoint (H := floor_math) example_map (Point.new (1 # 2) (1 # 2))
    = Ok pb /\
    - (1) < Qmin (Point.x pa) (Point.x pb) <= 1 # 2 /\
    128 - (1 # 2) <= Qmax (Point.x pa) (Point.x pb) < 128 + 1.
Proof.
  destruct (init_corners_at_image_edges (H := floor_math)
              (identity_provider 10 256 256) 0 0 (1 # 2) (1 # 2) 10 example_map
              eq_refl eq_refl example_map_constructed)
    as (pa & pb & Ha & Hb & Hmin & Hmax & _).
  exists pa, pb. now repeat split.
Defined.

(** ** Pixels and locations *)

Lemma pixel_round_trip_axis (px half off t ref P P' v col : Q) :
  ~ t == 0 -> P * P' == 1 ->
  v == ref * P + (px - half - off) / t * P ->
  col == inject_Z (py_round v) * P' ->
  off + t * (col - ref) + half - px == t * ((inject_Z (py_round v) - v) * P').
Proof.
  intros Ht Hone Hv Hcol. rewrite Hcol.
  setoid_replace (t * ((inject_Z (py_round v) - v) * P'))
    with (t * (inject_Z (py_round v) * P') - t * (v * P')) by ring.
  assert (E : v * P' == ref + (px - half - off) / t).
  { rewrite Hv.
    setoid_replace ((ref * P + (px - half - off) / t * P) * P')
      with ((ref + (px - half - off) / t) * (P * P')) by ring.
    rewrite Hone. ring. }
  rewrite E. field. exact Ht.
Qed.

(** The pixel that [locationPoint] gives for the location of a pixel is
    that pixel up to the rounding at [MAX_ZOOM]. *)
Lemma pixel_round_trip `{PyMath} `{Coordinate.max_zoom}
    (self : Map.t) (point location : Point.t) (z : Z) :
  Coordinate.zoom (Map.coordinate self) == inject_Z z ->
  (0 < tile_width (Map.provider self))%Z ->
  (0 < tile_height (Map.provider self))%Z ->
  coordinate_round_trip (Map.provider self)
    (Coordinate.zoom (Map.coordinate self)) ->
  Map.pointLocation self point = Ok location ->
  exists point',
    Map.locationPoint self location = Ok point' /\
    Qabs (Point.x point' - Point.x point)
    <= inject_Z (tile_width (Map.provider self))
       * (2 ^ (z - Coordinate.MAX_ZOOM) * (1 # 2)) /\
    Qabs (Point.y point' - Point.y point)
    <= inject_Z (tile_height (Map.provider self))
       * (2 ^ (z - Coordinate.MAX_ZOOM) * (1 # 2)).
Proof.
  intros Hz Htw Hth Hinv.
  destruct self as [provider ref offset ext center zm [w h]].
  cbn [Map.provider Map.coordinate] in *.
  assert (Htw' : 0 < inject_Z (tile_width provider))
    by now rewrite (Zlt_Qlt 0 (tile_width provider)) in Htw.
  assert (Hth' : 0 < inject_Z (tile_height provider))
    by now rewrite (Zlt_Qlt 0 (tile_height provider)) in Hth.
  unfold Map.pointLocation, Map.locationPoint.
  cbn [Map.provider Map.coordinate Map.offset Map._size Point.x Point.y].
  rewrite !py_div_ok by lra. cbn [bind].
  set (zv := Coordinate.zoom ref) in *.
  set (P := pow2 (inject_Z Coordinate.MAX_ZOOM - zv)).
  unfold Coordinate.zoomTo at 1.
  cbn [Coordinate.row Coordinate.column Coordinate.zoom].
  fold P.
  set (P' := pow2 (zv - inject_Z Coordinate.MAX_ZOOM)).
  set (vr := Coordinate.row ref * P
             + (Point.y point - inject_Z h / 2 - Point.y offset)
               / inject_Z (tile_height provider) * P).
  set (vc := Coordinate.column ref * P
             + (Point.x point - inject_Z w / 2 - Point.x offset)
               / inject_Z (tile_width provider) * P).
  intros Hloc.
  match type of Hloc with
  | coordinateLocation _ ?c = _ =>
      destruct (Hinv c location (Qeq_refl _) Hloc) as (c' & Hc' & Hr & Hc & _)
  end.
  cbn [Coordinate.zoomTo Coordinate.row Coordinate.column Coordinate.zoom]
    in Hr, Hc.
  rewrite Hc'. cbn [bind]. eexists. split; [ reflexivity | ].
  cbn [Point.x Point.y Coordinate.zoomTo Coordinate.row Coordinate.column].
  assert (EP : P == 2 ^ (Coordinate.MAX_ZOOM - z))
    by (apply pow2_diff; [ reflexivity | exact Hz ]).
  assert (EP' : P' == 2 ^ (z - Coordinate.MAX_ZOOM))
    by (apply pow2_diff; [ exact Hz | reflexivity ]).
  assert (HP' : 0 < P') by (rewrite EP'; apply two_power_pos).
  assert (Hone : P * P' == 1).
  { rewrite EP, EP', <- Qpower_plus by lra.
    replace (Coordinate.MAX_ZOOM - z + (z - Coordinate.MAX_ZOOM))%Z with 0%Z
      by lia.
    reflexivity. }
  assert (Hnear : forall v t : Q, 0 < t ->
            Qabs (t * ((inject_Z (py_round v) - v) * P'))
            <= t * (P' * (1 # 2))).
  { intros v t Ht. rewrite !Qabs_Qmult, (Qabs_pos t), (Qabs_pos P') by lra.
    assert (Hv : Qabs (inject_Z (py_round v) - v) <= 1 # 2).
    { pose proof (py_round_near v). apply Qabs_case; intros _; lra. }
    rewrite (Qmult_comm P' (1 # 2)).
    apply Qmult_le_l; [ exact Ht | ].
    apply Qmult_le_compat_r; [ exact Hv | lra ]. }
  rewrite <- EP'. split.
  - rewrite (pixel_round_trip_axis (Point.x point) (inject_Z w / 2)
               (Point.x offset) (inject_Z (tile_width provider))
               (Coordinate.column ref) P P' vc).
    + now apply Hnear.
    + lra.
    + exact Hone.
    + reflexivity.
    + rewrite Hc. reflexivity.
  - rewrite (pixel_round_trip_axis (Point.y point) (inject_Z h / 2)
               (Point.y offset) (inject_Z (tile_height provider))
               (Coordinate.row ref) P P' vr).
    + now apply Hnear.
    + lra.
    + exact Hone.
    + reflexivity.
    + rewrite Hr. reflexivity.
Qed.

(** X6: in a view whose reference coordinate has an integer zoom [z], over a
    provider with positive tile sizes whose projections are inverse on
    coordinates, the location that [pointLocation] gives for a pixel is
    taken back by [locationPoint] to that pixel up to the rounding at
    [MAX_ZOOM]: within [tile_size * 2 ^ (z - MAX_ZOOM) / 2] on each axis. *)
Theorem locationPoint_pointLocation_round_trip `{PyMath} `{Coordinate.max_zoom}
    (self : Map.t) (point location : Point.t) (z : Z) :
  Coordinate.zoom (Map.coordinate self) == inject_Z z ->
  (0 < tile_width (Map.provider self))%Z ->
  (0 < tile_height (Map.provider self))%Z ->
  coordinate_round_trip (Map.provider self)
    (Coordinate.zoom (Map.coordinate self)) ->
  Map.pointLocation self point = Ok location ->
  exists point',
    Map.locationPoint self location = Ok point' /\
    Qabs (Point.x point' - Point.x point)
    <= inject_Z (tile_width (Map.provider self))
       * (2 ^ (z - Coordinate.MAX_ZOOM) * (1 # 2)) /\
    Qabs (Point.y point' - Point.y point)
    <= inject_Z (tile_height (Map.provider self))
       * (2 ^ (z - Coordinate.MAX_ZOOM) * (1 # 2)).
Proof.
  apply pixel_round_trip.
Qed.

Lemma locationPoint_pointLocation_round_trip_witness :
  exists location point',
    Map.pointLocation (H := floor_math) (H0 := 26%Z) example_map
      (Point.new 100 20) = Ok location /\
    Map.locationPoint (H := floor_math) example_map location = Ok point' /\
    Qabs (Point.x point' - 100) <= 256 * (2 ^ (10 - 26) * (1 # 2)) /\
    Qabs (Point.y point' - 20) <= 256 * (2 ^ (10 - 26) * (1 # 2)).
Proof.
  assert (E : exists location,
             Map.pointLocation (H := floor_math) (H0 := 26%Z) example_map
               (Point.new 100 20) = Ok location)
    by (eexists; reflexivity).
  destruct E as (location & E).
  destruct (locationPoint_pointLocation_round_trip (H := floor_math)
              (H0 := 26%Z) example_map (Point.new 100 20) location 10)
    as (point' & Hp & Hx & Hy); try reflexivity; try exact E.
  - intros c l Hzc Hl. injection Hl as <-. eexists. split; [ reflexivity | ].
    unfold Coordinate.eqv, Coordinate.zoomTo.
    cbn [Coordinate.row Coordinate.column Coordinate.zoom Point.x Point.y
           example_map Map.coordinate] in *.
    assert (E1 : @pow2 floor_math (10 - inject_Z 10) == 1) by reflexivity.
    rewrite E1, !Qmult_1_r, Hzc. now repeat split.
  - exists location, point'. now repeat split.
Defined.

(** X7: when the tile width or the tile height of the provider is zero,
    [pointLocation] raises [ZeroDivisionError] for every pixel, and so does
    the size setter, which leaves the view with the new size stored and
    everything else as before. *)
Theorem pointLocation_zero_tile_size `{PyMath} `{Coordinate.max_zoom}
    (self : Map.t) :
  tile_width (Map.provider self) = 0%Z \/ tile_height (Map.provider self) = 0%Z ->
  (forall point,
      Map.pointLocation self point
      = Raise (ZeroDivisionError "float division by zero")) /\
  (forall size,
      Map.size_setter self size
      = Map.Failed (ZeroDivisionError "float division by zero")
                   (Map.set__size self size)).
Proof.
  intros Hzero.
  assert (Hpoint : forall (self : Map.t) point,
            tile_width (Map.provider self) = 0%Z
            \/ tile_height (Map.provider self) = 0%Z ->
            Map.pointLocation self point
            = Raise (ZeroDivisionError "float division by zero")).
  { clear self Hzero. intros self point Hzero. unfold Map.pointLocation.
    destruct (Map._size self) as [w h].
    destruct (Z.eq_dec (tile_width (Map.provider self)) 0) as [E | E].
    - rewrite E. now rewrite py_div_by_zero by reflexivity.
    - destruct Hzero as [Hzero | Hzero]; [ contradiction | ].
      rewrite py_div_ok by (intros E0; apply E; now apply inject_Z_eq_0).
      cbn [bind]. rewrite Hzero. now rewrite py_div_by_zero by reflexivity. }
  split; [ intros point; now apply Hpoint | ].
  intros [w h]. unfold Map.size_setter, Map._on_change_size.
  change (Map._size (Map.set__size self (w, h))) with (w, h).
  cbv beta iota zeta. now rewrite Hpoint.
Qed.

Lemma pointLocation_zero_tile_size_witness :
  Map.size_setter (H := floor_math) (H0 := 26%Z)
    (Map.Build (identity_provider 10 0 256) (Coordinate.new 0 0 10)
       (Point.new 0 0) (0, 0, 1, 1) None 10 (0, 256)%Z)
    (512, 512)%Z
  = Map.Failed (ZeroDivisionError "float division by zero")
      (Map.Build (identity_provider 10 0 256) (Coordinate.new 0 0 10)
         (Point.new 0 0) (0, 0, 1, 1) None 10 (512, 512)%Z).
Proof.
  apply (proj2 (pointLocation_zero_tile_size (H := floor_math) (H0 := 26%Z)
                  (Map.Build (identity_provider 10 0 256)
                     (Coordinate.new 0 0 10) (Point.new 0 0) (0, 0, 1, 1)
                     None 10 (0, 256)%Z)
                  (or_introl eq_refl))).
Defined.

(** ** The walk of [render_map] to the first tile *)

Lemma walk_left_steps (provider : Provider) (fuel : nat) :
  (0 < tile_width provider)%Z ->
  forall (corner : Point.t) (coord : Coordinate.t) (X : Z),
    Point.x corner == inject_Z X -> (X <= Z.of_nat fuel)%Z ->
    exists (k : nat) qx coord',
      walk_left fuel provider corner coord
      = Some (Point.new qx (Point.y corner), coord') /\
      qx == inject_Z (X - Z.of_nat k * tile_width provider) /\
      (X - Z.of_nat k * tile_width provider <= 0)%Z /\
      ((0 < X)%Z -> (- tile_width provider
                     < X - Z.of_nat k * tile_width provider)%Z) /\
      ((X <= 0)%Z -> k = 0%nat) /\
      Coordinate.column coord'
      == Coordinate.column coord - inject_Z (Z.of_nat k) /\
      Coordinate.row coord' = Coordinate.row coord /\
      Coordinate.zoom coord' = Coordinate.zoom coord.
Proof.
  intros Htw. induction fuel as [ | fuel IH ]; intros corner coord X HX Hfuel.
  - exists 0%nat, (Point.x corner), coord. cbn [walk_left].
    assert (E : Qle_bool (Point.x corner) 0 = true).
    { apply Qle_bool_iff. rewrite HX. change 0 with (inject_Z 0).
      rewrite <- Zle_Qle. lia. }
    rewrite E. destruct corner. cbn [Point.x Point.y] in *.
    repeat split; try lia.
    + rewrite HX. apply inject_Z_injective. lia.
    + change (inject_Z (Z.of_nat 0)) with 0. ring.
  - cbn [walk_left]. destruct (Qle_bool (Point.x corner) 0) eqn:E.
    + exists 0%nat, (Point.x corner), coord.
      apply Qle_bool_iff in E. rewrite HX in E. change 0 with (inject_Z 0) in E.
      rewrite <- Zle_Qle in E. destruct corner. cbn [Point.x Point.y] in *.
      repeat split; try lia.
      * rewrite HX. apply inject_Z_injective. lia.
      * change (inject_Z (Z.of_nat 0)) with 0. ring.
    + assert (HXpos : (0 < X)%Z).
      { destruct (Z_lt_le_dec 0 X) as [Hp | Hn]; [ exact Hp | ].
        assert (Et : Qle_bool (Point.x corner) 0 = true); [ | congruence ].
        apply Qle_bool_iff. rewrite HX. change 0 with (inject_Z 0).
        now rewrite <- Zle_Qle. }
      destruct (IH (Point.new (Point.x corner - inject_Z (tile_width provider))
                              (Point.y corner))
                   (Coordinate.left coord) (X - tile_width provider)%Z)
        as (k & qx & coord' & Hrun & Hqx & Hle & Hgt & Hzero & Hcol & Hrow
            & Hzoom).
      * cbn [Point.x]. now rewrite HX, inject_Z_minus.
      * lia.
      * exists (S k), qx, coord'. cbn [Point.y] in Hrun.
        split; [ exact Hrun | ].
        replace (X - Z.of_nat (S k) * tile_width provider)%Z
          with (X - tile_width provider - Z.of_nat k * tile_width provider)%Z
          by lia.
        split; [ exact Hqx | ]. split; [ exact Hle | ].
        split; [ | split; [ lia | split; [ | split; assumption ] ] ].
        -- intros _.
           destruct (Z_lt_le_dec 0 (X - tile_width provider)) as [Hp | Hn].
           ++ now apply Hgt.
           ++ rewrite (Hzero Hn). lia.
        -- rewrite Hcol. unfold Coordinate.left. cbn [Coordinate.column].
           rewrite Nat2Z.inj_succ. unfold Z.succ. rewrite inject_Z_plus.
           change (inject_Z 1) with 1. ring.
Qed.

Lemma walk_up_steps (provider : Provider) (fuel : nat) :
  (0 < tile_height provider)%Z ->
  forall (corner : Point.t) (coord : Coordinate.t) (Y : Z),
    Point.y corner == inject_Z Y -> (Y <= Z.of_nat fuel)%Z ->
    exists (k : nat) qy coord',
      walk_up fuel provider corner coord
      = Some (Point.new (Point.x corner) qy, coord') /\
      qy == inject_Z (Y - Z.of_nat k * tile_height provider) /\
      (Y - Z.of_nat k * tile_height provider <= 0)%Z /\
      ((0 < Y)%Z -> (- tile_height provider
                     < Y - Z.of_nat k * tile_height provider)%Z) /\
      ((Y <= 0)%Z -> k = 0%nat) /\
      Coordinate.row coord' == Coordinate.row coord - inject_Z (Z.of_nat k) /\
      Coordinate.column coord' = Coordinate.column coord /\
      Coordinate.zoom coord' = Coordinate.zoom coord.
Proof.
  intros Hth. induction fuel as [ | fuel IH ]; intros corner coord Y HY Hfuel.
  - exists 0%nat, (Point.y corner), coord. cbn [walk_up].
    assert (E : Qle_bool (Point.y corner) 0 = true).
    { apply Qle_bool_iff. rewrite HY. change 0 with (inject_Z 0).
      rewrite <- Zle_Qle. lia. }
    rewrite E. destruct corner. cbn [Point.x Point.y] in *.
    repeat split; try lia.
    + rewrite HY. apply inject_Z_injective. lia.
    + change (inject_Z (Z.of_nat 0)) with 0. ring.
  - cbn [walk_up]. destruct (Qle_bool (Point.y corner) 0) eqn:E.
    + exists 0%nat, (Point.y corner), coord.
      apply Qle_bool_iff in E. rewrite HY in E. change 0 with (inject_Z 0) in E.
      rewrite <- Zle_Qle in E. destruct corner. cbn [Point.x Point.y] in *.
      repeat split; try lia.
      * rewrite HY. apply inject_Z_injective. lia.
      * change (inject_Z (Z.of_nat 0)) with 0. ring.
    + assert (HYpos : (0 < Y)%Z).
      { destruct (Z_lt_le_dec 0 Y) as [Hp | Hn]; [ exact Hp | ].
        assert (Et : Qle_bool (Point.y corner) 0 = true); [ | congruence ].
        apply Qle_bool_iff. rewrite HY. change 0 with (inject_Z 0).
        now rewrite <- Zle_Qle. }
      destruct (IH (Point.new (Point.x corner)
                              (Point.y corner - inject_Z (tile_height provider)))
                   (Coordinate.up coord) (Y - tile_height provider)%Z)
        as (k & qy & coord' & Hrun & Hqy & Hle & Hgt & Hzero & Hrow & Hcol
            & Hzoom).
      * cbn [Point.y]. now rewrite HY, inject_Z_minus.
      * lia.
      * exists (S k), qy, coord'. cbn [Point.x] in Hrun.
        split; [ exact Hrun | ].
        replace (Y - Z.of_nat (S k) * tile_height provider)%Z
          with (Y - tile_height provider - Z.of_nat k * tile_height provider)%Z
          by lia.
        split; [ exact Hqy | ]. split; [ exact Hle | ].
        split; [ | split; [ lia | split; [ | split; assumption ] ] ].
        -- intros _.
           destruct (Z_lt_le_dec 0 (Y - tile_height provider)) as [Hp | Hn].
           ++ now apply Hgt.
           ++ rewrite (Hzero Hn). lia.
        -- rewrite Hrow. unfold Coordinate.up. cbn [Coordinate.row].
           rewrite Nat2Z.inj_succ. unfold Z.succ. rewrite inject_Z_plus.
           change (inject_Z 1) with 1. ring.
Qed.

(** ** The tiles of [render_map], one by one *)

Lemma row_tiles_spec (provider : Provider) (s y : Z) (n a : nat)
    (tileCoord : Coordinate.t) (tile : TileRequest) :
  In tile (row_tiles provider tileCoord
             (map (fun i => (s + Z.of_nat i * tile_width provider)%Z) (seq a n))
             y) ->
  exists i : nat,
    (a <= i < a + n)%nat /\
    request_point tile
    = Point.new (inject_Z (s + Z.of_nat i * tile_width provider)) (inject_Z y) /\
    request_provider tile = provider /\
    Coordinate.column (request_coordinate tile)
    == Coordinate.column tileCoord + inject_Z (Z.of_nat (i - a)) /\
    Coordinate.row (request_coordinate tile) = Coordinate.row tileCoord /\
    Coordinate.zoom (request_coordinate tile) = Coordinate.zoom tileCoord.
Proof.
  revert a tileCoord. induction n as [ | n IH ]; intros a tileCoord;
    [ intros [] | ].
  cbn [seq map row_tiles]. intros [ <- | Hin ].
  - exists a. cbn [request_point request_provider request_coordinate].
    repeat split; try lia.
    rewrite Nat.sub_diag. change (inject_Z (Z.of_nat 0)) with 0. ring.
  - destruct (IH _ _ Hin) as (i & Hi & Hpt & Hprov & Hcol & Hrow & Hzoom).
    exists i. repeat split; try lia; try assumption.
    rewrite Hcol. unfold Coordinate.right. cbn [Coordinate.column].
    replace (Z.of_nat (i - a)) with (1 + Z.of_nat (i - S a))%Z by lia.
    rewrite inject_Z_plus. change (inject_Z 1) with 1. ring.
Qed.

Lemma grid_tiles_spec (provider : Provider) (w s : Z) (corner : Point.t)
    (m b : nat) (rowCoord : Coordinate.t) (tiles : list TileRequest)
    (tile : TileRequest) :
  (0 < tile_width provider)%Z ->
  grid_tiles provider w corner rowCoord
    (map (fun j => (s + Z.of_nat j * tile_height provider)%Z) (seq b m))
  = Ok tiles ->
  In tile tiles ->
  exists i j : nat,
    (i < Z.to_nat ((w - py_int (Point.x corner) + tile_width provider - 1)
                   / tile_width provider))%nat /\
    (b <= j < b + m)%nat /\
    request_point tile
    = Point.new
        (inject_Z (py_int (Point.x corner) + Z.of_nat i * tile_width provider))
        (inject_Z (s + Z.of_nat j * tile_height provider)) /\
    request_provider tile = provider /\
    Coordinate.column (request_coordinate tile)
    == Coordinate.column rowCoord + inject_Z (Z.of_nat i) /\
    Coordinate.row (request_coordinate tile)
    == Coordinate.row rowCoord + inject_Z (Z.of_nat (j - b)) /\
    Coordinate.zoom (request_coordinate tile) = Coordinate.zoom rowCoord.
Proof.
  intros Htw. revert b rowCoord tiles.
  induction m as [ | m IH ]; intros b rowCoord tiles.
  - cbn [seq map grid_tiles]. intros E. injection E as <-. intros [].
  - cbn [seq map grid_tiles]. rewrite (py_range_up _ _ _ Htw). cbn [bind].
    destruct (grid_tiles provider w corner (Coordinate.down rowCoord) _)
      as [rest | e] eqn:Erest; [ | discriminate ].
    cbn [bind]. intros E. injection E as <-. intros Hin.
    apply in_app_or in Hin as [ Hin | Hin ].
    + apply row_tiles_spec in Hin
        as (i & Hi & Hpt & Hprov & Hcol & Hrow & Hzoom).
      exists i, b. repeat split; try lia; try assumption.
      * rewrite Hcol. unfold Coordinate.copy. now rewrite Nat.sub_0_r.
      * rewrite Hrow, Nat.sub_diag. unfold Coordinate.copy.
        change (inject_Z (Z.of_nat 0)) with 0. ring.
    + destruct (IH _ _ _ Erest Hin)
        as (i & j & Hi & Hj & Hpt & Hprov & Hcol & Hrow & Hzoom).
      exists i, j. repeat split; try lia; try assumption.
      rewrite Hrow. unfold Coordinate.down. cbn [Coordinate.row].
      replace (Z.of_nat (j - b)) with (1 + Z.of_nat (j - S b))%Z by lia.
      rewrite inject_Z_plus. change (inject_Z 1) with 1. ring.
Qed.

(** What [render_map] returns for positive tile sizes: the walk makes [kx]
    steps to the left and [ky] steps up, and every tile is the [i]-th of the
    [j]-th row for some [i] and [j]. *)
Lemma render_map_run (map : Map.t) :
  (0 < tile_width (Map.provider map))%Z ->
  (0 < tile_height (Map.provider map))%Z ->
  let tw := tile_width (Map.provider map) in
  let th := tile_height (Map.provider map) in
  let X0 := py_int (Point.x (Map.offset map)
                    + inject_Z (fst (Map._size map)) / 2) in
  let Y0 := py_int (Point.y (Map.offset map)
                    + inject_Z (snd (Map._size map)) / 2) in
  exists (fuel0 : nat) (tiles : list TileRequest) (kx ky : nat),
    (forall fuel, (fuel0 <= fuel)%nat -> render_map fuel map = Some (Ok tiles)) /\
    let x0 := (X0 - Z.of_nat kx * tw)%Z in
    let y0 := (Y0 - Z.of_nat ky * th)%Z in
    (x0 <= 0)%Z /\ ((0 < X0)%Z -> (- tw < x0)%Z) /\ ((X0 <= 0)%Z -> kx = 0%nat) /\
    (y0 <= 0)%Z /\ ((0 < Y0)%Z -> (- th < y0)%Z) /\ ((Y0 <= 0)%Z -> ky = 0%nat) /\
    forall tile, In tile tiles ->
      exists i j : nat,
        (i < Z.to_nat ((fst (Map._size map) - x0 + tw - 1) / tw))%nat /\
        (j < Z.to_nat ((snd (Map._size map) - y0 + th - 1) / th))%nat /\
        request_point tile
        = Point.new (inject_Z (x0 + Z.of_nat i * tw))
                    (inject_Z (y0 + Z.of_nat j * th)) /\
        request_provider tile = Map.provider map /\
        Coordinate.column (request_coordinate tile)
        == Coordinate.column (Map.coordinate map)
           - inject_Z (Z.of_nat kx) + inject_Z (Z.of_nat i) /\
        Coordinate.row (request_coordinate tile)
        == Coordinate.row (Map.coordinate map)
           - inject_Z (Z.of_nat ky) + inject_Z (Z.of_nat j) /\
        Coordinate.zoom (request_coordinate tile)
        = Coordinate.zoom (Map.coordinate map).
Proof.
  intros Htw Hth. destruct map as [provider coordinate offset ext center zm [w h]].
  cbn [Map.provider Map._size Map.offset Map.coordinate fst snd] in *.
  cbv zeta.
  set (tw := tile_width provider).
  set (th := tile_height provider).
  set (X0 := py_int (Point.x offset + inject_Z w / 2)).
  set (Y0 := py_int (Point.y offset + inject_Z h / 2)).
  set (fuel0 := Nat.max (Z.to_nat X0) (Z.to_nat Y0)).
  destruct (walk_left_steps provider fuel0 Htw
              (Point.new (inject_Z X0) (inject_Z Y0))
              (Coordinate.copy coordinate) X0 (Qeq_refl _) ltac:(lia))
    as (kx & qx & coord1 & Hleft & Hqx & Hx0 & Hxgt & Hxzero & Hcol1 & Hrow1
        & Hzoom1).
  cbn [Point.y] in Hleft.
  destruct (walk_up_steps provider fuel0 Hth
              (Point.new qx (inject_Z Y0)) coord1 Y0 (Qeq_refl _) ltac:(lia))
    as (ky & qy & coord2 & Hup & Hqy & Hy0 & Hygt & Hyzero & Hrow2 & Hcol2
        & Hzoom2).
  cbn [Point.x] in Hup.
  destruct (grid_tiles_run provider w (Point.new qx qy)
              (List.map (fun j => (Y0 - Z.of_nat ky * th
                                   + Z.of_nat j * tile_height provider)%Z)
                        (seq 0 (Z.to_nat ((h - (Y0 - Z.of_nat ky * th)
                                           + tile_height provider - 1)
                                          / tile_height provider))))
              (Coordinate.copy coord2) Htw)
    as (tiles & Hgrid & _ & _).
  exists fuel0, tiles, kx, ky.
  split; [ | split; [ exact Hx0 | split; [ exact Hxgt | split; [ exact Hxzero |
           split; [ exact Hy0 | split; [ exact Hygt | split;
           [ exact Hyzero | ] ] ] ] ] ] ].
  - intros fuel Hfuel. unfold render_map.
    cbn [Map.provider Map._size Map.offset Map.coordinate].
    fold X0 Y0.
    rewrite (walk_left_mono _ _ _ _ _ _ Hfuel Hleft).
    rewrite (walk_up_mono _ _ _ _ _ _ Hfuel Hup).
    cbn [Point.y]. rewrite (py_int_proper _ _ Hqy), py_int_Z.
    rewrite (py_range_up _ _ _ Hth). cbn [bind]. now rewrite <- Hgrid.
  - intros tile Hin.
    destruct (grid_tiles_spec _ _ _ _ _ _ _ _ tile Htw Hgrid Hin)
      as (i & j & Hi & Hj & Hpt & Hprov & Hcol & Hrow & Hzoom).
    cbn [Point.x] in Hi, Hpt.
    rewrite (py_int_proper _ _ Hqx), py_int_Z in Hi, Hpt.
    exists i, j. split; [ exact Hi | ]. split; [ unfold th in *; lia | ].
    split; [ exact Hpt | ]. split; [ exact Hprov | ].
    unfold Coordinate.copy in *. split; [ | split ].
    + rewrite Hcol, Hcol2, Hcol1. reflexivity.
    + rewrite Hrow, Hrow2, Hrow1, Nat.sub_0_r. reflexivity.
    + now rewrite Hzoom, Hzoom2, Hzoom1.
Qed.

(** X8: with positive tile sizes, every tile that [render_map] requests is a
    tile of the view's provider at the zoom of the reference coordinate, and
    it is placed where its coordinate says: its destination is the pixel
    position of the reference tile, [int(offset + size / 2)], moved by the
    tile size times the tile's distance in columns and rows from the
    reference coordinate. *)
Theorem render_map_tiles_placed_by_coordinate (map : Map.t) :
  (0 < tile_width (Map.provider map))%Z ->
  (0 < tile_height (Map.provider map))%Z ->
  exists (fuel0 : nat) (tiles : list TileRequest),
    (forall fuel, (fuel0 <= fuel)%nat -> render_map fuel map = Some (Ok tiles)) /\
    forall tile, In tile tiles ->
      request_provider tile = Map.provider map /\
      Coordinate.zoom (request_coordinate tile)
      = Coordinate.zoom (Map.coordinate map) /\
      Point.x (request_point tile)
      == inject_Z (py_int (Point.x (Map.offset map)
                           + inject_Z (fst (Map._size map)) / 2))
         + inject_Z (tile_width (Map.provider map))
           * (Coordinate.column (request_coordinate tile)
              - Coordinate.column (Map.coordinate map)) /\
      Point.y (request_point tile)
      == inject_Z (py_int (Point.y (Map.offset map)
                           + inject_Z (snd (Map._size map)) / 2))
         + inject_Z (tile_height (Map.provider map))
           * (Coordinate.row (request_coordinate tile)
              - Coordinate.row (Map.coordinate map)).
Proof.
  intros Htw Hth.
  destruct (render_map_run map Htw Hth)
    as (fuel0 & tiles & kx & ky & Hrun & _ & _ & _ & _ & _ & _ & Htiles).
  exists fuel0, tiles. split; [ exact Hrun | ].
  intros tile Hin.
  destruct (Htiles tile Hin)
    as (i & j & _ & _ & Hpt & Hprov & Hcol & Hrow & Hzoom).
  split; [ exact Hprov | ]. split; [ exact Hzoom | ].
  rewrite Hpt, Hcol, Hrow. cbn [Point.x Point.y].
  unfold Z.sub. rewrite !inject_Z_plus, !inject_Z_opp, !inject_Z_mult.
  split; ring.
Qed.

Lemma render_map_tiles_placed_by_coordinate_witness :
  exists tiles,
    render_map 0 example_map = Some (Ok tiles) /\
    forall tile, In tile tiles ->
      Point.x (request_point tile)
      == 0 + 256 * (Coordinate.column (request_coordinate tile) - 0).
Proof.
  destruct (render_map_tiles_placed_by_coordinate example_map)
    as (fuel0 & tiles & Hrun & Htiles); try reflexivity.
  exists tiles. split.
  - assert (E : exists r, render_map 0 example_map = Some r)
      by (eexists; reflexivity).
    destruct E as (r & E). rewrite E.
    rewrite <- (Hrun fuel0 (le_n fuel0)).
    symmetry. apply (render_map_mono 0 fuel0 _ _ (Nat.le_0_l fuel0) E).
  - intros tile Hin. destruct (Htiles tile Hin) as (_ & _ & Hx & _).
    exact Hx.
Defined.

Lemma py_int_above (q : Q) (t : Z) :
  (0 < t)%Z -> - inject_Z t + (1 # 2) <= q -> (- t < py_int q)%Z.
Proof.
  intros Ht Hq. destruct (Qlt_le_dec q 0) as [Hneg | Hpos].
  - rewrite py_int_nonpos by lra.
    pose proof (Qle_ceiling q) as Hc.
    assert (H : inject_Z (- t) < inject_Z (Qceiling q)).
    { rewrite inject_Z_opp. lra. }
    now rewrite <- Zlt_Qlt in H.
  - rewrite py_int_nonneg by exact Hpos.
    assert (H : (0 <= Qfloor q)%Z) by now apply Qfloor_le_iff.
    lia.
Qed.

Lemma range_last_below (x0 w t : Z) (i : nat) :
  (0 < t)%Z -> (i < Z.to_nat ((w - x0 + t - 1) / t))%nat ->
  (x0 + Z.of_nat i * t < w)%Z.
Proof.
  intros Ht Hi.
  pose proof (Z.mul_div_le (w - x0 + t - 1) t Ht) as Hdiv.
  assert (Hn : (Z.of_nat i + 1 <= (w - x0 + t - 1) / t)%Z) by lia.
  nia.
Qed.

(** X9: for an image of positive size and an offset that is not more than a
    tile before the center, as [calculateMapCenter] gives it, [render_map]
    requests no tile that lies outside the image: every tile covers a pixel
    of [[0, W) x [0, H)]. *)
Theorem render_map_requests_visible_tiles_only (map : Map.t) :
  (0 < tile_width (Map.provider map))%Z ->
  (0 < tile_height (Map.provider map))%Z ->
  (0 < fst (Map._size map))%Z -> (0 < snd (Map._size map))%Z ->
  - inject_Z (tile_width (Map.provider map)) <= Point.x (Map.offset map) ->
  - inject_Z (tile_height (Map.provider map)) <= Point.y (Map.offset map) ->
  exists (fuel0 : nat) (tiles : list TileRequest),
    (forall fuel, (fuel0 <= fuel)%nat -> render_map fuel map = Some (Ok tiles)) /\
    forall tile, In tile tiles ->
      exists px py : Z,
        (0 <= px < fst (Map._size map))%Z /\
        (0 <= py < snd (Map._size map))%Z /\
        tile_covers tile px py.
Proof.
  intros Htw Hth Hw Hh Hox Hoy.
  destruct (render_map_run map Htw Hth)
    as (fuel0 & tiles & kx & ky & Hrun & Hx0 & Hxgt & Hxzero & Hy0 & Hygt
        & Hyzero & Htiles).
  exists fuel0, tiles. split; [ exact Hrun | ].
  assert (Hhalf : forall s : Z, (0 < s)%Z -> 1 # 2 <= inject_Z s / 2).
  { intros s Hs. unfold Qdiv. change (/ 2) with (1 # 2).
    setoid_replace (1 # 2) with (inject_Z 1 * (1 # 2)) at 1 by reflexivity.
    apply Qmult_le_compat_r; [ | discriminate ].
    rewrite <- Zle_Qle. lia. }
  pose proof (Hhalf _ Hw) as Hw2. pose proof (Hhalf _ Hh) as Hh2.
  assert (HX0 : (- tile_width (Map.provider map)
                 < py_int (Point.x (Map.offset map)
                           + inject_Z (fst (Map._size map)) / 2))%Z).
  { apply py_int_above; [ exact Htw | ].
    generalize dependent (inject_Z (fst (Map._size map)) / 2). intros; lra. }
  assert (HY0 : (- tile_height (Map.provider map)
                 < py_int (Point.y (Map.offset map)
                           + inject_Z (snd (Map._size map)) / 2))%Z).
  { apply py_int_above; [ exact Hth | ].
    generalize dependent (inject_Z (snd (Map._size map)) / 2). intros; lra. }
  set (X0 := py_int (Point.x (Map.offset map)
                     + inject_Z (fst (Map._size map)) / 2)) in *.
  set (Y0 := py_int (Point.y (Map.offset map)
                     + inject_Z (snd (Map._size map)) / 2)) in *.
  set (tw := tile_width (Map.provider map)) in *.
  set (th := tile_height (Map.provider map)) in *.
  assert (Hxlow : (- tw < X0 - Z.of_nat kx * tw)%Z).
  { destruct (Z_lt_le_dec 0 X0) as [Hp | Hn]; [ now apply Hxgt | ].
    rewrite (Hxzero Hn). lia. }
  assert (Hylow : (- th < Y0 - Z.of_nat ky * th)%Z).
  { destruct (Z_lt_le_dec 0 Y0) as [Hp | Hn]; [ now apply Hygt | ].
    rewrite (Hyzero Hn). lia. }
  intros tile Hin.
  destruct (Htiles tile Hin) as (i & j & Hi & Hj & Hpt & Hprov & _).
  pose proof (range_last_below _ _ _ _ Htw Hi) as Hxw.
  pose proof (range_last_below _ _ _ _ Hth Hj) as Hyh.
  exists (Z.max (X0 - Z.of_nat kx * tw + Z.of_nat i * tw) 0).
  exists (Z.max (Y0 - Z.of_nat ky * th + Z.of_nat j * th) 0).
  split; [ lia | ]. split; [ lia | ].
  unfold tile_covers. rewrite Hpt, Hprov. cbn [Point.x Point.y].
  fold tw th.
  rewrite <- !inject_Z_plus, <- !Zle_Qle, <- !Zlt_Qlt.
  assert (0 <= Z.of_nat i * tw)%Z by (apply Z.mul_nonneg_nonneg; lia).
  assert (0 <= Z.of_nat j * th)%Z by (apply Z.mul_nonneg_nonneg; lia).
  lia.
Qed.

Lemma render_map_requests_visible_tiles_only_witness :
  exists tiles,
    render_map 0 example_map = Some (Ok tiles) /\
    forall tile, In tile tiles ->
      exists px py : Z,
        (0 <= px < 128)%Z /\ (0 <= py < 128)%Z /\ tile_covers tile px py.
Proof.
  destruct (render_map_requests_visible_tiles_only example_map)
    as (fuel0 & tiles & Hrun & Htiles); try reflexivity; try discriminate.
  exists tiles. split; [ | exact Htiles ].
  assert (E : exists r, render_map 0 example_map = Some r)
    by (eexists; reflexivity).
  destruct E as (r & E). rewrite E.
  rewrite <- (Hrun fuel0 (le_n fuel0)).
  symmetry. apply (render_map_mono 0 fuel0 _ _ (Nat.le_0_l fuel0) E).
Defined.

(** ** Tile sizes that are not positive *)

Lemma walk_left_stuck (provider : Provider) (fuel : nat) :
  (tile_width provider <= 0)%Z ->
  forall (corner : Point.t) (coord : Coordinate.t),
    0 < Point.x corner -> walk_left fuel provider corner coord = None.
Proof.
  intros Htw.
  assert (Htw' : inject_Z (tile_width provider) <= 0).
  { change 0 with (inject_Z 0). now rewrite <- Zle_Qle. }
  induction fuel as [ | fuel IH ]; intros corner coord Hx; cbn [walk_left];
    (destruct (Qle_bool (Point.x corner) 0) eqn:E;
     [ apply Qle_bool_iff in E; lra | ]).
  - reflexivity.
  - apply IH. cbn [Point.x]. lra.
Qed.

Lemma walk_up_stuck (provider : Provider) (fuel : nat) :
  (tile_height provider <= 0)%Z ->
  forall (corner : Point.t) (coord : Coordinate.t),
    0 < Point.y corner -> walk_up fuel provider corner coord = None.
Proof.
  intros Hth.
  assert (Hth' : inject_Z (tile_height provider) <= 0).
  { change 0 with (inject_Z 0). now rewrite <- Zle_Qle. }
  induction fuel as [ | fuel IH ]; intros corner coord Hy; cbn [walk_up];
    (destruct (Qle_bool (Point.y corner) 0) eqn:E;
     [ apply Qle_bool_iff in E; lra | ]).
  - reflexivity.
  - apply IH. cbn [Point.y]. lra.
Qed.

Lemma walk_left_keeps_y (provider : Provider) (fuel : nat) (corner corner' : Point.t)
    (coord coord' : Coordinate.t) :
  walk_left fuel provider corner coord = Some (corner', coord') ->
  Point.y corner' = Point.y corner.
Proof.
  revert corner coord. induction fuel as [ | fuel IH ]; intros corner coord;
    cbn [walk_left]; destruct (Qle_bool (Point.x corner) 0).
  - intros E. now injection E as <- _.
  - discriminate.
  - intros E. now injection E as <- _.
  - intros E. now apply IH in E.
Qed.

(** X10: [render_map] does not return when the reference tile starts to the
    right of the image origin, [int(offset.x + W / 2) > 0], and the tile
    width is zero or negative: the walk to the left never reaches the
    origin.  The same holds for the walk up when the tile height is zero or
    negative and [int(offset.y + H / 2) > 0]. *)
Theorem render_map_walk_never_ends (map : Map.t) (fuel : nat) :
  ((tile_width (Map.provider map) <= 0)%Z /\
   (0 < py_int (Point.x (Map.offset map)
                + inject_Z (fst (Map._size map)) / 2))%Z)
  \/ ((tile_height (Map.provider map) <= 0)%Z /\
      (0 < py_int (Point.y (Map.offset map)
                   + inject_Z (snd (Map._size map)) / 2))%Z) ->
  render_map fuel map = None.
Proof.
  destruct map as [provider coordinate offset ext center zm [w h]].
  cbn [Map.provider Map._size Map.offset fst snd].
  intros Hcase. unfold render_map.
  cbn [Map.provider Map._size Map.offset Map.coordinate].
  destruct Hcase as [[Htw HX] | [Hth HY]].
  - rewrite walk_left_stuck; [ reflexivity | exact Htw | ].
    cbn [Point.x]. change 0 with (inject_Z 0). now rewrite <- Zlt_Qlt.
  - destruct (walk_left fuel provider _ _) as [[corner coord] | ] eqn:Hleft;
      [ | reflexivity ].
    apply walk_left_keeps_y in Hleft as Hy. cbn [Point.y] in Hy.
    rewrite walk_up_stuck; [ reflexivity | exact Hth | ].
    rewrite Hy. change 0 with (inject_Z 0). now rewrite <- Zlt_Qlt.
Qed.

Lemma render_map_walk_never_ends_witness :
  render_map 1000
    (Map.Build (identity_provider 10 0 256) (Coordinate.new 0 0 10)
       (Point.new 0 0) (0, 0, 1, 1) None 10 (256, 256)%Z)
  = None.
Proof.
  apply (render_map_walk_never_ends
           (Map.Build (identity_provider 10 0 256) (Coordinate.new 0 0 10)
              (Point.new 0 0) (0, 0, 1, 1) None 10 (256, 256)%Z) 1000).
  left. split; reflexivity.
Defined.

(** X11: with positive tile sizes no two tiles of [render_map] overlap: two
    requested tiles that cover one pixel have the same destination. *)
Theorem render_map_tiles_do_not_overlap (map : Map.t) :
  (0 < tile_width (Map.provider map))%Z ->
  (0 < tile_height (Map.provider map))%Z ->
  exists (fuel0 : nat) (tiles : list TileRequest),
    (forall fuel, (fuel0 <= fuel)%nat -> render_map fuel map = Some (Ok tiles)) /\
    forall (tile tile' : TileRequest) (px py : Z),
      In tile tiles -> In tile' tiles ->
      tile_covers tile px py -> tile_covers tile' px py ->
      request_point tile = request_point tile'.
Proof.
  intros Htw Hth.
  destruct (render_map_run map Htw Hth)
    as (fuel0 & tiles & kx & ky & Hrun & _ & _ & _ & _ & _ & _ & Htiles).
  exists fuel0, tiles. split; [ exact Hrun | ].
  intros tile tile' px py Hin Hin' Hc Hc'.
  destruct (Htiles tile Hin) as (i & j & _ & _ & Hpt & Hprov & _).
  destruct (Htiles tile' Hin') as (i' & j' & _ & _ & Hpt' & Hprov' & _).
  unfold tile_covers in Hc, Hc'.
  rewrite Hpt, Hprov in Hc. rewrite Hpt', Hprov' in Hc'.
  cbn [Point.x Point.y] in Hc, Hc'.
  rewrite <- !inject_Z_plus, <- !Zle_Qle, <- !Zlt_Qlt in Hc, Hc'.
  rewrite Hpt, Hpt'.
  assert (Hsame : forall (t a : Z) (n n' : nat), (0 < t)%Z ->
            (a + Z.of_nat n * t <= px < a + Z.of_nat n * t + t)%Z ->
            (a + Z.of_nat n' * t <= px < a + Z.of_nat n' * t + t)%Z ->
            n = n').
  { clear. intros t a n n' Ht H1 H2.
    destruct (Nat.lt_trichotomy n n') as [Hlt | [Heq | Hgt]];
      [ exfalso | exact Heq | exfalso ]; nia. }
  assert (Hsame' : forall (t a : Z) (n n' : nat), (0 < t)%Z ->
            (a + Z.of_nat n * t <= py < a + Z.of_nat n * t + t)%Z ->
            (a + Z.of_nat n' * t <= py < a + Z.of_nat n' * t + t)%Z ->
            n = n').
  { clear. intros t a n n' Ht H1 H2.
    destruct (Nat.lt_trichotomy n n') as [Hlt | [Heq | Hgt]];
      [ exfalso | exact Heq | exfalso ]; nia. }
  destruct Hc as [Hx Hy]. destruct Hc' as [Hx' Hy'].
  rewrite (Hsame _ _ i i' Htw Hx Hx'), (Hsame' _ _ j j' Hth Hy Hy').
  reflexivity.
Qed.

Lemma render_map_tiles_do_not_overlap_witness :
  exists tiles,
    render_map 0 example_map = Some (Ok tiles) /\
    forall (tile tile' : TileRequest),
      In tile tiles -> In tile' tiles ->
      tile_covers tile 5 5 -> tile_covers tile' 5 5 ->
      request_point tile = request_point tile'.
Proof.
  destruct (render_map_tiles_do_not_overlap example_map)
    as (fuel0 & tiles & Hrun & Htiles); try reflexivity.
  exists tiles. split.
  - assert (E : exists r, render_map 0 example_map = Some r)
      by (eexists; reflexivity).
    destruct E as (r & E). rewrite E.
    rewrite <- (Hrun fuel0 (le_n fuel0)).
    symmetry. apply (render_map_mono 0 fuel0 _ _ (Nat.le_0_l fuel0) E).
  - intros tile tile'. apply Htiles.
Defined.

(** ** The extent in the image *)

Lemma fit_pixels (U V Cc R r W pa : Q) :
  Qabs (U - V) <= W -> Cc == (U + V) / 2 ->
  Qabs (r - (R - Cc)) <= 1 # 2 ->
  pa == r + (U - R) + W / 2 ->
  - (1 # 2) <= pa <= W + (1 # 2).
Proof.
  intros HW HC Hr Hpa.
  unfold Qdiv in HC, Hpa. change (/ 2) with (1 # 2) in HC, Hpa.
  assert (Hr' : - (1 # 2) <= r - (R - Cc) <= 1 # 2).
  { revert Hr. apply Qabs_case; intros; lra. }
  assert (HW' : - W <= U - V <= W).
  { revert HW. apply Qabs_case; intros; lra. }
  lra.
Qed.

Lemma Qmin_plus_max (u v : Q) : Qmin u v + Qmax u v == u + v.
Proof.
  destruct (Qlt_le_dec u v) as [Huv | Hvu].
  - rewrite Q.min_l, Q.max_r by lra. reflexivity.
  - rewrite Q.min_r, Q.max_l by lra. ring.
Qed.

Lemma extent_axis_in_image (u v sA sB sC T W : Q) :
  sA == sC -> sB == sC -> 0 < T ->
  Qabs (u * sA - v * sB) * T <= W ->
  let C := (Qmin u v + Qmax u v) / 2 * sC in
  let Rf := inject_Z (Qfloor C) in
  let r := inject_Z (py_round ((Rf - C) * T)) in
  - (1 # 2) <= r + T * (u * sA - Rf) + W / 2 <= W + (1 # 2) /\
  - (1 # 2) <= r + T * (v * sB - Rf) + W / 2 <= W + (1 # 2).
Proof.
  intros HA HB HT Hfit C Rf r.
  assert (Hnear : Qabs (r - (T * Rf - T * C)) <= 1 # 2).
  { setoid_replace (T * Rf - T * C) with ((Rf - C) * T) by ring.
    unfold r. pose proof (py_round_near ((Rf - C) * T)).
    apply Qabs_case; intros _; lra. }
  assert (Hmid : T * C == (T * (u * sA) + T * (v * sB)) / 2).
  { unfold C. rewrite Qmin_plus_max, HA, HB. field. }
  assert (Habs : Qabs (T * (u * sA) - T * (v * sB)) <= W).
  { setoid_replace (T * (u * sA) - T * (v * sB))
      with ((u * sA - v * sB) * T) by ring.
    now rewrite Qabs_Qmult, (Qabs_pos T) by lra. }
  split.
  - apply (fit_pixels (T * (u * sA)) (T * (v * sB)) (T * C) (T * Rf) r W).
    + exact Habs.
    + exact Hmid.
    + exact Hnear.
    + ring.
  - apply (fit_pixels (T * (v * sB)) (T * (u * sA)) (T * C) (T * Rf) r W).
    + setoid_replace (T * (v * sB) - T * (u * sA))
        with (- (T * (u * sA) - T * (v * sB))) by ring.
      now rewrite Qabs_opp.
    + rewrite Hmid. field.
    + exact Hnear.
    + ring.
Qed.

(** X12: when the extent assigned to a view has corners that the provider
    projects at one integer zoom, with positive spans, and the image and
    tile sizes are positive, the setter returns.  If the two ceilings that
    the floating-point computation of [calculateMapExtent] gives are not
    below the binary logarithms of the two factors ([f <= 2 ^ ceil_log f]),
    the new view shows the whole extent: [locationPoint] takes both corners
    into the image, to within half a pixel of its bounds on each axis. *)
Theorem extent_setter_shows_extent `{PyMath} (self : Map.t) (x1 y1 x2 y2 : Q)
    (ca cb : Coordinate.t) (z0 : Z) :
  locationCoordinate (Map.provider self) (Point.new x1 y1) = Ok ca ->
  locationCoordinate (Map.provider self) (Point.new x2 y2) = Ok cb ->
  Coordinate.zoom ca == inject_Z z0 -> Coordinate.zoom cb == inject_Z z0 ->
  (0 < fst (Map._size self))%Z -> (0 < snd (Map._size self))%Z ->
  (0 < tile_width (Map.provider self))%Z ->
  (0 < tile_height (Map.provider self))%Z ->
  ~ Coordinate.column ca == Coordinate.column cb ->
  ~ Coordinate.row ca == Coordinate.row cb ->
  let hFactor :=
    (Qmax (Coordinate.column ca) (Coordinate.column cb)
     - Qmin (Coordinate.column ca) (Coordinate.column cb))
    / (inject_Z (fst (Map._size self))
       / inject_Z (tile_width (Map.provider self))) in
  let vFactor :=
    (Qmax (Coordinate.row ca) (Coordinate.row cb)
     - Qmin (Coordinate.row ca) (Coordinate.row cb))
    / (inject_Z (snd (Map._size self))
       / inject_Z (tile_height (Map.provider self))) in
  hFactor <= 2 ^ ceil_log hFactor ->
  vFactor <= 2 ^ ceil_log vFactor ->
  exists self' pa pb,
    Map.extent_setter self (x1, y1, x2, y2) = Map.Done self' /\
    Map.locationPoint self' (Point.new x1 y1) = Ok pa /\
    Map.locationPoint self' (Point.new x2 y2) = Ok pb /\
    (- (1 # 2) <= Point.x pa <= inject_Z (fst (Map.size self')) + (1 # 2) /\
     - (1 # 2) <= Point.x pb <= inject_Z (fst (Map.size self')) + (1 # 2)) /\
    (- (1 # 2) <= Point.y pa <= inject_Z (snd (Map.size self')) + (1 # 2) /\
     - (1 # 2) <= Point.y pb <= inject_Z (snd (Map.size self')) + (1 # 2)).
Proof.
  intros HA HB Hza Hzb Hw Hh Htw Hth Hcol Hrow hFactor vFactor Hkh Hkv.
  destruct self as [provider coordinate offset ext center zm [w h]].
  cbn [Map.provider Map._size fst snd] in *.
  assert (Htw' : 0 < inject_Z (tile_width provider))
    by now rewrite (Zlt_Qlt 0 (tile_width provider)) in Htw.
  assert (Hth' : 0 < inject_Z (tile_height provider))
    by now rewrite (Zlt_Qlt 0 (tile_height provider)) in Hth.
  destruct (calculateMapExtent_two_corners provider w h _ _ ca cb HA HB
              Hw Hh Htw Hth Hcol Hrow) as [[Hh0 Hv0] Hrun].
  cbn [Coordinate.row Coordinate.column Coordinate.zoom] in Hh0, Hv0, Hrun.
  fold hFactor vFactor in Hh0, Hv0, Hrun.
  set (kh := ceil_log hFactor) in *. set (kv := ceil_log vFactor) in *.
  set (initZoom :=
         Qmin (Qmin (Coordinate.zoom ca) (Coordinate.zoom cb) - inject_Z kh)
              (Qmin (Coordinate.zoom ca) (Coordinate.zoom cb) - inject_Z kv))
    in Hrun.
  apply (log2_ceil_spec _ _ Hh0) in Hkh.
  apply (log2_ceil_spec _ _ Hv0) in Hkv.
  assert (Hle : (Z.min (z0 - kh) (z0 - kv)
                 <= Z.min (z0 - log2_ceil hFactor) (z0 - log2_ceil vFactor))%Z)
    by lia.
  pose proof (proj2 (extent_fits_iff provider w h ca cb z0
                       (Z.min (z0 - kh) (z0 - kv)) Hza Hzb Hw Hh Htw Hth
                       Hcol Hrow) Hle) as [Hfitx Hfity].
  unfold extent_pixel_span, Coordinate.zoomTo in Hfitx, Hfity.
  cbn [fst snd Coordinate.row Coordinate.column] in Hfitx, Hfity.
  assert (Ez : Qmin (Coordinate.zoom ca) (Coordinate.zoom cb) == inject_Z z0).
  { rewrite Hza, Hzb. apply Q.min_id. }
  assert (Ez' : Qmax (Coordinate.zoom ca) (Coordinate.zoom cb) == inject_Z z0).
  { rewrite Hza, Hzb. apply Q.max_id. }
  assert (Einit : initZoom == inject_Z (Z.min (z0 - kh) (z0 - kv))).
  { unfold initZoom. rewrite Ez, <- Qmin_inject_Z.
    unfold Z.sub. rewrite !inject_Z_plus, !inject_Z_opp. reflexivity. }
  set (zc := Z.min (z0 - kh) (z0 - kv)) in *.
  assert (EsC : pow2 (initZoom
                      - (Qmin (Coordinate.zoom ca) (Coordinate.zoom cb)
                         + Qmax (Coordinate.zoom ca) (Coordinate.zoom cb)) / 2)
                == 2 ^ (zc - z0)).
  { apply pow2_diff; [ exact Einit | ]. rewrite Ez, Ez'. field. }
  assert (EsA : pow2 (initZoom - Coordinate.zoom ca) == 2 ^ (zc - z0))
    by (apply pow2_diff; assumption).
  assert (EsB : pow2 (initZoom - Coordinate.zoom cb) == 2 ^ (zc - z0))
    by (apply pow2_diff; assumption).
  assert (EfA : pow2 (inject_Z zc - Coordinate.zoom ca) == 2 ^ (zc - z0))
    by (apply pow2_diff; [ reflexivity | assumption ]).
  assert (EfB : pow2 (inject_Z zc - Coordinate.zoom cb) == 2 ^ (zc - z0))
    by (apply pow2_diff; [ reflexivity | assumption ]).
  rewrite EfA, EfB in Hfitx, Hfity.
  assert (Hx : Qabs (Coordinate.column ca * pow2 (initZoom - Coordinate.zoom ca)
                     - Coordinate.column cb
                       * pow2 (initZoom - Coordinate.zoom cb))
               * inject_Z (tile_width provider) <= inject_Z w)
    by (rewrite EsA, EsB; exact Hfitx).
  assert (Hy : Qabs (Coordinate.row ca * pow2 (initZoom - Coordinate.zoom ca)
                     - Coordinate.row cb
                       * pow2 (initZoom - Coordinate.zoom cb))
               * inject_Z (tile_height provider) <= inject_Z h)
    by (rewrite EsA, EsB; exact Hfity).
  unfold Map.extent_setter, Map._on_change_extent.
  cbn [Map.set__extent Map._size Map._extent Map.provider].
  rewrite Hrun. unfold calculateMapCenter, Coordinate.container,
    Coordinate.zoomTo.
  cbn [Coordinate.row Coordinate.column Coordinate.zoom].
  eexists _, _, _. split; [ reflexivity | ].
  unfold Map.locationPoint, Map.size.
  cbn [Map.set_offset Map.set_coordinate Map.set__extent Map.provider
         Map.coordinate Map.offset Map._size Map._extent Map._center Map._zoom
         Coordinate.zoomTo Coordinate.row Coordinate.column Coordinate.zoom
         Point.x Point.y fst snd].
  rewrite HA, HB. cbn [bind].
  split; [ reflexivity | split; [ reflexivity | ] ].
  cbn [Point.x Point.y].
  fold initZoom.
  split.
  - apply (extent_axis_in_image (Coordinate.column ca) (Coordinate.column cb)
             (pow2 (initZoom - Coordinate.zoom ca))
             (pow2 (initZoom - Coordinate.zoom cb))).
    + now rewrite EsA, EsC.
    + now rewrite EsB, EsC.
    + exact Htw'.
    + exact Hx.
  - apply (extent_axis_in_image (Coordinate.row ca) (Coordinate.row cb)
             (pow2 (initZoom - Coordinate.zoom ca))
             (pow2 (initZoom - Coordinate.zoom cb))).
    + now rewrite EsA, EsC.
    + now rewrite EsB, EsC.
    + exact Hth'.
    + exact Hy.
Qed.

Lemma extent_setter_shows_extent_witness :
  exists self' pa pb,
    Map.extent_setter (H := floor_math) example_map (0, 0, 2, 2)
    = Map.Done self' /\
    Map.locationPoint (H := floor_math) self' (Point.new 0 0) = Ok pa /\
    Map.locationPoint (H := floor_math) self' (Point.new 2 2) = Ok pb /\
    - (1 # 2) <= Point.x pa <= 128 + (1 # 2) /\
    - (1 # 2) <= Point.x pb <= 128 + (1 # 2).
Proof.
  destruct (extent_setter_shows_extent (H := floor_math) example_map 0 0 2 2
              (Coordinate.new 0 0 10) (Coordinate.new 2 2 10) 10)
    as (self' & pa & pb & Hrun & Ha & Hb & [Hxa Hxb] & _);
    try reflexivity; try discriminate.
  exists self', pa, pb.
  assert (Esize : Map.size self' = (128, 128)%Z).
  { assert (E : Map.state (Map.extent_setter (H := floor_math) example_map
                             (0, 0, 2, 2)) = self') by now rewrite Hrun.
    now rewrite <- E. }
  rewrite Esize in Hxa, Hxb. now repeat split.
Defined.

(** ** The extent that the size setter computes *)

(** X13: in a view whose reference coordinate has an integer zoom [z], over
    a provider with positive tile sizes whose projections are inverse on the
    coordinates of that zoom, the extent that the size setter stores is the
    extent of the new image: [locationPoint] takes its first corner to the
    bottom-left pixel [(0, h)] and its second to the top-right pixel
    [(w, 0)], up to the rounding at [MAX_ZOOM]. *)
Theorem size_setter_extent_is_image `{PyMath} `{Coordinate.max_zoom}
    (self self' : Map.t) (w h z : Z) :
  Coordinate.zoom (Map.coordinate self) == inject_Z z ->
  (0 < tile_width (Map.provider self))%Z ->
  (0 < tile_height (Map.provider self))%Z ->
  coordinate_round_trip (Map.provider self)
    (Coordinate.zoom (Map.coordinate self)) ->
  Map.size_setter self (w, h) = Map.Done self' ->
  exists x1 y1 x2 y2 p1 p2,
    Map.extent self' = (x1, y1, x2, y2) /\
    Map.locationPoint self' (Point.new x1 y1) = Ok p1 /\
    Map.locationPoint self' (Point.new x2 y2) = Ok p2 /\
    Qabs (Point.x p1 - 0)
    <= inject_Z (tile_width (Map.provider self))
       * (2 ^ (z - Coordinate.MAX_ZOOM) * (1 # 2)) /\
    Qabs (Point.y p1 - inject_Z h)
    <= inject_Z (tile_height (Map.provider self))
       * (2 ^ (z - Coordinate.MAX_ZOOM) * (1 # 2)) /\
    Qabs (Point.x p2 - inject_Z w)
    <= inject_Z (tile_width (Map.provider self))
       * (2 ^ (z - Coordinate.MAX_ZOOM) * (1 # 2)) /\
    Qabs (Point.y p2 - 0)
    <= inject_Z (tile_height (Map.provider self))
       * (2 ^ (z - Coordinate.MAX_ZOOM) * (1 # 2)).
Proof.
  intros Hz Htw Hth Hinv.
  unfold Map.size_setter, Map._on_change_size.
  change (Map._size (Map.set__size self (w, h))) with (w, h).
  cbv beta iota zeta.
  set (self1 := Map.set__size self (w, h)).
  destruct (Map.pointLocation self1 (Point.new 0 (inject_Z h)))
    as [l1 | e] eqn:E1; [ | discriminate ].
  destruct (Map.pointLocation self1 (Point.new (inject_Z w) 0))
    as [l2 | e] eqn:E2; [ | discriminate ].
  intros E. injection E as <-.
  destruct (pixel_round_trip self1 _ _ z Hz Htw Hth Hinv E1)
    as (p1 & Hp1 & Hx1 & Hy1).
  destruct (pixel_round_trip self1 _ _ z Hz Htw Hth Hinv E2)
    as (p2 & Hp2 & Hx2 & Hy2).
  exists (Point.x l1), (Point.y l1), (Point.x l2), (Point.y l2), p1, p2.
  split; [ reflexivity | ].
  assert (Hl : forall l, Point.new (Point.x l) (Point.y l) = l)
    by (intros []; reflexivity).
  rewrite !Hl.
  split; [ exact Hp1 | ]. split; [ exact Hp2 | ].
  repeat split; assumption.
Qed.

Lemma identity_provider_round_trip :
  coordinate_round_trip (H := floor_math) (identity_provider 10 256 256) 10.
Proof.
  intros c l Hzc Hl. injection Hl as <-. eexists. split; [ reflexivity | ].
  unfold Coordinate.eqv, Coordinate.zoomTo.
  cbn [Coordinate.row Coordinate.column Coordinate.zoom Point.x Point.y].
  assert (E1 : @pow2 floor_math (10 - inject_Z 10) == 1) by reflexivity.
  rewrite E1, !Qmult_1_r, Hzc. now repeat split.
Qed.

Lemma size_setter_extent_is_image_witness :
  exists self' x1 y1 x2 y2 p1 p2,
    Map.size_setter (H := floor_math) (H0 := 26%Z) example_map (256, 256)%Z
    = Map.Done self' /\
    Map.extent self' = (x1, y1, x2, y2) /\
    Map.locationPoint (H := floor_math) self' (Point.new x1 y1) = Ok p1 /\
    Map.locationPoint (H := floor_math) self' (Point.new x2 y2) = Ok p2 /\
    Qabs (Point.x p1 - 0) <= 256 * (2 ^ (10 - 26) * (1 # 2)) /\
    Qabs (Point.y p1 - 256) <= 256 * (2 ^ (10 - 26) * (1 # 2)).
Proof.
  assert (E : exists self',
             Map.size_setter (H := floor_math) (H0 := 26%Z) example_map
               (256, 256)%Z = Map.Done self')
    by (eexists; vm_compute; reflexivity).
  destruct E as (self' & E).
  destruct (size_setter_extent_is_image (H := floor_math) (H0 := 26%Z)
              example_map self' 256 256 10 (Qeq_refl _) eq_refl eq_refl
              identity_provider_round_trip E)
    as (x1 & y1 & x2 & y2 & p1 & p2 & Hext & Hp1 & Hp2 & Hx1 & Hy1 & _).
  exists self', x1, y1, x2, y2, p1, p2. now repeat split.
Defined.

(** ** Failure of the constructor *)

(** X14: the constructor raises only what the provider raises on a corner
    of the extent, the first corner before the second; it does no division
    and takes no logarithm, so a degenerate extent, which the extent setter
    rejects, is accepted here and gives an image of width or height zero. *)
Theorem init_raises_only_provider_errors `{PyMath} (provider : Provider)
    (x1 y1 x2 y2 zoom : Q) :
  (forall e,
      Map.__init__ (x1, y1, x2, y2) zoom provider = Raise e <->
      locationCoordinate provider (Point.new x1 y1) = Raise e
      \/ (exists ca,
             locationCoordinate provider (Point.new x1 y1) = Ok ca /\
             locationCoordinate provider (Point.new x2 y2) = Raise e)) /\
  (forall ca cb,
      locationCoordinate provider (Point.new x1 y1) = Ok ca ->
      locationCoordinate provider (Point.new x2 y2) = Ok cb ->
      exists self,
        Map.__init__ (x1, y1, x2, y2) zoom provider = Ok self /\
        (Coordinate.column ca == Coordinate.column cb ->
         Coordinate.zoom ca == Coordinate.zoom cb ->
         fst (Map.size self) = 0%Z) /\
        (Coordinate.row ca == Coordinate.row cb ->
         Coordinate.zoom ca == Coordinate.zoom cb ->
         snd (Map.size self) = 0%Z)).
Proof.
  unfold Map.__init__, Map._on_change_extent_zoom.
  split.
  - intros e.
    destruct (locationCoordinate provider (Point.new x1 y1)) as [ca | ea].
    + cbn [bind].
      destruct (locationCoordinate provider (Point.new x2 y2)) as [cb | eb].
      * cbn [bind]. destruct (calculateMapCenter _ _).
        split; [ discriminate | ].
        intros [Hf | (ca' & _ & Hf)]; discriminate.
      * cbn [bind]. split.
        -- intros E. injection E as ->. right. exists ca. now split.
        -- intros [Hf | (ca' & _ & Hf)]; [ discriminate | ].
           now injection Hf as ->.
    + cbn [bind]. split.
      * intros E. injection E as ->. now left.
      * intros [Hf | (ca' & Hf & _)]; [ | discriminate ].
        now injection Hf as ->.
  - intros ca cb -> ->. cbn [bind].
    destruct (calculateMapCenter _ _) as [mc mo]. eexists.
    split; [ reflexivity | ].
    unfold Map.size. cbn [Map._size fst snd Coordinate.zoomTo
                            Coordinate.row Coordinate.column].
    assert (Hzero : forall u v s s' t : Q, u == v -> s == s' ->
              py_int (Qabs (u * s - v * s') * t) = 0%Z).
    { intros u v s s' t Huv Hs.
      rewrite (py_int_proper _ (inject_Z 0)); [ apply py_int_Z | ].
      setoid_replace (u * s - v * s') with 0 by (rewrite Huv, Hs; ring).
      change (Qabs 0) with 0. apply Qmult_0_l. }
    split; intros Hsame Hzoom; apply Hzero; try exact Hsame;
      apply pow2_proper; now rewrite Hzoom.
Qed.

Lemma init_raises_only_provider_errors_witness :
  Map.__init__ (H := floor_math) (0, 0, 0, 90) 10 (bounded_provider 10 256 256)
  = Raise (ProviderError "ProjectionError") /\
  exists self,
    Map.__init__ (H := floor_math) (0, 0, 0, 1) 10 (bounded_provider 10 256 256)
    = Ok self /\
    fst (Map.size self) = 0%Z.
Proof.
  split.
  - apply (proj1 (init_raises_only_provider_errors (H := floor_math)
                    (bounded_provider 10 256 256) 0 0 0 90 10)).
    right. eexists. split; reflexivity.
  - destruct (proj2 (init_raises_only_provider_errors (H := floor_math)
                       (bounded_provider 10 256 256) 0 0 0 1 10)
                _ _ eq_refl eq_refl) as (self & Hrun & Hw & _).
    exists self. split; [ exact Hrun | ]. apply Hw; reflexivity.
Defined.

(** ** A tile height of zero *)

(** X15: with a positive tile width and a tile height of zero, when the
    reference tile does not start below the image origin
    ([int(offset.y + H / 2) <= 0]) the walk ends and [render_map] raises the
    [ValueError] of [range] for a step of zero. *)
Theorem render_map_zero_tile_height (map : Map.t) :
  (0 < tile_width (Map.provider map))%Z ->
  tile_height (Map.provider map) = 0%Z ->
  (py_int (Point.y (Map.offset map)
           + inject_Z (snd (Map._size map)) / 2) <= 0)%Z ->
  exists fuel0 : nat,
    forall fuel, (fuel0 <= fuel)%nat ->
      render_map fuel map
      = Some (Raise (ValueError "range() arg 3 must not be zero")).
Proof.
  intros Htw Hth HY.
  destruct map as [provider coordinate offset ext center zm [w h]].
  cbn [Map.provider Map._size Map.offset fst snd] in *.
  set (X0 := py_int (Point.x offset + inject_Z w / 2)).
  set (Y0 := py_int (Point.y offset + inject_Z h / 2)) in *.
  destruct (walk_left_steps provider (Z.to_nat X0) Htw
              (Point.new (inject_Z X0) (inject_Z Y0))
              (Coordinate.copy coordinate) X0 (Qeq_refl _) ltac:(lia))
    as (kx & qx & coord1 & Hleft & _).
  cbn [Point.y] in Hleft.
  exists (Z.to_nat X0). intros fuel Hfuel. unfold render_map.
  cbn [Map.provider Map._size Map.offset Map.coordinate].
  fold X0 Y0. rewrite (walk_left_mono _ _ _ _ _ _ Hfuel Hleft).
  assert (Hup : walk_up fuel provider (Point.new qx (inject_Z Y0)) coord1
                = Some (Point.new qx (inject_Z Y0), coord1)).
  { assert (E : Qle_bool (inject_Z Y0) 0 = true).
    { apply Qle_bool_iff. change 0 with (inject_Z 0). now rewrite <- Zle_Qle. }
    destruct fuel; cbn [walk_up Point.y]; now rewrite E. }
  rewrite Hup. unfold py_range. now rewrite Hth.
Qed.

Lemma render_map_zero_tile_height_witness :
  render_map 0
    (Map.Build (identity_provider 10 256 0) (Coordinate.new 0 0 10)
       (Point.new (-64) (-64)) (0, 0, 1, 1) None 10 (128, 128)%Z)
  = Some (Raise (ValueError "range() arg 3 must not be zero")).
Proof.
  destruct (render_map_zero_tile_height
              (Map.Build (identity_provider 10 256 0) (Coordinate.new 0 0 10)
                 (Point.new (-64) (-64)) (0, 0, 1, 1) None 10 (128, 128)%Z)
              eq_refl eq_refl ltac:(vm_compute; discriminate))
    as (fuel0 & Hrun).
  assert (E : exists r,
             render_map 0
               (Map.Build (identity_provider 10 256 0)
                  (Coordinate.new 0 0 10) (Point.new (-64) (-64))
                  (0, 0, 1, 1) None 10 (128, 128)%Z) = Some r)
    by (eexists; reflexivity).
  destruct E as (r & E). rewrite E.
  rewrite <- (Hrun fuel0 (le_n fuel0)).
  symmetry. apply (render_map_mono 0 fuel0 _ _ (Nat.le_0_l fuel0) E).
Defined.
